(** * ggggenny: the tailing, aggregation and timeline engine of the monitors

    A shallow embedding of the engine shared by [tui_monitor.py] and
    [textual_monitor.py]: [FileTail.read_new_lines], the [MetricsAgg]
    class ([_bucket_start], [_ensure_bucket], [ensure_buckets_to],
    [update], [set_bucket_seconds]) and the ASCII timeline renderer
    ([render_timeline_ascii], [TUI._draw_timeline_ascii]).

    Conventions.
    - Python [int]s that hold epoch seconds or configuration values are
      [Z]; the success and failure counters start at 0 and are only ever
      incremented, they are [nat].
    - Python [float] timestamps are exact rationals [Q].  For a
      timestamp [ts] with [0 <= ts < 2^53] and a bucket width from 1 to
      [2^53], which covers every clock reading and every width the key
      bindings can set, [ts % w] and [ts - ts % w] are exact in binary64
      as well and nothing is lost; beyond that range the rationals
      idealise the floats (see [float_exact_limit]).
    - [dict]s are stdpp [gmap]s, the [deque] is a [list] whose head is the
      oldest entry.
    - Calls into the Python runtime ([json.loads], [datetime.strptime],
      [str], [bytes.decode], [str.splitlines]) are the fields of the
      class [Runtime]; the file system a poll observes is a record
      [FileSystem]; the clock reading [time.time()] is an argument. *)

From Stdlib Require Import ZArith QArith Qround String Ascii List Lia.
From stdpp Require Import base gmap strings list fin_maps sorting.

Local Open Scope Z_scope.
Set Warnings "-register-all".

(** ** Decoded JSON values *)

(** A Python [float], as [json.loads] can return it. *)
Inductive pyfloat : Type :=
| FFinite (q : Q)
| FNaN
| FInf (negative : bool).

(** The Python objects [json.loads] returns.  A [JDict] lists the items of
    the dictionary; [dict_get] finds the entry of a key. *)
Inductive json : Type :=
| JNull
| JBool (b : bool)
| JInt (z : Z)
| JFloat (x : pyfloat)
| JStr (s : string)
| JList (l : list json)
| JDict (kvs : list (string * json)).

(** Truth value of an object, as [bool(v)] and [v or d] see it. *)
Definition truthy (v : json) : bool :=
  match v with
  | JNull => false
  | JBool b => b
  | JInt z => negb (z =? 0)
  | JFloat (FFinite q) => negb (Qeq_bool q 0)
  | JFloat _ => true
  | JStr s => negb (String.eqb s EmptyString)
  | JList l => match l with [] => false | _ => true end
  | JDict kvs => match kvs with [] => false | _ => true end
  end.

(** [d.get(key)]: the value of [key], [None] when it is absent. *)
Fixpoint dict_get (kvs : list (string * json)) (key : string) : json :=
  match kvs with
  | [] => JNull
  | (k, v) :: rest => if String.eqb k key then v else dict_get rest key
  end.

(** [v or d]. *)
Definition py_or (v d : json) : json := if truthy v then v else d.

(** ** The Python runtime and the file system *)

(** What the library calls of the engine return.  [json_loads] is [None]
    where [json.loads] raises; [strptime_timestamp s] is
    [datetime.strptime(s, "%Y-%m-%dT%H:%M:%S").timestamp()], [None] where
    it raises; [str_other] is [str(v)] for an object that is not a [str];
    [decode_utf8] is [chunk.decode("utf-8", errors="replace")]. *)
Class Runtime : Type := {
  json_loads : string -> option json;
  strptime_timestamp : string -> option Q;
  str_other : json -> string;
  decode_utf8 : list Byte.byte -> string;
  splitlines : string -> list string
}.

(** Result of a system call on a path. *)
Inductive io (A : Type) : Type :=
| Got (a : A)
| NotFound
| OtherError.

Arguments Got {A} a.
Arguments NotFound {A}.
Arguments OtherError {A}.

(** The files one poll sees: [glob.glob], [os.path.getsize], and
    [open(path, "rb")] followed by [seek(pos)] and [read()]. *)
Record FileSystem : Type := {
  glob : string -> list string;
  getsize : string -> io nat;
  read_from : string -> nat -> io (list Byte.byte)
}.

(** ** FileTail *)

Record FileTail : Type := {
  pattern : string;
  positions : gmap string nat
}.

Definition FileTail_init (pat : string) : FileTail :=
  {| pattern := pat; positions := ∅ |}.

(** Order of [sorted] on paths. *)
Definition path_le (a b : string) : Prop := String.leb a b = true.

#[global] Instance path_le_dec (a b : string) : Decision (path_le a b).
Proof. unfold path_le. apply _. Defined.

(** The body of the [for path in files] loop of [read_new_lines]; the
    accumulator is [self.positions] and the local [lines]. *)
Definition tail_file `{Runtime} (fs : FileSystem) (path : string)
    (acc : gmap string nat * list (string * string))
    : gmap string nat * list (string * string) :=
  let '(posn, lines) := acc in
  match getsize fs path with
  | NotFound => (delete path posn, lines)
  | OtherError => acc
  | Got size =>
      let pos := default 0%nat (posn !! path) in
      let pos := if (size <? pos)%nat then 0%nat else pos in
      if (pos <? size)%nat then
        match read_from fs path pos with
        | NotFound => (delete path posn, lines)
        | OtherError => acc
        | Got chunk =>
            (<[path := (pos + length chunk)%nat]> posn,
             lines ++ map (pair path) (splitlines (decode_utf8 chunk)))
        end
      else (<[path := size]> posn, lines)
  end.

Definition tail_files `{Runtime} (fs : FileSystem) (files : list string)
    (acc : gmap string nat * list (string * string))
    : gmap string nat * list (string * string) :=
  fold_left (fun a path => tail_file fs path a) files acc.

Definition read_new_lines `{Runtime} (fs : FileSystem) (t : FileTail)
    : FileTail * list (string * string) :=
  let files := merge_sort path_le (glob fs (pattern t)) in
  let '(posn, lines) := tail_files fs files (positions t, []) in
  ({| pattern := pattern t; positions := posn |}, lines).

(** The lines of a poll that come from [path]. *)
Definition lines_of (path : string) (lines : list (string * string))
    : list (string * string) :=
  filter (fun pl => fst pl = path) lines.

(** The tailer with the offset [pos] recorded for [path]. *)
Definition with_position (path : string) (pos : nat) (t : FileTail) : FileTail :=
  {| pattern := pattern t; positions := <[path := pos]> (positions t) |}.

(** The offset recorded for [path], [self.positions.get(path, 0)]. *)
Definition recorded (t : FileTail) (path : string) : nat :=
  default 0%nat (positions t !! path).

(** Two offset tables that differ at most at [path]. *)
Definition agree_off (path : string) (p1 p2 : gmap string nat) : Prop :=
  forall k, k <> path -> p1 !! k = p2 !! k.

(** ** MetricsAgg *)

(** One timeline entry: [(bucket_start_epoch, success_count, fail_count)]. *)
Definition bucket : Type := (Z * nat * nat)%type.

Definition bucket_start_of (e : bucket) : Z := fst (fst e).

Definition starts (tl : list bucket) : list Z := map bucket_start_of tl.

Record MetricsAgg : Type := {
  tail : FileTail;
  success : nat;
  fail : nat;
  per_region : gmap string (nat * nat);
  per_instance : gmap string (nat * nat);
  bucket_seconds : Z;
  max_buckets : Z;
  timeline : list bucket;
  bucket_map : gmap Z (nat * nat)
}.

(** [MetricsAgg.__init__]. *)
Definition MetricsAgg_init (metrics_glob : string) (bucket_secs maxb : Z)
    : MetricsAgg :=
  {| tail := FileTail_init metrics_glob;
     success := 0;
     fail := 0;
     per_region := ∅;
     per_instance := ∅;
     bucket_seconds := Z.max 1 bucket_secs;
     max_buckets := Z.max 1 maxb;
     timeline := [];
     bucket_map := ∅ |}.

Definition set_tail (t : FileTail) (m : MetricsAgg) : MetricsAgg :=
  {| tail := t; success := success m; fail := fail m;
     per_region := per_region m; per_instance := per_instance m;
     bucket_seconds := bucket_seconds m; max_buckets := max_buckets m;
     timeline := timeline m; bucket_map := bucket_map m |}.

Definition set_buckets (tl : list bucket) (bm : gmap Z (nat * nat))
    (m : MetricsAgg) : MetricsAgg :=
  {| tail := tail m; success := success m; fail := fail m;
     per_region := per_region m; per_instance := per_instance m;
     bucket_seconds := bucket_seconds m; max_buckets := max_buckets m;
     timeline := tl; bucket_map := bm |}.

(** What an operation of the aggregator does: it returns, it raises (the
    state is the one the exception leaves behind), or its loop never
    ends. *)
Inductive exn : Type := AttributeError | KeyError | ZeroDivisionError.

Inductive outcome : Type :=
| Done (m : MetricsAgg)
| Raised (e : exn) (m : MetricsAgg)
| Diverged.

(** [x % w] on a float [x] and an int [w <> 0]: the sign follows [w]. *)
Definition py_fmod (x : Q) (w : Z) : Q :=
  (x - inject_Z w * inject_Z (Qfloor (x / inject_Z w)))%Q.

(** [int(x)]: truncation toward zero. *)
Definition py_int (x : Q) : Z :=
  if Qle_bool 0 x then Qfloor x else Qceiling x.

(** [_bucket_start]; [None] is the [ZeroDivisionError] of [ts % 0].  The
    arithmetic is that of the source for [0 <= ts < 2^53] and a width up
    to [2^53]; the [OverflowError] that [ts % w] raises for a width of
    [2^1024] or more, too large for a float, is not modelled. *)
Definition _bucket_start (m : MetricsAgg) (ts : Q) : option Z :=
  if bucket_seconds m =? 0 then None
  else Some (py_int (ts - py_fmod ts (bucket_seconds m))%Q).

(** The [while len(self.timeline) > self.max_buckets] loop: [popleft] and
    [bucket_map.pop(old_b, None)].  [max_buckets] is at least 1 from
    [__init__] on, so the loop stops while the deque still has entries;
    the [popleft] on an empty deque, an [IndexError], is not modelled. *)
Fixpoint evict (maxb : Z) (tl : list bucket) (bm : gmap Z (nat * nat))
    : list bucket * gmap Z (nat * nat) :=
  match tl with
  | [] => (tl, bm)
  | old :: rest =>
      if maxb <? Z.of_nat (length tl)
      then evict maxb rest (delete (bucket_start_of old) bm)
      else (tl, bm)
  end.

Definition _ensure_bucket (b : Z) (m : MetricsAgg) : MetricsAgg :=
  match bucket_map m !! b with
  | Some _ => m
  | None =>
      let bm := <[b := (0%nat, 0%nat)]> (bucket_map m) in
      let tl := timeline m ++ [(b, 0%nat, 0%nat)] in
      let '(tl', bm') := evict (max_buckets m) tl bm in
      set_buckets tl' bm' m
  end.

(** The [while b < target_b] loop of [ensure_buckets_to].  It ends after
    at most [target_b - b] rounds when the width is positive; [None] is a
    loop that outlives its fuel. *)
Fixpoint fill_to (fuel : nat) (b target_b : Z) (m : MetricsAgg)
    : option MetricsAgg :=
  if b <? target_b then
    match fuel with
    | O => None
    | S k =>
        let b' := b + bucket_seconds m in
        fill_to k b' target_b (_ensure_bucket b' m)
    end
  else Some m.

Definition ensure_buckets_to (now_ts : Q) (m : MetricsAgg) : outcome :=
  match last (timeline m) with
  | None =>
      match _bucket_start m now_ts with
      | None => Raised ZeroDivisionError m
      | Some b => Done (_ensure_bucket b m)
      end
  | Some e =>
      let last_b := bucket_start_of e in
      match _bucket_start m now_ts with
      | None => Raised ZeroDivisionError m
      | Some target_b =>
          match fill_to (Z.to_nat (target_b - last_b)) last_b target_b m with
          | Some m' => Done m'
          | None => Diverged
          end
      end
  end.

(** [parse_ts(ts)], with [now] the reading of [time.time()] the [except]
    branch returns.  [strptime] raises [TypeError] on a non-string. *)
Definition parse_ts `{Runtime} (now : Q) (ts : json) : Q :=
  match ts with
  | JStr s => default now (strptime_timestamp s)
  | _ => now
  end.

(** [str(v)]. *)
Definition py_str `{Runtime} (v : json) : string :=
  match v with
  | JStr s => s
  | _ => str_other v
  end.

(** [str(obj.get(key) or "unknown")]. *)
Definition category `{Runtime} (kvs : list (string * json)) (key : string)
    : string :=
  py_str (py_or (dict_get kvs key) (JStr "unknown")).

(** [d["success"] += 1] or [d["fail"] += 1] on a pair of counters. *)
Definition bump (ok : bool) (c : nat * nat) : nat * nat :=
  if ok then (S (fst c), snd c) else (fst c, S (snd c)).

(** [d = per[key]] on the [defaultdict], then the increment. *)
Definition bump_category (ok : bool) (key : string)
    (per : gmap string (nat * nat)) : gmap string (nat * nat) :=
  <[key := bump ok (default (0%nat, 0%nat) (per !! key))]> per.

(** The [for idx in range(len(self.timeline))] loop that rewrites the
    first tuple whose start is [b]. *)
Fixpoint sync_bucket (b : Z) (c : nat * nat) (tl : list bucket)
    : list bucket :=
  match tl with
  | [] => []
  | e :: rest =>
      if bucket_start_of e =? b then (b, fst c, snd c) :: rest
      else e :: sync_bucket b c rest
  end.

(** The counters after the increments of one record. *)
Definition count_record `{Runtime} (kvs : list (string * json))
    (m : MetricsAgg) : MetricsAgg :=
  let ok := truthy (dict_get kvs "success") in
  {| tail := tail m;
     success := (success m + (if ok then 1 else 0))%nat;
     fail := (fail m + (if ok then 0 else 1))%nat;
     per_region := bump_category ok (category kvs "batch_region") (per_region m);
     per_instance := bump_category ok (category kvs "instance_id") (per_instance m);
     bucket_seconds := bucket_seconds m; max_buckets := max_buckets m;
     timeline := timeline m; bucket_map := bucket_map m |}.

(** The body of the [for _path, line in ...] loop of [update]. *)
Definition update_line `{Runtime} (now : Q) (line : string) (m : MetricsAgg)
    : outcome :=
  match json_loads line with
  | None => Done m
  | Some (JDict kvs) =>
      let ok := truthy (dict_get kvs "success") in
      let m1 := count_record kvs m in
      let ts := parse_ts now (py_or (dict_get kvs "ts") (JStr EmptyString)) in
      match _bucket_start m1 ts with
      | None => Raised ZeroDivisionError m1
      | Some b =>
          let m2 := _ensure_bucket b m1 in
          match bucket_map m2 !! b with
          | None => Raised KeyError m2
          | Some c =>
              let c' := bump ok c in
              Done (set_buckets (sync_bucket b c' (timeline m2))
                                (<[b := c']> (bucket_map m2)) m2)
          end
      end
  | Some _ => Raised AttributeError m
  end.

(** The loop of [update] over the lines a poll returned. *)
Fixpoint ingest `{Runtime} (now : Q) (lines : list (string * string))
    (m : MetricsAgg) : outcome :=
  match lines with
  | [] => Done m
  | (_, line) :: rest =>
      match update_line now line m with
      | Done m' => ingest now rest m'
      | o => o
      end
  end.

(** [MetricsAgg.update]. *)
Definition update `{Runtime} (fs : FileSystem) (now : Q) (m : MetricsAgg)
    : outcome :=
  let '(t, lines) := read_new_lines fs (tail m) in
  ingest now lines (set_tail t m).

(** [MetricsAgg.set_bucket_seconds]. *)
Definition set_bucket_seconds (sec : Z) (m : MetricsAgg) : MetricsAgg :=
  {| tail := tail m; success := success m; fail := fail m;
     per_region := per_region m; per_instance := per_instance m;
     bucket_seconds := Z.max 1 sec; max_buckets := max_buckets m;
     timeline := []; bucket_map := ∅ |}.

(** ** The ASCII timeline *)

(** The density ramp [chars]. *)
Definition chars : string := " .:-=+*#%@".

(** [l[i:]] on a list. *)
Definition slice_from {A : Type} (i : Z) (l : list A) : list A :=
  if i <? 0 then drop (length l - Z.to_nat (- i)) l
  else drop (Z.to_nat i) l.

Definition total_of (e : bucket) : nat := (snd (fst e) + snd e)%nat.

(** [max(1, max(s + f for _, s, f in data))]. *)
Definition window_max (data : list bucket) : nat :=
  Nat.max 1 (list_max (map total_of data)).

(** [int((len(chars) - 1) * (v / maxv)) if maxv else 0].  The quotient is
    exact: for [v <= maxv < 2^49] the binary64 product truncates to the
    same integer. *)
Definition density_index (maxv v : nat) : nat :=
  if (maxv =? 0)%nat then 0%nat
  else (((String.length chars - 1) * v) / maxv)%nat.

(** ['S' if s and not f else chars[idx]]; [None] is an [IndexError]. *)
Definition s_char (maxv : nat) (e : bucket) : option ascii :=
  let '(_, s, f) := e in
  if negb (s =? 0)%nat && (f =? 0)%nat then Some "S"%char
  else String.get (density_index maxv (s + f)) chars.

(** ['F' if f and not s else ' ']. *)
Definition f_char (e : bucket) : ascii :=
  let '(_, s, f) := e in
  if negb (f =? 0)%nat && (s =? 0)%nat then "F"%char else " "%char.

(** The [for _, s, f in data] loop: the characters of [s_line] and
    [f_line]. *)
Fixpoint timeline_rows (maxv : nat) (data : list bucket)
    : option (list ascii * list ascii) :=
  match data with
  | [] => Some ([], [])
  | e :: rest =>
      match s_char maxv e with
      | None => None
      | Some c =>
          match timeline_rows maxv rest with
          | None => None
          | Some (sl, fl) => Some (c :: sl, f_char e :: fl)
          end
      end
  end.

Fixpoint spaces (n : nat) : string :=
  match n with
  | O => EmptyString
  | S k => String " " (spaces k)
  end.

(** [s.ljust(n)]. *)
Definition ljust (s : string) (n : Z) : string :=
  (s +:+ spaces (Z.to_nat n - String.length s))%string.

Definition newline : string := String "010" EmptyString.

(** [render_timeline_ascii] of [textual_monitor.py]. *)
Definition render_timeline_ascii (m : MetricsAgg) (width height : Z)
    : option string :=
  match timeline m with
  | [] => Some "(no data)"%string
  | _ =>
      let data := slice_from (- Z.max 1 (width - 2)) (timeline m) in
      match timeline_rows (window_max data) data with
      | None => None
      | Some (sl, fl) =>
          let s_row := ljust (string_of_list_ascii sl) (width - 1) in
          let f_row := ljust (string_of_list_ascii fl) (width - 1) in
          if 2 <=? height then Some (s_row +:+ newline +:+ f_row)%string
          else Some s_row
      end
  end.

(** [TUI._put]: the text that reaches the screen, [text[:max(0, width - 1)]]. *)
Definition _put (text : string) (width : Z) : string :=
  substring 0 (Z.to_nat (Z.max 0 (width - 1))) text.

(** [TUI._draw_timeline_ascii] of [tui_monitor.py]: the texts it puts on
    the rows [y] and [y + 1]. *)
Definition _draw_timeline_ascii (m : MetricsAgg) (h w : Z)
    : option (list string) :=
  let data := slice_from (- (w - 2)) (timeline m) in
  match timeline_rows (window_max data) data with
  | None => None
  | Some (sl, fl) =>
      let s_row := _put (ljust (string_of_list_ascii sl) (w - 1)) w in
      let f_row := _put (ljust (string_of_list_ascii fl) (w - 1)) w in
      if 2 <=? h then Some [s_row; f_row] else Some [s_row]
  end.

(** What the two rows show for one bucket: [c_s] in the density row,
    [c_f] in the failure row. *)
Definition shows (maxv : nat) (e : bucket) (c_s c_f : ascii) : Prop :=
  let '(_, s, f) := e in
  (s <> 0%nat /\ f = 0%nat -> c_s = "S"%char) /\
  (~ (s <> 0%nat /\ f = 0%nat) ->
   (9 * (s + f) / maxv <= 9)%nat /\
   String.get (9 * (s + f) / maxv) chars = Some c_s) /\
  (f <> 0%nat /\ s = 0%nat -> c_f = "F"%char) /\
  (~ (f <> 0%nat /\ s = 0%nat) -> c_f = " "%char).

(** The rows [sl] and [fl] hold one character for each bucket of [data],
    in order, and each pair is what [shows] says. *)
Definition rows_show (maxv : nat) (data : list bucket) (sl fl : list ascii)
    : Prop :=
  length sl = length data /\ length fl = length data /\
  forall i e c_s c_f,
    data !! i = Some e -> sl !! i = Some c_s -> fl !! i = Some c_f ->
    shows maxv e c_s c_f.

(** ** Runs of the aggregator *)

(** The operations a session applies to its aggregator. *)
Inductive op : Type :=
| OpIngest (now : Q) (lines : list (string * string))
| OpUpdate (fs : FileSystem) (now : Q)
| OpBackfill (now : Q)
| OpSetWidth (sec : Z).

Definition run_op `{Runtime} (o : op) (m : MetricsAgg) : outcome :=
  match o with
  | OpIngest now lines => ingest now lines m
  | OpUpdate fs now => update fs now m
  | OpBackfill now => ensure_buckets_to now m
  | OpSetWidth sec => Done (set_bucket_seconds sec m)
  end.

Fixpoint exec `{Runtime} (ops : list op) (m : MetricsAgg) : outcome :=
  match ops with
  | [] => Done m
  | o :: rest =>
      match run_op o m with
      | Done m' => exec rest m'
      | r => r
      end
  end.

(** The state an operation leaves behind, returned or raised. *)
Definition ends_in (r : outcome) (m' : MetricsAgg) : Prop :=
  r = Done m' \/ exists e, r = Raised e m'.

(** States of a session: what [exec] reaches from a fresh aggregator. *)
Definition reachable `{Runtime} (m : MetricsAgg) : Prop :=
  exists pat bs mb ops, ends_in (exec ops (MetricsAgg_init pat bs mb)) m.

(** A run of [ingest] and [backfill_to] calls only. *)
Definition ingest_or_backfill (o : op) : Prop :=
  match o with
  | OpIngest _ _ | OpBackfill _ => True
  | _ => False
  end.

(** ** Invariants *)

(** Consecutive starts differ by exactly [w]. *)
Definition contiguous (w : Z) (tl : list bucket) : Prop :=
  forall i a b, starts tl !! i = Some a -> starts tl !! S i = Some b ->
    b = a + w.

(** The index and the sequence describe the same buckets. *)
Definition agrees (tl : list bucket) (bm : gmap Z (nat * nat)) : Prop :=
  forall b c, bm !! b = Some c <-> (b, fst c, snd c) ∈ tl.

Definition index_agrees (m : MetricsAgg) : Prop :=
  agrees (timeline m) (bucket_map m).

(** [l[-n:]] for [n >= 0] entries kept at the end. *)
Definition keep_last {A : Type} (n : Z) (l : list A) : list A :=
  drop (length l - Z.to_nat n) l.

Record inv (m : MetricsAgg) : Prop := {
  inv_width : 1 <= bucket_seconds m;
  inv_max : 1 <= max_buckets m;
  inv_len : Z.of_nat (length (timeline m)) <= max_buckets m;
  inv_nodup : NoDup (starts (timeline m));
  inv_index : index_agrees m
}.

(** [L] is the start of the last entry and no start is larger. *)
Definition last_is_max (L : Z) (m : MetricsAgg) : Prop :=
  last (starts (timeline m)) = Some L /\
  forall x, x ∈ starts (timeline m) -> x <= L.

(** Everything but the timeline and its index is the same in [m] and [m']. *)
Definition same_outside_timeline (m m' : MetricsAgg) : Prop :=
  tail m' = tail m /\ success m' = success m /\ fail m' = fail m /\
  per_region m' = per_region m /\ per_instance m' = per_instance m /\
  bucket_seconds m' = bucket_seconds m /\ max_buckets m' = max_buckets m.

(** Counters of a category, [(0, 0)] when it was never seen. *)
Definition counts_of (per : gmap string (nat * nat)) (key : string)
    : nat * nat :=
  default (0%nat, 0%nat) (per !! key).

Definition counters_le (m m' : MetricsAgg) : Prop :=
  (success m <= success m')%nat /\ (fail m <= fail m')%nat /\
  (forall k, (fst (counts_of (per_instance m) k) <= fst (counts_of (per_instance m') k))%nat /\
             (snd (counts_of (per_instance m) k) <= snd (counts_of (per_instance m') k))%nat) /\
  (forall k, (fst (counts_of (per_region m) k) <= fst (counts_of (per_region m') k))%nat /\
             (snd (counts_of (per_region m) k) <= snd (counts_of (per_region m') k))%nat).

(** The empty buckets [(L + w, 0, 0), ..., (L + k * w, 0, 0)]. *)
Definition empty_buckets (L w : Z) (k : nat) : list bucket :=
  map (fun i => (L + Z.of_nat i * w, 0%nat, 0%nat)) (seq 1 k).

(** ** JSON texts *)

(** The grammar of RFC 8259, what the specification calls valid JSON:
    [valid_json s] holds when [s] is one JSON value with optional white
    space around it.  [json.loads] accepts these texts and, beyond the
    grammar, the constants [NaN], [Infinity] and [-Infinity].  Each
    recogniser returns what follows the part it accepts. *)
Definition is_ws (c : ascii) : bool :=
  Ascii.eqb c " " || Ascii.eqb c "009" || Ascii.eqb c "010" || Ascii.eqb c "013".

Fixpoint skip_ws (s : string) : string :=
  match s with
  | EmptyString => s
  | String c r => if is_ws c then skip_ws r else s
  end.

Definition is_digit (c : ascii) : bool :=
  (48 <=? nat_of_ascii c)%nat && (nat_of_ascii c <=? 57)%nat.

Definition is_hex (c : ascii) : bool :=
  is_digit c
  || ((65 <=? nat_of_ascii c)%nat && (nat_of_ascii c <=? 70)%nat)
  || ((97 <=? nat_of_ascii c)%nat && (nat_of_ascii c <=? 102)%nat).

Fixpoint skip_digits (s : string) : string :=
  match s with
  | EmptyString => s
  | String c r => if is_digit c then skip_digits r else s
  end.

(** [1*DIGIT]. *)
Definition digits1 (s : string) : option string :=
  match s with
  | EmptyString => None
  | String c r => if is_digit c then Some (skip_digits r) else None
  end.

(** [int = zero / ( digit1-9 *DIGIT )]. *)
Definition json_int (s : string) : option string :=
  match s with
  | EmptyString => None
  | String c r =>
      if Ascii.eqb c "0" then Some r
      else if is_digit c then Some (skip_digits r)
      else None
  end.

(** [[ frac ]], [frac = decimal-point 1*DIGIT]. *)
Definition json_frac (s : string) : option string :=
  match s with
  | EmptyString => Some s
  | String c r => if Ascii.eqb c "." then digits1 r else Some s
  end.

(** [[ exp ]], [exp = e [ minus / plus ] 1*DIGIT]. *)
Definition json_exp (s : string) : option string :=
  match s with
  | EmptyString => Some s
  | String c r =>
      if Ascii.eqb c "e" || Ascii.eqb c "E" then
        match r with
        | EmptyString => None
        | String d r' =>
            if Ascii.eqb d "+" || Ascii.eqb d "-" then digits1 r' else digits1 r
        end
      else Some s
  end.

(** [number = [ minus ] int [ frac ] [ exp ]]. *)
Definition json_number (s : string) : option string :=
  let s1 := match s with
            | String c r => if Ascii.eqb c "-" then r else s
            | EmptyString => s
            end in
  match json_int s1 with
  | None => None
  | Some s2 =>
      match json_frac s2 with
      | None => None
      | Some s3 => json_exp s3
      end
  end.

(** The characters that may follow the backslash of an escape, [u] apart. *)
Definition is_escape (c : ascii) : bool :=
  Ascii.eqb c "034" || Ascii.eqb c "092" || Ascii.eqb c "/" || Ascii.eqb c "b"
  || Ascii.eqb c "f" || Ascii.eqb c "n" || Ascii.eqb c "r" || Ascii.eqb c "t".

(** A string behind its opening quotation mark, up to the closing one. *)
Fixpoint json_string_body (s : string) : option string :=
  match s with
  | EmptyString => None
  | String c r =>
      if Ascii.eqb c "034" then Some r
      else if Ascii.eqb c "092" then
        match r with
        | EmptyString => None
        | String e r1 =>
            if is_escape e then json_string_body r1
            else if Ascii.eqb e "u" then
              match r1 with
              | String h1 (String h2 (String h3 (String h4 r2))) =>
                  if is_hex h1 && is_hex h2 && is_hex h3 && is_hex h4
                  then json_string_body r2
                  else None
              | _ => None
              end
            else None
        end
      else if (nat_of_ascii c <? 32)%nat then None
      else json_string_body r
  end.

Fixpoint strip_prefix (p s : string) : option string :=
  match p with
  | EmptyString => Some s
  | String c p' =>
      match s with
      | EmptyString => None
      | String d s' => if Ascii.eqb c d then strip_prefix p' s' else None
      end
  end.

(** [value], the elements of an array behind its bracket and the members
    of an object behind its brace; [fuel] bounds the nesting and the
    number of items. *)
Fixpoint json_value (fuel : nat) (s : string) : option string :=
  match fuel with
  | O => None
  | S n =>
      match skip_ws s with
      | EmptyString => None
      | String c r =>
          if Ascii.eqb c "{" then
            match skip_ws r with
            | EmptyString => None
            | String d r1 =>
                if Ascii.eqb d "}" then Some r1 else json_members n (String d r1)
            end
          else if Ascii.eqb c "[" then
            match skip_ws r with
            | EmptyString => None
            | String d r1 =>
                if Ascii.eqb d "]" then Some r1 else json_elements n (String d r1)
            end
          else if Ascii.eqb c "034" then json_string_body r
          else if Ascii.eqb c "t" then strip_prefix "rue" r
          else if Ascii.eqb c "f" then strip_prefix "alse" r
          else if Ascii.eqb c "n" then strip_prefix "ull" r
          else json_number (String c r)
      end
  end
with json_elements (fuel : nat) (s : string) : option string :=
  match fuel with
  | O => None
  | S n =>
      match json_value n s with
      | None => None
      | Some r =>
          match skip_ws r with
          | EmptyString => None
          | String c r1 =>
              if Ascii.eqb c "," then json_elements n r1
              else if Ascii.eqb c "]" then Some r1
              else None
          end
      end
  end
with json_members (fuel : nat) (s : string) : option string :=
  match fuel with
  | O => None
  | S n =>
      match skip_ws s with
      | EmptyString => None
      | String q r =>
          if Ascii.eqb q "034" then
            match json_string_body r with
            | None => None
            | Some r1 =>
                match skip_ws r1 with
                | EmptyString => None
                | String c r2 =>
                    if Ascii.eqb c ":" then
                      match json_value n r2 with
                      | None => None
                      | Some r3 =>
                          match skip_ws r3 with
                          | EmptyString => None
                          | String d r4 =>
                              if Ascii.eqb d "," then json_members n r4
                              else if Ascii.eqb d "}" then Some r4
                              else None
                          end
                      end
                    else None
                end
            end
          else None
      end
  end.

(** [JSON-text = ws value ws]. *)
Definition valid_json (s : string) : bool :=
  match json_value (2 * String.length s + 2) s with
  | None => false
  | Some r =>
      match skip_ws r with
      | EmptyString => true
      | String _ _ => false
      end
  end.

(** ** The range of exact float arithmetic *)

(** Every integer up to [2^53] in absolute value is a binary64 value.  For
    a width [w] with [1 <= w <= 2^53] and a timestamp [ts] with
    [0 <= ts < 2^53] the source's [int(ts - ts % w)] is exact: [ts % w] is
    [fmod(ts, w)], which is exact, and [ts - ts % w] is an integer
    multiple of [w] between 0 and [ts], hence a binary64 value, so the
    subtraction does not round.  In that range [_bucket_start] is the
    source's function; outside of it the rationals idealise the floats,
    and the [OverflowError] of [ts % w] for a width of [2^1024] or more is
    not modelled. *)
Definition float_exact_limit : Z := 2 ^ 53.

(** ** The window of the renderers *)

(** The rows [sl] and [fl] hold one column for each of the newest [n]
    buckets of [tl], for all of them when there are fewer, the oldest of
    these on the left; the glyphs are those of the loop body, drawn
    against the largest total among the buckets shown. *)
Definition draws_newest (tl : list bucket) (n : nat) (sl fl : list ascii)
    : Prop :=
  let k := Nat.min (length tl) n in
  let first := (length tl - k)%nat in
  length sl = k /\ length fl = k /\
  forall i e,
    (i < k)%nat -> tl !! (first + i)%nat = Some e ->
    sl !! i = s_char (window_max (drop first tl)) e /\
    fl !! i = Some (f_char e).

(** ** A sample runtime and sample inputs *)

(** Writes the JSON text with ['] for the double quote. *)
Fixpoint jq (s : string) : string :=
  match s with
  | EmptyString => EmptyString
  | String c r => String (if Ascii.eqb c "'" then "034"%char else c) (jq r)
  end.

Definition line_ok_0 : string :=
  jq "{'ts': '2024-01-01T00:00:00', 'success': true, 'instance_id': 'a', 'batch_region': 'r1'}".

Definition line_fail_5 : string :=
  jq "{'ts': '2024-01-01T00:00:05', 'success': false, 'instance_id': 'b', 'batch_region': 'r1'}".

Definition line_ok_100 : string :=
  jq "{'ts': '2024-01-01T00:01:40', 'success': true, 'instance_id': 'a', 'batch_region': 'r1'}".

Definition line_no_success : string :=
  jq "{'ts': '2024-01-01T00:00:05', 'instance_id': 'b', 'batch_region': 'r2'}".

Definition line_garbage : string := "not json {".

Definition record_of (ts : string) (rest : list (string * json))
    : json :=
  JDict (("ts"%string, JStr ts) :: rest).

(** [json.loads] on the sample lines; every other line is taken to be
    malformed. *)
Definition sample_loads (line : string) : option json :=
  if String.eqb line line_ok_0 then
    Some (record_of "2024-01-01T00:00:00"
            [("success"%string, JBool true); ("instance_id"%string, JStr "a");
             ("batch_region"%string, JStr "r1")])
  else if String.eqb line line_fail_5 then
    Some (record_of "2024-01-01T00:00:05"
            [("success"%string, JBool false); ("instance_id"%string, JStr "b");
             ("batch_region"%string, JStr "r1")])
  else if String.eqb line line_ok_100 then
    Some (record_of "2024-01-01T00:01:40"
            [("success"%string, JBool true); ("instance_id"%string, JStr "a");
             ("batch_region"%string, JStr "r1")])
  else if String.eqb line line_no_success then
    Some (record_of "2024-01-01T00:00:05"
            [("instance_id"%string, JStr "b"); ("batch_region"%string, JStr "r2")])
  else None.

(** Epoch second of 2024-01-01T00:00:00 UTC. *)
Definition epoch_2024 : Z := 1704067200.

(** [strptime(...).timestamp()] on the sample timestamps, for a process
    whose local time is UTC. *)
Definition sample_strptime (s : string) : option Q :=
  if String.eqb s "2024-01-01T00:00:00" then Some (inject_Z epoch_2024)
  else if String.eqb s "2024-01-01T00:00:05" then Some (inject_Z (epoch_2024 + 5))
  else if String.eqb s "2024-01-01T00:01:40" then Some (inject_Z (epoch_2024 + 100))
  else None.

(** Splits an ASCII text at its line feeds. *)
Fixpoint split_lf (cur : string) (s : string) : list string :=
  match s with
  | EmptyString =>
      match cur with EmptyString => [] | _ => [cur] end
  | String c r =>
      if Ascii.eqb c "010" then cur :: split_lf EmptyString r
      else split_lf (cur +:+ String c EmptyString)%string r
  end.

Definition sample_runtime : Runtime := {|
  json_loads := sample_loads;
  strptime_timestamp := sample_strptime;
  str_other := fun _ => "?"%string;
  decode_utf8 := string_of_list_byte;
  splitlines := split_lf EmptyString
|}.

Definition sample_path : string := "metrics/a.jsonl".

(** A file system with the one file [sample_path] holding [content]. *)
Definition one_file (content : string) : FileSystem :=
  {| glob := fun _ => [sample_path];
     getsize := fun p =>
       if String.eqb p sample_path then Got (String.length content)
       else NotFound;
     read_from := fun p pos =>
       if String.eqb p sample_path
       then Got (drop pos (list_byte_of_string content))
       else NotFound |}.

(** The aggregator both front ends create: 10 second buckets, at most 72. *)
Definition fresh : MetricsAgg := MetricsAgg_init "metrics/*.jsonl" 10 72.

(** The state a run from [fresh] ends in, under the sample runtime. *)
Definition after (ops : list op) : MetricsAgg :=
  match @exec sample_runtime ops fresh with
  | Done m => m
  | Raised _ m => m
  | Diverged => fresh
  end.

(** Two records of the same ten seconds: one bucket [(epoch_2024, 1, 1)]. *)
Definition two_records : list op :=
  [OpIngest (inject_Z (epoch_2024 + 7)) [(sample_path, line_ok_0); (sample_path, line_fail_5)]].

(** Two records a hundred seconds apart. *)
Definition distant_records : list op :=
  [OpIngest (inject_Z (epoch_2024 + 7)) [(sample_path, line_ok_0); (sample_path, line_ok_100)]].

(** The same two records, the later one first in the file. *)
Definition unordered_records : list op :=
  [OpIngest (inject_Z (epoch_2024 + 7)) [(sample_path, line_ok_100); (sample_path, line_ok_0)]].

(** An idle session of twelve minutes: the 72 buckets at [epoch_2024],
    [epoch_2024 + 10], ..., [epoch_2024 + 710]. *)
Definition idle_session : list op :=
  [OpBackfill (inject_Z epoch_2024); OpBackfill (inject_Z (epoch_2024 + 710))].


(** One failed record: the bucket [(epoch_2024, 0, 1)]. *)
Definition one_failure : list op :=
  [OpIngest (inject_Z (epoch_2024 + 7)) [(sample_path, line_fail_5)]].

(** ** Sums of counters *)

(** Successes and failures summed over the categories of a map. *)
Definition sum_success (per : gmap string (nat * nat)) : nat :=
  map_fold (fun _ c acc => (fst c + acc)%nat) 0%nat per.

Definition sum_fail (per : gmap string (nat * nat)) : nat :=
  map_fold (fun _ c acc => (snd c + acc)%nat) 0%nat per.

(** Successes and failures summed over the buckets of a timeline. *)
Definition timeline_success (tl : list bucket) : nat :=
  sum_list (map (fun e => snd (fst e)) tl).

Definition timeline_fail (tl : list bucket) : nat :=
  sum_list (map (fun e => snd e) tl).

(** Every bucket start is a multiple of the bucket width. *)
Definition aligned (m : MetricsAgg) : Prop :=
  forall b, b ∈ starts (timeline m) -> (bucket_seconds m | b).

(** ** Chart mode *)

(** The chart state of [TimelinePane] and of [TUI]: [chart_mode] is
    ["auto"], ["plotext"] or ["ascii"], [_plotext] tells whether the
    module was imported (it is [None] otherwise). *)
Record TimelinePane : Type := {
  chart_mode : string;
  _plotext : bool
}.

(** [TimelinePane.__init__]: the import is tried for ["auto"] and
    ["plotext"] only; [importable] tells whether it succeeds. *)
Definition TimelinePane_init (mode : string) (importable : bool)
    : TimelinePane :=
  {| chart_mode := mode;
     _plotext := if String.eqb mode "auto" || String.eqb mode "plotext"
                 then importable else false |}.

(** The chart state of [TUI] after [main] has set [chart_mode]: the
    import is always tried. *)
Definition TUI_chart_init (mode : string) (importable : bool)
    : TimelinePane :=
  {| chart_mode := mode; _plotext := importable |}.

(** [TimelinePane.effective_mode], [TUI.get_effective_chart_mode]. *)
Definition effective_mode (p : TimelinePane) : string :=
  if String.eqb (chart_mode p) "plotext" && negb (_plotext p) then "ascii"
  else if String.eqb (chart_mode p) "auto"
       then (if _plotext p then "plotext" else "ascii")
       else chart_mode p.

(** [TimelinePane.toggle_mode], the [t] key of [TUI.loop]. *)
Definition toggle_mode (p : TimelinePane) : TimelinePane :=
  let mode := effective_mode p in
  if negb (_plotext p) then {| chart_mode := "ascii"; _plotext := _plotext p |}
  else {| chart_mode := if String.eqb mode "plotext" then "ascii" else "plotext";
          _plotext := _plotext p |}.

(** ** Regions by volume *)

(** [kv[1]['success'] + kv[1]['fail']]. *)
Definition volume (kv : string * (nat * nat)) : nat :=
  (fst (snd kv) + snd (snd kv))%nat.

(** [sorted(items, key=lambda kv: -volume(kv))]: the sort is stable, an
    item stays before the later items of the same volume. *)
Fixpoint insert_by_volume (x : string * (nat * nat))
    (l : list (string * (nat * nat))) : list (string * (nat * nat)) :=
  match l with
  | [] => [x]
  | y :: rest =>
      if (volume y <=? volume x)%nat then x :: y :: rest
      else y :: insert_by_volume x rest
  end.

Definition sorted_by_volume (items : list (string * (nat * nat)))
    : list (string * (nat * nat)) :=
  foldr insert_by_volume [] items.

(** [sorted(...)[:n]] of [update_stats] and [draw_stats]; [items] is
    [per_region.items()]. *)
Definition top_regions (n : nat) (items : list (string * (nat * nat)))
    : list (string * (nat * nat)) :=
  take n (sorted_by_volume items).

(** [regio[0][0] if regio else "unknown"] of [draw_header]. *)
Definition top_region (items : list (string * (nat * nat))) : string :=
  match sorted_by_volume items with
  | [] => "unknown"
  | kv :: _ => fst kv
  end.

(** ** The textual application *)

(** A [deque(maxlen=n)] of log lines. *)
Record deque : Type := {
  maxlen : nat;
  items : list string
}.

(** [d.append(x)]: the oldest line leaves a full deque. *)
Definition deque_append (x : string) (d : deque) : deque :=
  {| maxlen := maxlen d;
     items := keep_last (Z.of_nat (maxlen d)) (items d ++ [x]) |}.

(** [os.path.basename]: what follows the last [/]. *)
Fixpoint basename_from (cur s : string) : string :=
  match s with
  | EmptyString => cur
  | String c rest =>
      if Ascii.eqb c "/" then basename_from EmptyString rest
      else basename_from (cur +:+ String c EmptyString)%string rest
  end.

Definition basename (path : string) : string := basename_from EmptyString path.

(** [f"[{name}] {ln}"]. *)
Definition log_line (pl : string * string) : string :=
  ("[" +:+ basename (fst pl) +:+ "] " +:+ snd pl)%string.

(** The state of [MonitorApp] the poll and the key bindings work on.  The
    refresh interval, a float stepped by 0.1, is left out. *)
Record MonitorApp : Type := {
  paused : bool;
  app_bucket_seconds : Z;
  logs_tail : FileTail;
  metrics : MetricsAgg;
  _log_buffer : deque;
  timeline_view : TimelinePane
}.

(** [MonitorApp.__init__] and the pane [compose] creates. *)
Definition MonitorApp_init (logs_glob metrics_glob : string) (bucket_arg : Z)
    (chart : string) (importable : bool) : MonitorApp :=
  {| paused := false;
     app_bucket_seconds := Z.max 1 bucket_arg;
     logs_tail := FileTail_init logs_glob;
     metrics := MetricsAgg_init metrics_glob (Z.max 1 bucket_arg) 72;
     _log_buffer := {| maxlen := 500; items := [] |};
     timeline_view := TimelinePane_init chart importable |}.

Definition set_metrics (m : MetricsAgg) (a : MonitorApp) : MonitorApp :=
  {| paused := paused a; app_bucket_seconds := app_bucket_seconds a;
     logs_tail := logs_tail a; metrics := m;
     _log_buffer := _log_buffer a; timeline_view := timeline_view a |}.

Inductive app_outcome : Type :=
| AppDone (a : MonitorApp)
| AppRaised (e : exn) (a : MonitorApp)
| AppDiverged.

(** The state part of [MonitorApp._tick]: the log poll, [metrics.update()]
    and [metrics.ensure_buckets_to(time.time())]; what follows in [_tick]
    renders and writes snapshots from that state.  [now_update] and
    [now_backfill] are the two clock readings. *)
Definition _tick `{Runtime} (fs : FileSystem) (now_update now_backfill : Q)
    (a : MonitorApp) : app_outcome :=
  if paused a then AppDone a
  else
    let '(t, lines) := read_new_lines fs (logs_tail a) in
    let buf := fold_left (fun d pl => deque_append (log_line pl) d) lines
                 (_log_buffer a) in
    let a1 := {| paused := paused a; app_bucket_seconds := app_bucket_seconds a;
                 logs_tail := t; metrics := metrics a;
                 _log_buffer := buf; timeline_view := timeline_view a |} in
    match update fs now_update (metrics a1) with
    | Done m1 =>
        match ensure_buckets_to now_backfill m1 with
        | Done m2 => AppDone (set_metrics m2 a1)
        | Raised e m2 => AppRaised e (set_metrics m2 a1)
        | Diverged => AppDiverged
        end
    | Raised e m1 => AppRaised e (set_metrics m1 a1)
    | Diverged => AppDiverged
    end.

(** The backfill of [on_mount]; its [except Exception] swallows what the
    call raises. *)
Definition on_mount (now : Q) (a : MonitorApp) : app_outcome :=
  match ensure_buckets_to now (metrics a) with
  | Done m' => AppDone (set_metrics m' a)
  | Raised _ m' => AppDone (set_metrics m' a)
  | Diverged => AppDiverged
  end.

Definition action_toggle_pause (a : MonitorApp) : MonitorApp :=
  {| paused := negb (paused a); app_bucket_seconds := app_bucket_seconds a;
     logs_tail := logs_tail a; metrics := metrics a;
     _log_buffer := _log_buffer a; timeline_view := timeline_view a |}.

Definition set_app_bucket (b : Z) (a : MonitorApp) : MonitorApp :=
  {| paused := paused a; app_bucket_seconds := b;
     logs_tail := logs_tail a; metrics := set_bucket_seconds b (metrics a);
     _log_buffer := _log_buffer a; timeline_view := timeline_view a |}.

(** [action_bucket_down]: [max(1, bucket_seconds - 5)]. *)
Definition action_bucket_down (a : MonitorApp) : MonitorApp :=
  set_app_bucket (Z.max 1 (app_bucket_seconds a - 5)) a.

(** [action_bucket_up]: [min(120, bucket_seconds + 5)]. *)
Definition action_bucket_up (a : MonitorApp) : MonitorApp :=
  set_app_bucket (Z.min 120 (app_bucket_seconds a + 5)) a.

Definition action_toggle_chart (a : MonitorApp) : MonitorApp :=
  {| paused := paused a; app_bucket_seconds := app_bucket_seconds a;
     logs_tail := logs_tail a; metrics := metrics a;
     _log_buffer := _log_buffer a;
     timeline_view := toggle_mode (timeline_view a) |}.

(** What happens to a running application. *)
Inductive app_op : Type :=
| Tick (fs : FileSystem) (now_update now_backfill : Q)
| Mount (now : Q)
| KeyPause
| KeyBucketDown
| KeyBucketUp
| KeyChart.

Definition run_app_op `{Runtime} (o : app_op) (a : MonitorApp) : app_outcome :=
  match o with
  | Tick fs n1 n2 => _tick fs n1 n2 a
  | Mount now => on_mount now a
  | KeyPause => AppDone (action_toggle_pause a)
  | KeyBucketDown => AppDone (action_bucket_down a)
  | KeyBucketUp => AppDone (action_bucket_up a)
  | KeyChart => AppDone (action_toggle_chart a)
  end.

Fixpoint app_exec `{Runtime} (ops : list app_op) (a : MonitorApp)
    : app_outcome :=
  match ops with
  | [] => AppDone a
  | o :: rest =>
      match run_app_op o a with
      | AppDone a' => app_exec rest a'
      | r => r
      end
  end.

Definition app_ends_in (r : app_outcome) (a' : MonitorApp) : Prop :=
  r = AppDone a' \/ exists e, r = AppRaised e a'.

(** A log of two lines and the file system that holds it as
    [instance_1.log], the one match of the log pattern. *)
Definition sample_log : string :=
  ("started" +:+ newline +:+ "attempt 1 ok" +:+ newline)%string.

Definition log_file : FileSystem :=
  {| glob := fun pat =>
       if String.eqb pat "instance_*.log" then ["instance_1.log"%string] else [];
     getsize := fun p =>
       if String.eqb p "instance_1.log" then Got (String.length sample_log)
       else NotFound;
     read_from := fun p pos =>
       if String.eqb p "instance_1.log"
       then Got (drop pos (list_byte_of_string sample_log))
       else NotFound |}.

(** The application the command line creates by default. *)
Definition fresh_app : MonitorApp :=
  MonitorApp_init "instance_*.log" "metrics/*.jsonl" 10 "auto" true.

(** Two more lines: a JSON number, and a record whose [success] is the
    string ["false"]. *)
Definition line_number : string := "123".

Definition line_success_text : string :=
  jq "{'ts': '2024-01-01T00:00:05', 'success': 'false'}".

(** The sample runtime, decoding these two lines as well. *)
Definition wider_runtime : Runtime := {|
  json_loads := fun line =>
    if String.eqb line line_number then Some (JInt 123)
    else if String.eqb line line_success_text then
      Some (record_of "2024-01-01T00:00:05" [("success"%string, JStr "false")])
    else sample_loads line;
  strptime_timestamp := sample_strptime;
  str_other := fun _ => "?"%string;
  decode_utf8 := string_of_list_byte;
  splitlines := split_lf EmptyString
|}.

(** Two lines that are not JSON texts and that [json.loads] accepts: the
    constant [NaN] alone, and a record whose [success] is [NaN]. *)
Definition line_nan : string := "NaN".

Definition line_success_nan : string :=
  jq "{'ts': '2024-01-01T00:00:05', 'success': NaN}".

(** The sample runtime, decoding these two lines as [json.loads] does:
    to the float [nan] and to a record that holds it. *)
Definition lenient_runtime : Runtime := {|
  json_loads := fun line =>
    if String.eqb line line_nan then Some (JFloat FNaN)
    else if String.eqb line line_success_nan then
      Some (record_of "2024-01-01T00:00:05" [("success"%string, JFloat FNaN)])
    else sample_loads line;
  strptime_timestamp := sample_strptime;
  str_other := fun _ => "?"%string;
  decode_utf8 := string_of_list_byte;
  splitlines := split_lf EmptyString
|}.

(** The three values the command line admits for the chart mode. *)
Definition valid_mode (mode : string) : Prop :=
  mode = "auto"%string \/ mode = "plotext"%string \/ mode = "ascii"%string.

(** What the application keeps between its operations. *)
Definition app_inv (a : MonitorApp) : Prop :=
  app_bucket_seconds a = bucket_seconds (metrics a) /\
  1 <= app_bucket_seconds a /\
  inv (metrics a) /\
  maxlen (_log_buffer a) = 500%nat /\
  (length (items (_log_buffer a)) <= maxlen (_log_buffer a))%nat.

Definition is_tick (o : app_op) : Prop :=
  match o with
  | Tick _ _ _ => True
  | _ => False
  end.

(** The state a run of the application from [fresh_app] ends in, under
    the sample runtime. *)
Definition app_after (ops : list app_op) : MonitorApp :=
  match @app_exec sample_runtime ops fresh_app with
  | AppDone a => a
  | AppRaised _ a => a
  | AppDiverged => fresh_app
  end.

(** The application is mounted, polls the sample log once and gets the
    bucket-up key. *)
Definition sample_session : list app_op :=
  [Mount (inject_Z (epoch_2024 + 3));
   Tick log_file (inject_Z (epoch_2024 + 4)) (inject_Z (epoch_2024 + 4));
   KeyBucketUp].

(** The two ticks of a pause. *)
Definition two_ticks : list app_op :=
  [Tick log_file (inject_Z (epoch_2024 + 4)) (inject_Z (epoch_2024 + 4));
   Tick log_file (inject_Z (epoch_2024 + 5)) (inject_Z (epoch_2024 + 5))].

(** Regions with their [(success, fail)] counters. *)
Definition sample_regions : list (string * (nat * nat)) :=
  [("a"%string, (1, 0)%nat); ("b"%string, (3, 0)%nat);
   ("c"%string, (0, 2)%nat); ("d"%string, (5, 5)%nat)].

(** * Properties *)

(** ** Buckets, eviction and the index *)

Lemma elem_of_starts (tl : list bucket) (b : Z) :
  b ∈ starts tl <-> exists s f, (b, s, f) ∈ tl.
Proof.
  unfold starts. rewrite list_elem_of_fmap. split.
  - intros [[[b' s] f] [-> Hin]]. exists s, f. exact Hin.
  - intros (s & f & Hin). exists (b, s, f). split; [reflexivity | exact Hin].
Qed.

Lemma agrees_is_Some tl bm b :
  agrees tl bm -> (is_Some (bm !! b) <-> b ∈ starts tl).
Proof.
  intros Ha. rewrite elem_of_starts. split.
  - intros [[s f] Hb]. exists s, f. apply (Ha b (s, f)). exact Hb.
  - intros (s & f & Hin). exists (s, f). apply Ha. exact Hin.
Qed.

Lemma agrees_None tl bm b :
  agrees tl bm -> (bm !! b = None <-> b ∉ starts tl).
Proof.
  intros Ha. rewrite <- (agrees_is_Some tl bm b Ha).
  rewrite eq_None_not_Some. reflexivity.
Qed.

(** Two indexes that agree with one sequence are the same index. *)
Lemma agrees_unique tl bm bm' :
  NoDup (starts tl) -> agrees tl bm -> agrees tl bm' -> bm = bm'.
Proof.
  intros _ Ha Hb. apply map_eq. intros b.
  destruct (bm !! b) as [c|] eqn:E1, (bm' !! b) as [c'|] eqn:E2; try reflexivity.
  - apply Ha in E1. apply Hb in E1. congruence.
  - apply Ha in E1. apply Hb in E1. congruence.
  - apply Hb in E2. apply Ha in E2. congruence.
Qed.

Lemma agrees_dom tl bm :
  agrees tl bm -> dom bm = (list_to_set (starts tl) : gset Z).
Proof.
  intros Ha. apply set_eq. intros b.
  rewrite elem_of_dom, elem_of_list_to_set. apply agrees_is_Some, Ha.
Qed.

Lemma agrees_snoc tl bm b :
  agrees tl bm -> bm !! b = None ->
  agrees (tl ++ [(b, 0%nat, 0%nat)]) (<[b := (0%nat, 0%nat)]> bm).
Proof.
  intros Ha Hn b' c. rewrite elem_of_app, list_elem_of_singleton.
  destruct (decide (b = b')) as [<-|Hne].
  - rewrite lookup_insert_eq. split.
    + intros [= <-]. right. reflexivity.
    + intros [Hin | Heq].
      * apply Ha in Hin. congruence.
      * destruct c. simpl in Heq. congruence.
  - rewrite lookup_insert_ne by exact Hne. rewrite (Ha b' c). split.
    + intros Hin. left. exact Hin.
    + intros [Hin | Heq]; [exact Hin | congruence].
Qed.

Lemma agrees_popleft old rest bm :
  NoDup (starts (old :: rest)) -> agrees (old :: rest) bm ->
  agrees rest (delete (bucket_start_of old) bm).
Proof.
  intros Hnd Ha b c. simpl in Hnd. apply NoDup_cons in Hnd as [Hnot _].
  rewrite lookup_delete_Some, (Ha b c), elem_of_cons. split.
  - intros [Hne [Heq | Hin]]; [|exact Hin].
    subst old. exfalso. apply Hne. reflexivity.
  - intros Hin. split.
    + intros Heq. apply Hnot. rewrite Heq. apply elem_of_starts.
      exists (fst c), (snd c). exact Hin.
    + right. exact Hin.
Qed.

Lemma keep_last_all {A : Type} (n : Z) (l : list A) :
  Z.of_nat (length l) <= n -> keep_last n l = l.
Proof.
  intros Hle. unfold keep_last.
  replace (length l - Z.to_nat n)%nat with 0%nat by lia. reflexivity.
Qed.

Lemma keep_last_length {A : Type} (n : Z) (l : list A) :
  0 <= n -> Z.of_nat (length (keep_last n l)) <= n.
Proof. intros Hn. unfold keep_last. rewrite length_drop. lia. Qed.

Lemma keep_last_snoc {A : Type} (n : Z) (l : list A) (x : A) :
  keep_last n (keep_last n l ++ [x]) = keep_last n (l ++ [x]).
Proof.
  unfold keep_last. rewrite !length_app, length_drop. simpl.
  destruct (decide (length l <= Z.to_nat n)%nat) as [Hle|Hgt].
  - replace (length l - Z.to_nat n)%nat with 0%nat by lia.
    rewrite drop_0. f_equal. lia.
  - destruct (decide (Z.to_nat n = 0)%nat) as [Hz|Hnz].
    + rewrite !drop_ge; [reflexivity | |];
        rewrite length_app, ?length_drop; simpl; lia.
    + rewrite (drop_app_le l [x] (length l + 1 - Z.to_nat n)) by lia.
      rewrite drop_app_le by (rewrite length_drop; lia).
      rewrite drop_drop. do 2 f_equal. lia.
Qed.

(** Eviction keeps the newest [maxb] entries and removes from the index
    exactly the starts it removes from the sequence. *)
Lemma evict_spec maxb tl bm :
  NoDup (starts tl) -> agrees tl bm ->
  exists bm', evict maxb tl bm = (keep_last maxb tl, bm') /\
              agrees (keep_last maxb tl) bm'.
Proof.
  revert bm. induction tl as [|old rest IH]; intros bm Hnd Ha.
  - exists bm. split; [reflexivity | exact Ha].
  - cbn [evict]. destruct (maxb <? Z.of_nat (length (old :: rest))) eqn:E.
    + apply Z.ltb_lt in E.
      destruct (IH (delete (bucket_start_of old) bm)) as (bm' & He & Ha').
      { simpl in Hnd. apply NoDup_cons in Hnd. tauto. }
      { apply agrees_popleft; assumption. }
      exists bm'. rewrite He. unfold keep_last in *. simpl length in *.
      replace (S (length rest) - Z.to_nat maxb)%nat
        with (S (length rest - Z.to_nat maxb)) by lia.
      simpl. split; [reflexivity | exact Ha'].
    + apply Z.ltb_ge in E. exists bm. rewrite keep_last_all by exact E.
      split; [reflexivity | exact Ha].
Qed.

Lemma NoDup_starts_drop n (tl : list bucket) :
  NoDup (starts tl) -> NoDup (starts (drop n tl)).
Proof.
  unfold starts. rewrite fmap_drop. intros Hnd.
  eapply sublist_NoDup; [exact Hnd | apply sublist_drop].
Qed.

Lemma starts_snoc (tl : list bucket) (b : Z) (s f : nat) :
  starts (tl ++ [(b, s, f)]) = starts tl ++ [b].
Proof. unfold starts. rewrite fmap_app. reflexivity. Qed.

Lemma NoDup_starts_snoc tl bm b :
  NoDup (starts tl) -> agrees tl bm -> bm !! b = None ->
  NoDup (starts (tl ++ [(b, 0%nat, 0%nat)])).
Proof.
  intros Hnd Ha Hn. rewrite starts_snoc. apply NoDup_app. split; [exact Hnd|].
  split; [|apply NoDup_singleton].
  intros x Hx Hb. apply list_elem_of_singleton in Hb. subst x.
  apply (agrees_None tl bm b Ha) in Hn. contradiction.
Qed.

Lemma ensure_bucket_present b m c :
  bucket_map m !! b = Some c -> _ensure_bucket b m = m.
Proof. intros Hb. unfold _ensure_bucket. rewrite Hb. reflexivity. Qed.

Lemma ensure_bucket_fresh b m :
  NoDup (starts (timeline m)) -> index_agrees m -> bucket_map m !! b = None ->
  exists bm',
    _ensure_bucket b m
    = set_buckets (keep_last (max_buckets m) (timeline m ++ [(b, 0%nat, 0%nat)]))
                  bm' m /\
    agrees (keep_last (max_buckets m) (timeline m ++ [(b, 0%nat, 0%nat)])) bm'.
Proof.
  intros Hnd Ha Hn. unfold _ensure_bucket. rewrite Hn.
  destruct (evict_spec (max_buckets m) (timeline m ++ [(b, 0%nat, 0%nat)])
              (<[b := (0%nat, 0%nat)]> (bucket_map m))) as (bm' & He & Ha').
  - eapply NoDup_starts_snoc; eassumption.
  - apply agrees_snoc; assumption.
  - exists bm'. rewrite He. split; [reflexivity | exact Ha'].
Qed.

Lemma ensure_bucket_frame b m :
  tail (_ensure_bucket b m) = tail m /\
  success (_ensure_bucket b m) = success m /\
  fail (_ensure_bucket b m) = fail m /\
  per_region (_ensure_bucket b m) = per_region m /\
  per_instance (_ensure_bucket b m) = per_instance m /\
  bucket_seconds (_ensure_bucket b m) = bucket_seconds m /\
  max_buckets (_ensure_bucket b m) = max_buckets m.
Proof.
  unfold _ensure_bucket. destruct (bucket_map m !! b); [tauto|].
  destruct (evict _ _ _). simpl. tauto.
Qed.

Lemma ensure_bucket_inv b m : inv m -> inv (_ensure_bucket b m).
Proof.
  intros [Hw Hmax Hlen Hnd Ha].
  destruct (bucket_map m !! b) as [c|] eqn:Hb.
  - rewrite (ensure_bucket_present b m c Hb). constructor; assumption.
  - destruct (ensure_bucket_fresh b m Hnd Ha Hb) as (bm' & -> & Ha').
    constructor; simpl; try assumption.
    + apply keep_last_length. lia.
    + apply NoDup_starts_drop. eapply NoDup_starts_snoc; eassumption.
Qed.

Lemma keep_last_snoc_elem {A : Type} (n : Z) (l : list A) (x : A) :
  1 <= n -> x ∈ keep_last n (l ++ [x]).
Proof.
  intros Hn. unfold keep_last. rewrite length_app. simpl.
  rewrite drop_app_le by lia. apply elem_of_app. right.
  apply list_elem_of_singleton. reflexivity.
Qed.

Lemma ensure_bucket_lookup b m :
  inv m -> is_Some (bucket_map (_ensure_bucket b m) !! b).
Proof.
  intros [Hw Hmax Hlen Hnd Ha].
  destruct (bucket_map m !! b) as [c|] eqn:Hb.
  - rewrite (ensure_bucket_present b m c Hb). rewrite Hb. eexists; reflexivity.
  - destruct (ensure_bucket_fresh b m Hnd Ha Hb) as (bm' & -> & Ha').
    simpl. exists (0%nat, 0%nat). apply Ha'. simpl.
    apply keep_last_snoc_elem. exact Hmax.
Qed.

Lemma starts_sync b c tl : starts (sync_bucket b c tl) = starts tl.
Proof.
  induction tl as [|e rest IH]; [reflexivity|]. simpl.
  destruct (bucket_start_of e =? b) eqn:E.
  - apply Z.eqb_eq in E. simpl. rewrite <- E. reflexivity.
  - simpl. rewrite IH. reflexivity.
Qed.

Lemma length_sync b c tl : length (sync_bucket b c tl) = length tl.
Proof.
  induction tl as [|e rest IH]; [reflexivity|]. simpl.
  destruct (bucket_start_of e =? b); simpl; [reflexivity | rewrite IH; reflexivity].
Qed.

Lemma elem_of_sync b c tl e :
  NoDup (starts tl) -> b ∈ starts tl ->
  (e ∈ sync_bucket b c tl <->
   e = (b, fst c, snd c) \/ (e ∈ tl /\ bucket_start_of e <> b)).
Proof.
  induction tl as [|x rest IH]; intros Hnd Hin.
  - inversion Hin.
  - simpl in Hnd. apply NoDup_cons in Hnd as [Hx Hnd]. simpl.
    destruct (bucket_start_of x =? b) eqn:E.
    + apply Z.eqb_eq in E. rewrite !elem_of_cons. split.
      * intros [-> | Hr]; [left; reflexivity|]. right. split; [right; exact Hr|].
        intros Heq. apply Hx. rewrite E, <- Heq.
        unfold starts. apply list_elem_of_fmap_2. exact Hr.
      * intros [-> | [[-> | Hr] Hne]]; [left; reflexivity | congruence | right; exact Hr].
    + apply Z.eqb_neq in E. simpl in Hin. apply elem_of_cons in Hin as [Heq | Hin];
        [congruence|].
      rewrite !elem_of_cons, (IH Hnd Hin). split.
      * intros [-> | [-> | [Hr Hne]]]; [right; split; [left; reflexivity | exact E]
                                        | left; reflexivity | right; split; [right; exact Hr | exact Hne]].
      * intros [-> | [[-> | Hr] Hne]]; [right; left; reflexivity | left; reflexivity
                                        | right; right; split; assumption].
Qed.

Lemma agrees_sync b c tl bm :
  NoDup (starts tl) -> agrees tl bm -> is_Some (bm !! b) ->
  agrees (sync_bucket b c tl) (<[b := c]> bm).
Proof.
  intros Hnd Ha Hs b' c'.
  assert (Hin : b ∈ starts tl) by (apply (agrees_is_Some tl bm b Ha); exact Hs).
  rewrite (elem_of_sync b c tl _ Hnd Hin).
  destruct (decide (b = b')) as [<-|Hne].
  - rewrite lookup_insert_eq. split.
    + intros [= <-]. left. reflexivity.
    + intros [Heq | [_ Hne]]; [|unfold bucket_start_of in Hne; simpl in Hne; congruence].
      destruct c, c'. simpl in Heq. congruence.
  - rewrite lookup_insert_ne by exact Hne. rewrite (Ha b' c'). split.
    + intros Hin'. right. split; [exact Hin' | unfold bucket_start_of; simpl; congruence].
    + intros [Heq | [Hin' _]]; [congruence | exact Hin'].
Qed.

(** ** The invariant along a run *)

Lemma agrees_nil : agrees [] ∅.
Proof.
  intros b c. rewrite lookup_empty, elem_of_nil. split; [discriminate | tauto].
Qed.

Lemma init_inv pat bs mb : inv (MetricsAgg_init pat bs mb).
Proof.
  constructor; simpl; try lia.
  - constructor.
  - exact agrees_nil.
Qed.

Lemma set_bucket_seconds_inv sec m : inv m -> inv (set_bucket_seconds sec m).
Proof.
  intros [Hw Hmax Hlen Hnd Ha]. constructor; simpl; try lia.
  - constructor.
  - exact agrees_nil.
Qed.

Lemma set_tail_inv t m : inv m -> inv (set_tail t m).
Proof. intros [Hw Hmax Hlen Hnd Ha]. constructor; assumption. Qed.

(** The [while] loop of [ensure_buckets_to] ends when the width is
    positive, and it keeps every property [P b m] of the loop variable
    and the state that one round keeps. *)
Lemma fill_to_preserves (P : Z -> MetricsAgg -> Prop) :
  (forall b m, P b m ->
     P (b + bucket_seconds m) (_ensure_bucket (b + bucket_seconds m) m)) ->
  (forall b m, P b m -> 1 <= bucket_seconds m) ->
  forall fuel b target_b m,
    P b m -> (Z.to_nat (target_b - b) <= fuel)%nat ->
    exists m' b', fill_to fuel b target_b m = Some m' /\ P b' m'.
Proof.
  intros Hstep Hw. induction fuel as [|k IH]; intros b target_b m HP Hfuel.
  - simpl. destruct (b <? target_b) eqn:E; [apply Z.ltb_lt in E; lia|].
    exists m, b. split; [reflexivity | exact HP].
  - simpl. destruct (b <? target_b) eqn:E.
    + apply Z.ltb_lt in E. apply IH.
      * apply Hstep, HP.
      * specialize (Hw b m HP). lia.
    + exists m, b. split; [reflexivity | exact HP].
Qed.

Lemma ensure_buckets_to_preserves (P : MetricsAgg -> Prop) now m :
  (forall b m, P m -> P (_ensure_bucket b m)) ->
  (forall m, P m -> 1 <= bucket_seconds m) ->
  P m -> exists m', ensure_buckets_to now m = Done m' /\ P m'.
Proof.
  intros Hstep Hw HP. unfold ensure_buckets_to, _bucket_start.
  pose proof (Hw m HP) as Hw1.
  destruct (bucket_seconds m =? 0) eqn:E; [apply Z.eqb_eq in E; lia|].
  destruct (last (timeline m)) as [e|].
  - edestruct (fill_to_preserves (fun _ => P)) as (m' & b' & -> & HP');
      [intros b0 m0; apply Hstep | intros _ m0; apply Hw | exact HP | reflexivity |].
    exists m'. split; [reflexivity | exact HP'].
  - eexists. split; [reflexivity|]. apply Hstep, HP.
Qed.

Lemma ensure_buckets_to_inv now m :
  inv m -> exists m', ensure_buckets_to now m = Done m' /\ inv m'.
Proof.
  apply ensure_buckets_to_preserves.
  - intros b m0. apply ensure_bucket_inv.
  - intros m0 H. apply H.
Qed.

Section Engine.

Context `{RT : Runtime}.

Lemma count_record_inv kvs m : inv m -> inv (count_record kvs m).
Proof. intros [Hw Hmax Hlen Hnd Ha]. constructor; assumption. Qed.

(** On a state of a session a record is always counted: neither the
    [KeyError] nor the [ZeroDivisionError] can occur. *)
Lemma update_line_record now line kvs m :
  json_loads line = Some (JDict kvs) -> inv m ->
  exists b c,
    let m2 := _ensure_bucket b (count_record kvs m) in
    let c' := bump (truthy (dict_get kvs "success")) c in
    _bucket_start (count_record kvs m)
      (parse_ts now (py_or (dict_get kvs "ts") (JStr EmptyString))) = Some b /\
    bucket_map m2 !! b = Some c /\
    update_line now line m
    = Done (set_buckets (sync_bucket b c' (timeline m2))
                        (<[b := c']> (bucket_map m2)) m2).
Proof.
  intros Hl Hinv. unfold update_line. rewrite Hl.
  pose proof (count_record_inv kvs m Hinv) as Hinv1.
  unfold _bucket_start at 1 2.
  destruct (bucket_seconds (count_record kvs m) =? 0) eqn:E.
  { apply Z.eqb_eq in E. destruct Hinv1. lia. }
  eexists.
  destruct (ensure_bucket_lookup
              (py_int (parse_ts now (py_or (dict_get kvs "ts") (JStr EmptyString))
                       - py_fmod (parse_ts now (py_or (dict_get kvs "ts") (JStr EmptyString)))
                           (bucket_seconds (count_record kvs m))))
              (count_record kvs m) Hinv1) as [c Hc].
  exists c. cbv zeta. rewrite Hc. split; [reflexivity|]. split; reflexivity.
Qed.

Lemma update_line_inv now line m m' :
  inv m -> ends_in (update_line now line m) m' -> inv m'.
Proof.
  intros Hinv Hend. destruct (json_loads line) as [obj|] eqn:Hl.
  - destruct obj;
      try (unfold update_line in Hend; rewrite Hl in Hend;
           destruct Hend as [Hd | [e Hr]]; [discriminate | congruence]).
    destruct (update_line_record now line kvs m Hl Hinv) as (b & c & _ & Hc & Hu).
    cbv zeta in Hc, Hu. rewrite Hu in Hend.
    destruct Hend as [Hd | [e Hr]]; [|discriminate]. injection Hd as <-.
    pose proof (ensure_bucket_inv b _ (count_record_inv kvs m Hinv)) as [Hw Hmax Hlen Hnd Ha].
    constructor; simpl; try assumption.
    + rewrite length_sync. exact Hlen.
    + rewrite starts_sync. exact Hnd.
    + apply agrees_sync; [exact Hnd | exact Ha | eexists; exact Hc].
  - unfold update_line in Hend. rewrite Hl in Hend.
    destruct Hend as [Hd | [e Hr]]; congruence.
Qed.

Lemma update_line_not_diverged now line m : update_line now line m <> Diverged.
Proof.
  unfold update_line. destruct (json_loads line) as [[]|]; try discriminate.
  destruct (_bucket_start _ _); [|discriminate].
  destruct (bucket_map _ !! _); discriminate.
Qed.

Lemma ingest_inv now lines m m' :
  inv m -> ends_in (ingest now lines m) m' -> inv m'.
Proof.
  revert m. induction lines as [|[path line] rest IH]; intros m Hinv Hend.
  - destruct Hend as [Hd | [e Hr]]; [|discriminate]. simpl in Hd. congruence.
  - simpl in Hend. destruct (update_line now line m) as [m1|e1 m1|] eqn:Hu.
    + apply (IH m1); [|exact Hend].
      apply (update_line_inv now line m m1 Hinv). left. exact Hu.
    + destruct Hend as [Hd | [e Hr]]; [discriminate|]. injection Hr as <- <-.
      apply (update_line_inv now line m m1 Hinv). right. eexists. exact Hu.
    + destruct Hend as [Hd | [e Hr]]; discriminate.
Qed.

Lemma update_inv fs now m m' :
  inv m -> ends_in (update fs now m) m' -> inv m'.
Proof.
  unfold update. destruct (read_new_lines fs (tail m)) as [t lines].
  intros Hinv. apply ingest_inv, set_tail_inv, Hinv.
Qed.

Lemma run_op_inv o m m' : inv m -> ends_in (run_op o m) m' -> inv m'.
Proof.
  intros Hinv Hend. destruct o as [now lines|fs now|now|sec]; simpl in Hend.
  - eapply ingest_inv; eassumption.
  - eapply update_inv; eassumption.
  - destruct (ensure_buckets_to_inv now m Hinv) as (m1 & He & Hinv1).
    rewrite He in Hend. destruct Hend as [Hd | [e Hr]]; [|discriminate].
    congruence.
  - destruct Hend as [Hd | [e Hr]]; [|discriminate]. injection Hd as <-.
    apply set_bucket_seconds_inv, Hinv.
Qed.

Lemma exec_inv ops m m' : inv m -> ends_in (exec ops m) m' -> inv m'.
Proof.
  revert m. induction ops as [|o rest IH]; intros m Hinv Hend.
  - destruct Hend as [Hd | [e Hr]]; [|discriminate]. simpl in Hd. congruence.
  - simpl in Hend. destruct (run_op o m) as [m1|e1 m1|] eqn:Hr1.
    + apply (IH m1); [|exact Hend]. apply (run_op_inv o m m1 Hinv). left. exact Hr1.
    + destruct Hend as [Hd | [e Hr]]; [discriminate|]. injection Hr as <- <-.
      apply (run_op_inv o m m1 Hinv). right. eexists. exact Hr1.
    + destruct Hend as [Hd | [e Hr]]; discriminate.
Qed.

Lemma reachable_inv m : reachable m -> inv m.
Proof.
  intros (pat & bs & mb & ops & Hend).
  eapply exec_inv; [apply init_inv | exact Hend].
Qed.

End Engine.

(** ** Contiguity and backfill *)

Lemma keep_last_app {A : Type} (n : Z) (l l' : list A) :
  keep_last n (keep_last n l ++ l') = keep_last n (l ++ l').
Proof.
  unfold keep_last. rewrite !length_app, length_drop.
  destruct (decide (length l <= Z.to_nat n)%nat) as [Hle|Hgt].
  - replace (length l - Z.to_nat n)%nat with 0%nat by lia.
    rewrite drop_0. do 2 f_equal. lia.
  - rewrite !drop_app, drop_drop, length_drop. f_equal.
    + f_equal. lia.
    + f_equal. lia.
Qed.

Lemma last_keep_last_snoc {A : Type} (n : Z) (l : list A) (x : A) :
  1 <= n -> last (keep_last n (l ++ [x])) = Some x.
Proof.
  intros Hn. unfold keep_last. rewrite length_app. simpl.
  rewrite drop_app_le by lia. apply last_snoc.
Qed.

Lemma contiguous_drop w n tl : contiguous w tl -> contiguous w (drop n tl).
Proof.
  intros Hc i a b. unfold starts. rewrite fmap_drop, !lookup_drop.
  replace (n + S i)%nat with (S (n + i)) by lia. apply Hc.
Qed.

Lemma contiguous_snoc w tl b s f :
  contiguous w tl -> last (starts tl) = Some b ->
  contiguous w (tl ++ [(b + w, s, f)]).
Proof.
  intros Hc Hl i x y. rewrite starts_snoc. intros Hx Hy.
  rewrite last_lookup in Hl.
  assert (Hlen : (S i <= length (starts tl))%nat).
  { apply lookup_lt_Some in Hy. rewrite length_app in Hy. simpl in Hy. lia. }
  rewrite lookup_app_l in Hx by lia.
  destruct (decide (S i = length (starts tl))) as [He|Hne].
  - rewrite lookup_app_r in Hy by lia.
    replace (S i - length (starts tl))%nat with 0%nat in Hy by lia.
    simpl in Hy. rewrite <- He in Hl. simpl in Hl. congruence.
  - rewrite lookup_app_l in Hy by lia. eapply Hc; eassumption.
Qed.

Lemma contiguous_lookup_add w tl i j a b :
  contiguous w tl ->
  starts tl !! i = Some a -> starts tl !! (i + j)%nat = Some b ->
  b = a + Z.of_nat j * w.
Proof.
  intros Hc Ha. revert b. induction j as [|j IH]; intros b Hb.
  - replace (i + 0)%nat with i in Hb by lia. rewrite Ha in Hb. injection Hb; lia.
  - replace (i + S j)%nat with (S (i + j)) in Hb by lia.
    destruct (starts tl !! (i + j)%nat) as [c|] eqn:Hcj.
    + specialize (IH c eq_refl). rewrite (Hc (i + j)%nat c b Hcj Hb). lia.
    + apply lookup_ge_None in Hcj. apply lookup_lt_Some in Hb. lia.
Qed.

Lemma contiguous_increasing w tl i j a b :
  contiguous w tl -> 1 <= w -> (i < j)%nat ->
  starts tl !! i = Some a -> starts tl !! j = Some b -> a < b.
Proof.
  intros Hc Hw Hij Ha Hb.
  replace j with (i + (j - i))%nat in Hb by lia.
  rewrite (contiguous_lookup_add w tl i (j - i) a b Hc Ha Hb). nia.
Qed.

(** In a gap-free timeline the last start is the largest one. *)
Lemma contiguous_last_max w tl L :
  contiguous w tl -> 1 <= w -> last (starts tl) = Some L ->
  forall x, x ∈ starts tl -> x <= L.
Proof.
  intros Hc Hw Hl x Hx. apply list_elem_of_lookup in Hx as [i Hi].
  rewrite last_lookup in Hl. pose proof (lookup_lt_Some _ _ _ Hi) as Hlt.
  rewrite (contiguous_lookup_add w tl i (pred (length (starts tl)) - i) x L Hc Hi).
  - nia.
  - replace (i + (pred (length (starts tl)) - i))%nat
      with (pred (length (starts tl))) by lia.
    exact Hl.
Qed.

(** One round of the backfill loop on a timeline whose last start is the
    largest: the next bucket is new, it is appended, and the oldest entry
    leaves when the timeline is full. *)
Lemma backfill_round b m :
  inv m -> last_is_max b m ->
  let b' := b + bucket_seconds m in
  let m' := _ensure_bucket b' m in
  inv m' /\ last_is_max b' m' /\
  timeline m'
  = keep_last (max_buckets m) (timeline m ++ [(b', 0%nat, 0%nat)]).
Proof.
  intros Hinv [Hl Hmax] b' m'.
  assert (Hfresh : bucket_map m !! b' = None).
  { apply (agrees_None (timeline m)); [apply Hinv|].
    intros Hin. apply Hmax in Hin. destruct Hinv. subst b'. lia. }
  destruct (ensure_bucket_fresh b' m) as (bm' & He & Ha');
    [apply Hinv | apply Hinv | exact Hfresh |].
  split; [apply ensure_bucket_inv, Hinv|].
  subst m'. rewrite He. simpl. split; [|reflexivity].
  unfold last_is_max. simpl. split.
  - unfold starts. rewrite fmap_last.
    rewrite last_keep_last_snoc by apply Hinv. reflexivity.
  - intros x Hx. unfold keep_last in Hx.
    unfold starts in Hx. rewrite fmap_drop in Hx.
    apply list_elem_of_lookup in Hx as [i Hi]. rewrite lookup_drop in Hi.
    apply list_elem_of_lookup_2 in Hi. fold (starts (timeline m ++ [(b', 0%nat, 0%nat)])) in Hi.
    rewrite starts_snoc in Hi. apply elem_of_app in Hi as [Hi | Hi].
    + apply Hmax in Hi. destruct Hinv. subst b'. lia.
    + apply list_elem_of_singleton in Hi. lia.
Qed.

Lemma same_outside_timeline_refl m : same_outside_timeline m m.
Proof. unfold same_outside_timeline. tauto. Qed.

Lemma same_outside_timeline_trans m1 m2 m3 :
  same_outside_timeline m1 m2 -> same_outside_timeline m2 m3 ->
  same_outside_timeline m1 m3.
Proof. unfold same_outside_timeline. intuition congruence. Qed.

Lemma ensure_bucket_same b m : same_outside_timeline m (_ensure_bucket b m).
Proof. exact (ensure_bucket_frame b m). Qed.

Lemma fill_to_same fuel b target_b m m' :
  fill_to fuel b target_b m = Some m' -> same_outside_timeline m m'.
Proof.
  revert b m. induction fuel as [|k IH]; intros b m; simpl;
    destruct (b <? target_b); try discriminate.
  - intros [= <-]. apply same_outside_timeline_refl.
  - intros Hf. apply IH in Hf.
    eapply same_outside_timeline_trans; [apply ensure_bucket_same | exact Hf].
  - intros [= <-]. apply same_outside_timeline_refl.
Qed.

Lemma empty_buckets_S L w k :
  empty_buckets L w (S k) = (L + w, 0%nat, 0%nat) :: empty_buckets (L + w) w k.
Proof.
  unfold empty_buckets. simpl. f_equal; [f_equal; f_equal; lia|].
  rewrite <- seq_shift, map_map. apply map_ext. intros i.
  do 2 f_equal. lia.
Qed.

(** The backfill loop toward a target [k] widths past a last start that
    is the largest one: it ends, and the timeline is the old one followed
    by the [k] empty buckets, cut to its newest [max_buckets] entries. *)
Lemma fill_to_aligned k :
  forall fuel b m,
    inv m -> last_is_max b m -> (k <= fuel)%nat ->
    exists m',
      fill_to fuel b (b + Z.of_nat k * bucket_seconds m) m = Some m' /\
      inv m' /\ last_is_max (b + Z.of_nat k * bucket_seconds m) m' /\
      timeline m'
      = keep_last (max_buckets m)
          (timeline m ++ empty_buckets b (bucket_seconds m) k).
Proof.
  induction k as [|k IH]; intros fuel b m Hinv Hlast Hfuel.
  - exists m. replace (b + Z.of_nat 0 * bucket_seconds m) with b by lia.
    assert (Hf : fill_to fuel b b m = Some m).
    { destruct fuel; simpl; rewrite Z.ltb_irrefl; reflexivity. }
    rewrite Hf. split; [reflexivity|]. split; [exact Hinv|].
    split; [exact Hlast|].
    unfold empty_buckets. simpl. rewrite app_nil_r.
    symmetry. apply keep_last_all, Hinv.
  - destruct fuel as [|fuel]; [lia|].
    pose proof (inv_width m Hinv) as Hw. simpl fill_to.
    destruct (b <? b + Z.of_nat (S k) * bucket_seconds m) eqn:E;
      [|apply Z.ltb_ge in E; nia].
    destruct (backfill_round b m Hinv Hlast) as (Hinv1 & Hlast1 & Htl1).
    destruct (ensure_bucket_frame (b + bucket_seconds m) m)
      as (_ & _ & _ & _ & _ & Hbs & Hmb).
    destruct (IH fuel (b + bucket_seconds m) _ Hinv1 Hlast1) as (m' & Hf & Hinv' & Hlast' & Htl');
      [lia|].
    rewrite Hbs in Hf, Hlast', Htl'. rewrite Hmb in Htl'.
    replace (b + bucket_seconds m + Z.of_nat k * bucket_seconds m)
      with (b + Z.of_nat (S k) * bucket_seconds m) in Hf, Hlast' by lia.
    exists m'. split; [exact Hf|]. split; [exact Hinv'|]. split; [exact Hlast'|].
    rewrite Htl', Htl1, keep_last_app, <- app_assoc, empty_buckets_S.
    reflexivity.
Qed.

Lemma contiguous_short w (tl : list bucket) :
  (length tl <= 1)%nat -> contiguous w tl.
Proof.
  intros Hlen i a b _ Hb. apply lookup_lt_Some in Hb.
  unfold starts in Hb. rewrite length_fmap in Hb. lia.
Qed.

(** Backfill keeps a gap-free timeline gap-free. *)
Lemma ensure_buckets_to_contiguous now m :
  inv m -> contiguous (bucket_seconds m) (timeline m) ->
  exists m', ensure_buckets_to now m = Done m' /\
             bucket_seconds m' = bucket_seconds m /\
             contiguous (bucket_seconds m') (timeline m').
Proof.
  intros Hinv Hc. pose proof (inv_width m Hinv) as Hw.
  unfold ensure_buckets_to, _bucket_start.
  destruct (bucket_seconds m =? 0) eqn:E; [apply Z.eqb_eq in E; lia|].
  destruct (last (timeline m)) as [e|] eqn:Hl.
  - set (w := bucket_seconds m) in *.
    set (P := fun b m0 => inv m0 /\ last_is_max b m0 /\
                          bucket_seconds m0 = w /\ contiguous w (timeline m0)).
    assert (Hl' : last (starts (timeline m)) = Some (bucket_start_of e)).
    { unfold starts. rewrite fmap_last, Hl. reflexivity. }
    edestruct (fill_to_preserves P) as (m' & b' & -> & HP').
    + intros b m0 (Hi & Hm & Hb & Hcc).
      destruct (backfill_round b m0 Hi Hm) as (Hi' & Hm' & Htl).
      destruct (ensure_bucket_frame (b + bucket_seconds m0) m0)
        as (_ & _ & _ & _ & _ & Hbs & _).
      split; [exact Hi'|]. split; [exact Hm'|]. split; [congruence|].
      rewrite Htl. apply contiguous_drop. rewrite Hb.
      apply contiguous_snoc; [exact Hcc | apply Hm].
    + intros b m0 (Hi & _). apply Hi.
    + split; [exact Hinv|]. split; [|split; [reflexivity | exact Hc]].
      split; [exact Hl'|]. apply (contiguous_last_max w); assumption.
    + reflexivity.
    + destruct HP' as (_ & _ & Hb & Hcc). exists m'.
      split; [reflexivity|]. split; [exact Hb|]. rewrite Hb. exact Hcc.
  - apply last_None in Hl. eexists. split; [reflexivity|].
    destruct (ensure_bucket_frame
                (py_int (now - py_fmod now (bucket_seconds m))) m)
      as (_ & _ & _ & _ & _ & Hbs & _).
    split; [exact Hbs|]. apply contiguous_short.
    unfold _ensure_bucket. destruct (bucket_map m !! _) eqn:Hb.
    + rewrite Hl. simpl. lia.
    + destruct (evict_spec (max_buckets m)
                  (timeline m ++ [(py_int (now - py_fmod now (bucket_seconds m)), 0%nat, 0%nat)])
                  (<[py_int (now - py_fmod now (bucket_seconds m)) := (0%nat, 0%nat)]> (bucket_map m)))
        as (bm' & He & _).
      * eapply NoDup_starts_snoc; [apply Hinv | apply Hinv | exact Hb].
      * apply agrees_snoc; [apply Hinv | exact Hb].
      * rewrite He. simpl. unfold keep_last. rewrite length_drop, Hl. simpl. lia.
Qed.

(** ** The bucket of a timestamp *)

Lemma py_int_inject (z : Z) (x : Q) : (x == inject_Z z)%Q -> py_int x = z.
Proof.
  intros Hx. unfold py_int.
  rewrite (Qfloor_comp _ _ Hx), (Qceiling_comp _ _ Hx), Qfloor_Z, Qceiling_Z.
  destruct (Qle_bool 0 x); reflexivity.
Qed.

Lemma bucket_start_floor m ts :
  bucket_seconds m <> 0 ->
  _bucket_start m ts
  = Some (bucket_seconds m * Qfloor (ts / inject_Z (bucket_seconds m))).
Proof.
  intros Hw. unfold _bucket_start.
  destruct (bucket_seconds m =? 0) eqn:E; [apply Z.eqb_eq in E; contradiction|].
  f_equal. apply py_int_inject. unfold py_fmod.
  rewrite inject_Z_mult. ring.
Qed.

Lemma bucket_start_contains m ts b :
  1 <= bucket_seconds m -> _bucket_start m ts = Some b ->
  (inject_Z b <= ts)%Q /\ (ts < inject_Z (b + bucket_seconds m))%Q.
Proof.
  intros Hw Hb. rewrite bucket_start_floor in Hb by lia.
  set (w := bucket_seconds m) in *.
  assert (Hb' : b = w * Qfloor (ts / inject_Z w)) by congruence.
  clear Hb. subst b.
  assert (Hwq : (0 < inject_Z w)%Q).
  { change 0%Q with (inject_Z 0). rewrite <- Zlt_Qlt. lia. }
  assert (Hts : (ts == inject_Z w * (ts / inject_Z w))%Q).
  { field. intros H0. rewrite H0 in Hwq. apply (Qlt_irrefl 0). exact Hwq. }
  remember (ts / inject_Z w)%Q as q eqn:Hq. clear Hq.
  pose proof (Qfloor_le q) as Hlo.
  pose proof (Qlt_floor q) as Hhi.
  split.
  - rewrite inject_Z_mult.
    apply (Qle_trans _ (inject_Z w * q)).
    + apply (proj2 (Qmult_le_l _ _ _ Hwq)). exact Hlo.
    + rewrite <- Hts. apply Qle_refl.
  - replace (w * Qfloor q + w) with (w * (Qfloor q + 1)) by lia.
    rewrite inject_Z_mult.
    apply (Qle_lt_trans _ (inject_Z w * q)).
    + rewrite <- Hts. apply Qle_refl.
    + apply (proj2 (Qmult_lt_l _ _ _ Hwq)). exact Hhi.
Qed.

(** ** What the ingest of a line does to the timeline *)

Lemma starts_keep_last (n : Z) (tl : list bucket) :
  starts (keep_last n tl) = keep_last n (starts tl).
Proof. unfold keep_last, starts. rewrite fmap_drop, length_map. reflexivity. Qed.

Lemma contiguous_same_starts w tl1 tl2 :
  starts tl1 = starts tl2 -> contiguous w tl1 -> contiguous w tl2.
Proof. intros He Hc i a b. rewrite <- He. apply Hc. Qed.

Section IngestShape.

Context `{RT : Runtime}.

(** The bucket starts after one line: they are those of before, the
    bucket of the record being one of them, or the bucket of the record
    is a new one and stands at the end, the oldest entries beyond
    [max_buckets] having left. *)
Lemma update_line_starts now line m m' :
  inv m -> ends_in (update_line now line m) m' ->
  bucket_seconds m' = bucket_seconds m /\
  ((starts (timeline m') = starts (timeline m) /\
    forall kvs b,
      json_loads line = Some (JDict kvs) ->
      _bucket_start m (parse_ts now (py_or (dict_get kvs "ts") (JStr EmptyString)))
      = Some b ->
      b ∈ starts (timeline m)) \/
   exists kvs b,
     json_loads line = Some (JDict kvs) /\
     _bucket_start m (parse_ts now (py_or (dict_get kvs "ts") (JStr EmptyString)))
     = Some b /\
     (b ∉ starts (timeline m)) /\
     starts (timeline m')
     = starts (keep_last (max_buckets m) (timeline m ++ [(b, 0%nat, 0%nat)]))).
Proof.
  intros Hinv Hend. destruct (json_loads line) as [obj|] eqn:Hl.
  - destruct obj;
      try (unfold update_line in Hend; rewrite Hl in Hend;
           destruct Hend as [Hd | [e Hr]]; [discriminate|];
           injection Hr as _ <-; split; [reflexivity|]; left;
           split; [reflexivity|]; intros kvs0 b0 H0; discriminate H0).
    destruct (update_line_record now line kvs m Hl Hinv) as (b & c & Hb & Hc & Hu).
    cbv zeta in Hc, Hu. rewrite Hu in Hend.
    destruct Hend as [Hd | [e Hr]]; [|discriminate]. injection Hd as <-.
    change (_bucket_start (count_record kvs m)
              (parse_ts now (py_or (dict_get kvs "ts") (JStr EmptyString))))
      with (_bucket_start m
              (parse_ts now (py_or (dict_get kvs "ts") (JStr EmptyString)))) in Hb.
    destruct (ensure_bucket_frame b (count_record kvs m))
      as (_ & _ & _ & _ & _ & Hbs & _).
    split; [exact Hbs|]. simpl timeline. rewrite starts_sync.
    pose proof (count_record_inv kvs m Hinv) as Hinv1.
    destruct (bucket_map (count_record kvs m) !! b) as [c0|] eqn:Hm.
    + left. rewrite (ensure_bucket_present b _ c0 Hm). split; [reflexivity|].
      intros kvs0 b0 H0 Hb0. assert (kvs0 = kvs) by congruence. subst kvs0.
      assert (b0 = b) by congruence. subst b0.
      apply (agrees_is_Some (timeline m) (bucket_map m) b (inv_index m Hinv)).
      exists c0. exact Hm.
    + right. exists kvs, b. split; [reflexivity|]. split; [exact Hb|].
      split.
      * apply (agrees_None (timeline m) (bucket_map m) b (inv_index m Hinv)).
        exact Hm.
      * destruct (ensure_bucket_fresh b (count_record kvs m)
                    (inv_nodup _ Hinv1) (inv_index _ Hinv1) Hm) as (bm' & -> & _).
        reflexivity.
  - unfold update_line in Hend. rewrite Hl in Hend.
    destruct Hend as [Hd | [e Hr]]; [|discriminate]. injection Hd as <-.
    split; [reflexivity|]. left. split; [reflexivity|].
    intros kvs0 b0 H0. discriminate H0.
Qed.

(** The ingest of a line keeps a gap-free timeline gap-free when the
    bucket of its record is in the timeline, or comes right after the
    last one, or the timeline is empty. *)
Lemma update_line_contiguous now line m m' :
  inv m -> ends_in (update_line now line m) m' ->
  contiguous (bucket_seconds m) (timeline m) ->
  (forall kvs b,
     json_loads line = Some (JDict kvs) ->
     _bucket_start m (parse_ts now (py_or (dict_get kvs "ts") (JStr EmptyString)))
     = Some b ->
     b ∈ starts (timeline m) \/ timeline m = [] \/
     last (starts (timeline m)) = Some (b - bucket_seconds m)) ->
  contiguous (bucket_seconds m') (timeline m').
Proof.
  intros Hinv Hend Hc Hcond.
  destruct (update_line_starts now line m m' Hinv Hend)
    as [Hbs [[Hsame _] | (kvs & b & Hl & Hb & Hnew & Hst)]]; rewrite Hbs.
  - apply (contiguous_same_starts _ (timeline m)); [symmetry; exact Hsame | exact Hc].
  - apply (contiguous_same_starts _
             (keep_last (max_buckets m) (timeline m ++ [(b, 0%nat, 0%nat)])));
      [symmetry; exact Hst|].
    destruct (Hcond kvs b Hl Hb) as [Hin | [Hnil | Hlast]].
    + contradiction.
    + apply contiguous_short. unfold keep_last. rewrite length_drop, Hnil.
      simpl. lia.
    + unfold keep_last. apply contiguous_drop.
      replace b with (b - bucket_seconds m + bucket_seconds m) by lia.
      apply contiguous_snoc; assumption.
Qed.

End IngestShape.

(** * The claims *)

Section Claims.

Context `{RT : Runtime}.

(** C1, as the code has it.  In every state a session reaches the bucket
    starts of the timeline are pairwise distinct (no duplicates).
    Contiguity, consecutive starts differing by exactly the bucket width
    and hence strictly increasing, is kept by [backfill_to], which always
    returns, and by the ingest of a line, returned or raised, whenever
    the bucket of its record is already in the timeline, or comes right
    after the last one, or the timeline is empty; a line that is skipped
    or raises before it is counted leaves the timeline as it is.  The
    ingest of a line creates at most one bucket, that of its record, and
    puts it at the end of the timeline, the oldest entries beyond
    [max_buckets] leaving: it creates no bucket between the last one and
    the new one. *)
Theorem C1_no_duplicates_backfill_keeps_contiguity (m : MetricsAgg) :
  reachable m ->
  NoDup (starts (timeline m)) /\
  (forall now,
     contiguous (bucket_seconds m) (timeline m) ->
     exists m',
       ensure_buckets_to now m = Done m' /\
       bucket_seconds m' = bucket_seconds m /\
       contiguous (bucket_seconds m') (timeline m') /\
       forall i j a b, (i < j)%nat ->
         starts (timeline m') !! i = Some a ->
         starts (timeline m') !! j = Some b -> a < b) /\
  (forall now line m',
     ends_in (update_line now line m) m' ->
     bucket_seconds m' = bucket_seconds m /\
     (starts (timeline m') = starts (timeline m) \/
      exists kvs b,
        json_loads line = Some (JDict kvs) /\
        _bucket_start m
          (parse_ts now (py_or (dict_get kvs "ts") (JStr EmptyString))) = Some b /\
        (b ∉ starts (timeline m)) /\
        starts (timeline m')
        = keep_last (max_buckets m) (starts (timeline m) ++ [b])) /\
     (contiguous (bucket_seconds m) (timeline m) ->
      (forall kvs b,
         json_loads line = Some (JDict kvs) ->
         _bucket_start m
           (parse_ts now (py_or (dict_get kvs "ts") (JStr EmptyString))) = Some b ->
         b ∈ starts (timeline m) \/ timeline m = [] \/
         last (starts (timeline m)) = Some (b - bucket_seconds m)) ->
      contiguous (bucket_seconds m') (timeline m') /\
      forall i j a b, (i < j)%nat ->
        starts (timeline m') !! i = Some a ->
        starts (timeline m') !! j = Some b -> a < b)).
Proof.
  intros Hr. apply reachable_inv in Hr. split; [apply Hr|]. split.
  - intros now Hc.
    destruct (ensure_buckets_to_contiguous now m Hr Hc) as (m' & He & Hbs & Hc').
    exists m'. split; [exact He|]. split; [exact Hbs|]. split; [exact Hc'|].
    intros i j a b Hij Ha Hb.
    apply (contiguous_increasing (bucket_seconds m') (timeline m') i j a b Hc');
      [|assumption..].
    rewrite Hbs. apply Hr.
  - intros now line m' Hend.
    destruct (update_line_starts now line m m' Hr Hend) as [Hbs Hshape].
    split; [exact Hbs|]. split.
    + destruct Hshape as [[Hsame _] | (kvs & b & Hl & Hb & Hnew & Hst)].
      * left. exact Hsame.
      * right. exists kvs, b. split; [exact Hl|]. split; [exact Hb|].
        split; [exact Hnew|]. rewrite Hst, starts_keep_last, starts_snoc.
        reflexivity.
    + intros Hc Hcond.
      pose proof (update_line_contiguous now line m m' Hr Hend Hc Hcond) as Hc'.
      split; [exact Hc'|]. intros i j a b Hij Ha Hb.
      apply (contiguous_increasing (bucket_seconds m') (timeline m') i j a b Hc');
        [|assumption..].
      rewrite Hbs. apply Hr.
Qed.

(** C2: in every state a session reaches the timeline holds at most
    [max_buckets] entries and the keys of the lookup index are exactly the
    bucket starts of the timeline; creating a bucket keeps both, and when
    it evicts, what remains is the newest [max_buckets] entries of the
    timeline with the new bucket appended, the index cut down with it. *)
Theorem C2_bounded_timeline_consistent_index (m : MetricsAgg) :
  reachable m ->
  Z.of_nat (length (timeline m)) <= max_buckets m /\
  dom (bucket_map m) = (list_to_set (starts (timeline m)) : gset Z) /\
  forall b,
    let m' := _ensure_bucket b m in
    Z.of_nat (length (timeline m')) <= max_buckets m' /\
    dom (bucket_map m') = (list_to_set (starts (timeline m')) : gset Z) /\
    (bucket_map m !! b = None ->
     timeline m'
     = keep_last (max_buckets m) (timeline m ++ [(b, 0%nat, 0%nat)])).
Proof.
  intros Hr. apply reachable_inv in Hr.
  split; [apply Hr|]. split; [apply agrees_dom, Hr|].
  intros b m'. pose proof (ensure_bucket_inv b m Hr) as Hinv'.
  split; [apply Hinv'|]. split; [apply agrees_dom, Hinv'|].
  intros Hfresh.
  destruct (ensure_bucket_fresh b m) as (bm' & He & _);
    [apply Hr | apply Hr | exact Hfresh |].
  subst m'. rewrite He. reflexivity.
Qed.

(** C3, as the code has it.  On a state of a session whose timeline ends
    with the start [L], no start being larger, and with
    [T = L + k * width] the bucket of [now]: [backfill_to(now)] returns,
    and the timeline is the old one followed by the [k] empty buckets
    [(L + width, 0, 0) ... (T, 0, 0)], cut to its newest [max_buckets]
    entries; the index holds exactly the buckets of that timeline and
    nothing else changes.  When the timeline has room for [k] more
    entries, exactly the [k] empty buckets are appended.  On an empty
    timeline it creates only the bucket that contains [now]. *)
Theorem C3_backfill_appends_empty_buckets (m : MetricsAgg) (now : Q) :
  inv m ->
  (forall L k,
     last_is_max L m ->
     _bucket_start m now = Some (L + Z.of_nat k * bucket_seconds m) ->
     exists m',
       ensure_buckets_to now m = Done m' /\
       timeline m'
       = keep_last (max_buckets m)
           (timeline m ++ empty_buckets L (bucket_seconds m) k) /\
       (Z.of_nat (length (timeline m) + k) <= max_buckets m ->
        timeline m' = timeline m ++ empty_buckets L (bucket_seconds m) k) /\
       index_agrees m' /\ same_outside_timeline m m') /\
  (timeline m = [] ->
   exists b,
     _bucket_start m now = Some b /\
     (inject_Z b <= now)%Q /\ (now < inject_Z (b + bucket_seconds m))%Q /\
     ensure_buckets_to now m
     = Done (set_buckets [(b, 0%nat, 0%nat)] {[b := (0%nat, 0%nat)]} m)).
Proof.
  intros Hinv. split.
  - intros L k Hlast Hb. unfold ensure_buckets_to. rewrite Hb.
    destruct Hlast as [Hl Hmax]. unfold starts in Hl. rewrite fmap_last in Hl.
    destruct (last (timeline m)) as [e|] eqn:Hle; [|discriminate].
    simpl in Hl. injection Hl as Hl. rewrite Hl.
    destruct (fill_to_aligned k
                (Z.to_nat (L + Z.of_nat k * bucket_seconds m - L)) L m Hinv)
      as (m' & Hf & Hinv' & _ & Htl).
    { split; [|exact Hmax]. unfold starts. rewrite fmap_last, Hle. simpl.
      rewrite Hl. reflexivity. }
    { pose proof (inv_width m Hinv). nia. }
    rewrite Hf. exists m'. split; [reflexivity|]. split; [exact Htl|].
    split; [|split; [apply Hinv' | eapply fill_to_same; exact Hf]].
    intros Hroom. rewrite Htl. apply keep_last_all.
    rewrite length_app. unfold empty_buckets. rewrite length_map, length_seq.
    exact Hroom.
  - intros Hnil. pose proof (inv_width m Hinv) as Hw.
    pose proof (bucket_start_floor m now ltac:(lia)) as Hb.
    remember (bucket_seconds m * Qfloor (now / inject_Z (bucket_seconds m)))
      as b eqn:Eb. clear Eb.
    exists b. split; [exact Hb|].
    destruct (bucket_start_contains m now b Hw Hb) as [Hlo Hhi].
    split; [exact Hlo|]. split; [exact Hhi|].
    unfold ensure_buckets_to. rewrite Hnil. simpl last. rewrite Hb. f_equal.
    assert (Hempty : bucket_map m = ∅).
    { apply map_empty. intros b0. apply (agrees_None (timeline m)); [apply Hinv|].
      rewrite Hnil. apply not_elem_of_nil. }
    unfold _ensure_bucket. rewrite Hempty, lookup_empty, Hnil. simpl.
    pose proof (inv_max m Hinv) as Hmax.
    change (Z.of_nat 1) with 1.
    destruct (max_buckets m <? 1) eqn:E; [apply Z.ltb_lt in E; lia|].
    reflexivity.
Qed.

End Claims.

(** ** Sample runs *)

Lemma after_reachable (ops : list op) : @reachable sample_runtime (after ops).
Proof.
  unfold after.
  destruct (@exec sample_runtime ops fresh) as [m|e m|] eqn:E.
  - exists "metrics/*.jsonl"%string, 10, 72, ops. left. exact E.
  - exists "metrics/*.jsonl"%string, 10, 72, ops. right. exists e. exact E.
  - exists "metrics/*.jsonl"%string, 10, 72, []. left. reflexivity.
Qed.

(** C1 fails as stated: two records a hundred seconds apart, ingested
    into ten second buckets, leave their two starts next to each other,
    a hundred seconds apart; and with the later record first in the file
    the later start comes first. *)
Lemma C1_counterexample :
  Forall ingest_or_backfill distant_records /\
  @exec sample_runtime distant_records fresh = Done (after distant_records) /\
  bucket_seconds (after distant_records) = 10 /\
  starts (timeline (after distant_records)) = [epoch_2024; epoch_2024 + 100] /\
  ~ contiguous (bucket_seconds (after distant_records))
      (timeline (after distant_records)) /\
  Forall ingest_or_backfill unordered_records /\
  @exec sample_runtime unordered_records fresh = Done (after unordered_records) /\
  starts (timeline (after unordered_records)) = [epoch_2024 + 100; epoch_2024].
Proof.
  split; [repeat constructor|].
  split; [vm_compute; reflexivity|].
  split; [vm_compute; reflexivity|].
  split; [vm_compute; reflexivity|].
  split.
  - intros Hc. specialize (Hc 0%nat epoch_2024 (epoch_2024 + 100)).
    assert (H : epoch_2024 + 100
                = epoch_2024 + bucket_seconds (after distant_records))
      by (apply Hc; vm_compute; reflexivity).
    vm_compute in H. discriminate H.
  - split; [repeat constructor|].
    split; vm_compute; reflexivity.
Qed.

Lemma C1_witness :
  @reachable sample_runtime (after two_records) /\
  NoDup (starts (timeline (after two_records))) /\
  (exists m',
     ensure_buckets_to (inject_Z (epoch_2024 + 35)) (after two_records) = Done m' /\
     contiguous 10 (timeline m') /\
     starts (timeline m')
     = [epoch_2024; epoch_2024 + 10; epoch_2024 + 20; epoch_2024 + 30]) /\
  (exists m',
     @update_line sample_runtime (inject_Z (epoch_2024 + 8)) line_fail_5
       (after two_records) = Done m' /\
     contiguous (bucket_seconds m') (timeline m')).
Proof.
  split; [apply after_reachable|].
  destruct (@C1_no_duplicates_backfill_keeps_contiguity sample_runtime
              (after two_records) (after_reachable two_records))
    as (Hnd & Hfill & Hline).
  split; [exact Hnd|].
  assert (Hshort : contiguous (bucket_seconds (after two_records))
                     (timeline (after two_records))).
  { apply contiguous_short. vm_compute. lia. }
  split.
  - destruct (Hfill (inject_Z (epoch_2024 + 35)) Hshort) as (m' & He & Hbs & Hc & _).
    assert (Hw : bucket_seconds (after two_records) = 10)
      by (vm_compute; reflexivity).
    exists m'. split; [exact He|]. split.
    + rewrite Hbs, Hw in Hc. exact Hc.
    + assert (Hd : ensure_buckets_to (inject_Z (epoch_2024 + 35)) (after two_records)
                   = Done (after (two_records
                                  ++ [OpBackfill (inject_Z (epoch_2024 + 35))])))
        by (vm_compute; reflexivity).
      assert (Hm : m' = after (two_records
                               ++ [OpBackfill (inject_Z (epoch_2024 + 35))]))
        by congruence.
      rewrite Hm. vm_compute. reflexivity.
  - assert (Hd : @update_line sample_runtime (inject_Z (epoch_2024 + 8)) line_fail_5
                   (after two_records)
                 = Done (after (two_records
                                ++ [OpIngest (inject_Z (epoch_2024 + 8))
                                      [(sample_path, line_fail_5)]])))
      by (vm_compute; reflexivity).
    eexists. split; [exact Hd|].
    apply (Hline (inject_Z (epoch_2024 + 8)) line_fail_5);
      [left; exact Hd | exact Hshort |].
    intros kvs b Hl Hb. left.
    assert (Hs : starts (timeline (after two_records)) = [epoch_2024])
      by (vm_compute; reflexivity).
    assert (Hk : exists kvs0,
               @json_loads sample_runtime line_fail_5 = Some (JDict kvs0) /\
               _bucket_start (after two_records)
                 (@parse_ts sample_runtime (inject_Z (epoch_2024 + 8))
                    (py_or (dict_get kvs0 "ts") (JStr EmptyString)))
               = Some epoch_2024).
    { eexists. split; vm_compute; reflexivity. }
    destruct Hk as (kvs0 & Hl0 & Hb0).
    assert (kvs = kvs0) by congruence. subst kvs0.
    assert (b = epoch_2024) by congruence. subst b.
    rewrite Hs. left.
Defined.

Lemma C2_witness :
  @reachable sample_runtime (after idle_session) /\
  Z.of_nat (length (timeline (after idle_session))) <= 72 /\
  dom (bucket_map (after idle_session))
  = (list_to_set (starts (timeline (after idle_session))) : gset Z).
Proof.
  split; [apply after_reachable|].
  destruct (@C2_bounded_timeline_consistent_index sample_runtime
              (after idle_session) (after_reachable idle_session))
    as (Hlen & Hdom & _).
  split; [exact Hlen | exact Hdom].
Defined.

(** C3 fails as stated: after twelve idle minutes the timeline holds the
    72 buckets from [epoch_2024] to [epoch_2024 + 710]; thirty seconds
    later the bucket of [now] is three widths past the last start, and the
    call appends the three empty buckets but also drops the three oldest
    ones.  And when the last start is not the largest one (the records
    arrived out of order: the starts are [epoch_2024 + 100], [epoch_2024]),
    the bucket of [now = epoch_2024 + 100] is ten widths past the last
    start, but only the nine buckets before it are appended, its own start
    being in the index already. *)
Lemma C3_counterexample :
  (@exec sample_runtime idle_session fresh = Done (after idle_session) /\
   last (starts (timeline (after idle_session))) = Some (epoch_2024 + 710) /\
   _bucket_start (after idle_session) (inject_Z (epoch_2024 + 740))
   = Some (epoch_2024 + 710 + 3 * 10) /\
   exists m',
     ensure_buckets_to (inject_Z (epoch_2024 + 740)) (after idle_session) = Done m' /\
     timeline m'
     <> timeline (after idle_session) ++ empty_buckets (epoch_2024 + 710) 10 3 /\
     timeline m'
     = drop 3 (timeline (after idle_session)
               ++ empty_buckets (epoch_2024 + 710) 10 3)) /\
  (@exec sample_runtime unordered_records fresh = Done (after unordered_records) /\
   last (starts (timeline (after unordered_records))) = Some epoch_2024 /\
   _bucket_start (after unordered_records) (inject_Z (epoch_2024 + 100))
   = Some (epoch_2024 + 10 * 10) /\
   exists m',
     ensure_buckets_to (inject_Z (epoch_2024 + 100)) (after unordered_records)
     = Done m' /\
     timeline m'
     <> timeline (after unordered_records) ++ empty_buckets epoch_2024 10 10 /\
     timeline m'
     = timeline (after unordered_records) ++ empty_buckets epoch_2024 10 9).
Proof.
  split.
  - split; [vm_compute; reflexivity|].
    split; [vm_compute; reflexivity|].
    split; [vm_compute; reflexivity|].
    eexists. split; [vm_compute; reflexivity|].
    split; [|vm_compute; reflexivity].
    intros H. apply (f_equal length) in H. vm_compute in H. discriminate H.
  - split; [vm_compute; reflexivity|].
    split; [vm_compute; reflexivity|].
    split; [vm_compute; reflexivity|].
    eexists. split; [vm_compute; reflexivity|].
    split; [|vm_compute; reflexivity].
    intros H. apply (f_equal length) in H. vm_compute in H. discriminate H.
Qed.

Lemma C3_witness :
  inv (after two_records) /\
  last_is_max epoch_2024 (after two_records) /\
  _bucket_start (after two_records) (inject_Z (epoch_2024 + 35))
  = Some (epoch_2024 + 3 * 10) /\
  exists m',
    ensure_buckets_to (inject_Z (epoch_2024 + 35)) (after two_records) = Done m' /\
    timeline m'
    = [(epoch_2024, 1%nat, 1%nat); (epoch_2024 + 10, 0%nat, 0%nat);
       (epoch_2024 + 20, 0%nat, 0%nat); (epoch_2024 + 30, 0%nat, 0%nat)].
Proof.
  assert (Hinv : inv (after two_records)).
  { apply (@reachable_inv sample_runtime), after_reachable. }
  assert (Hlast : last_is_max epoch_2024 (after two_records)).
  { split; [vm_compute; reflexivity|]. intros x Hx. vm_compute in Hx.
    apply list_elem_of_singleton in Hx. subst x. vm_compute. discriminate. }
  assert (Hb : _bucket_start (after two_records) (inject_Z (epoch_2024 + 35))
               = Some (epoch_2024 + Z.of_nat 3 * bucket_seconds (after two_records)))
    by (vm_compute; reflexivity).
  split; [exact Hinv|]. split; [exact Hlast|]. split; [vm_compute; reflexivity|].
  destruct (C3_backfill_appends_empty_buckets
              (after two_records) (inject_Z (epoch_2024 + 35)) Hinv) as [Hfill _].
  destruct (Hfill epoch_2024 3%nat Hlast Hb) as (m' & He & _ & Hroom & _).
  exists m'. split; [exact He|]. rewrite Hroom; [vm_compute; reflexivity|].
  vm_compute. discriminate.
Defined.

(** The scenario of the specification: a success at 00:00:00 and a failure
    at 00:00:05 of instance [a] and [b] in region [r1], with buckets of 10
    seconds, give the one bucket [(epoch, 1, 1)], the totals 1 and 1, and
    [(1, 1)] for [r1]. *)
Example two_records_scenario :
  @exec sample_runtime two_records fresh = Done (after two_records) /\
  timeline (after two_records) = [(epoch_2024, 1%nat, 1%nat)] /\
  success (after two_records) = 1%nat /\ fail (after two_records) = 1%nat /\
  counts_of (per_region (after two_records)) "r1" = (1%nat, 1%nat) /\
  counts_of (per_instance (after two_records)) "a" = (1%nat, 0%nat) /\
  counts_of (per_instance (after two_records)) "b" = (0%nat, 1%nat).
Proof. repeat split; vm_compute; reflexivity. Qed.

(** ** Counters *)

Lemma counters_le_refl m : counters_le m m.
Proof. unfold counters_le. repeat split; lia. Qed.

Lemma counters_le_trans m1 m2 m3 :
  counters_le m1 m2 -> counters_le m2 m3 -> counters_le m1 m3.
Proof.
  intros (Hs & Hf & Hi & Hr) (Hs' & Hf' & Hi' & Hr').
  unfold counters_le. split; [lia|]. split; [lia|]. split; intros k.
  - specialize (Hi k). specialize (Hi' k). lia.
  - specialize (Hr k). specialize (Hr' k). lia.
Qed.

Lemma same_outside_counters_le m m' :
  same_outside_timeline m m' -> counters_le m m'.
Proof.
  intros (_ & Hs & Hf & Hr & Hi & _). unfold counters_le.
  rewrite Hs, Hf, Hr, Hi. repeat split; lia.
Qed.

Lemma counts_of_bump_eq ok key per :
  counts_of (bump_category ok key per) key = bump ok (counts_of per key).
Proof. unfold counts_of, bump_category. rewrite lookup_insert_eq. reflexivity. Qed.

Lemma counts_of_bump_ne ok key k per :
  key <> k -> counts_of (bump_category ok key per) k = counts_of per k.
Proof.
  intros Hne. unfold counts_of, bump_category.
  rewrite lookup_insert_ne by exact Hne. reflexivity.
Qed.

Lemma bump_category_le ok key per k :
  (fst (counts_of per k) <= fst (counts_of (bump_category ok key per) k))%nat /\
  (snd (counts_of per k) <= snd (counts_of (bump_category ok key per) k))%nat.
Proof.
  destruct (decide (key = k)) as [->|Hne].
  - rewrite counts_of_bump_eq. unfold bump. destruct ok; simpl; lia.
  - rewrite counts_of_bump_ne by exact Hne. lia.
Qed.

Lemma ensure_buckets_to_same now m m' :
  ends_in (ensure_buckets_to now m) m' -> same_outside_timeline m m'.
Proof.
  unfold ensure_buckets_to. intros Hend.
  destruct (last (timeline m)), (_bucket_start m now);
    try (destruct Hend as [Hd | [e Hr]]; [discriminate | injection Hr as _ <-];
         apply same_outside_timeline_refl).
  - destruct (fill_to _ _ _ m) as [m1|] eqn:Hf.
    + destruct Hend as [Hd | [e Hr]]; [|discriminate]. injection Hd as <-.
      eapply fill_to_same. exact Hf.
    + destruct Hend as [Hd | [e Hr]]; discriminate.
  - destruct Hend as [Hd | [e Hr]]; [|discriminate]. injection Hd as <-.
    apply ensure_bucket_same.
Qed.

Section Counting.

Context `{RT : Runtime}.

Lemma count_record_le kvs m : counters_le m (count_record kvs m).
Proof.
  unfold counters_le, count_record. simpl.
  split; [lia|]. split; [lia|]. split; intros k; apply bump_category_le.
Qed.

Lemma update_line_le now line m m' :
  ends_in (update_line now line m) m' -> counters_le m m'.
Proof.
  unfold update_line. intros Hend.
  destruct (json_loads line) as [obj|].
  - destruct obj;
      try (destruct Hend as [Hd | [e Hr]]; [discriminate | injection Hr as _ <-];
           apply counters_le_refl).
    destruct (_bucket_start _ _) as [b|].
    + destruct (bucket_map _ !! b) as [c|].
      * destruct Hend as [Hd | [e Hr]]; [|discriminate]. injection Hd as <-.
        eapply counters_le_trans; [apply count_record_le|].
        apply same_outside_counters_le.
        eapply same_outside_timeline_trans; [apply ensure_bucket_same|].
        unfold same_outside_timeline. simpl. tauto.
      * destruct Hend as [Hd | [e Hr]]; [discriminate|]. injection Hr as _ <-.
        eapply counters_le_trans; [apply count_record_le|].
        apply same_outside_counters_le, ensure_bucket_same.
    + destruct Hend as [Hd | [e Hr]]; [discriminate|]. injection Hr as _ <-.
      apply count_record_le.
  - destruct Hend as [Hd | [e Hr]]; [|discriminate]. injection Hd as <-.
    apply counters_le_refl.
Qed.

Lemma ingest_le now lines m m' :
  ends_in (ingest now lines m) m' -> counters_le m m'.
Proof.
  revert m. induction lines as [|[path line] rest IH]; intros m Hend.
  - destruct Hend as [Hd | [e Hr]]; [|discriminate]. simpl in Hd.
    injection Hd as <-. apply counters_le_refl.
  - simpl in Hend. destruct (update_line now line m) as [m1|e1 m1|] eqn:Hu.
    + eapply counters_le_trans; [|apply IH; exact Hend].
      apply (update_line_le now line). left. exact Hu.
    + destruct Hend as [Hd | [e Hr]]; [discriminate|]. injection Hr as <- <-.
      apply (update_line_le now line). right. eexists. exact Hu.
    + destruct Hend as [Hd | [e Hr]]; discriminate.
Qed.

Lemma run_op_le o m m' : ends_in (run_op o m) m' -> counters_le m m'.
Proof.
  destruct o as [now lines|fs now|now|sec]; simpl; intros Hend.
  - eapply ingest_le. exact Hend.
  - unfold update in Hend. destruct (read_new_lines fs (tail m)) as [t lines].
    apply ingest_le in Hend. exact Hend.
  - apply same_outside_counters_le. eapply ensure_buckets_to_same. exact Hend.
  - destruct Hend as [Hd | [e Hr]]; [|discriminate]. injection Hd as <-.
    unfold counters_le. simpl. repeat split; lia.
Qed.

Lemma exec_le ops m m' : ends_in (exec ops m) m' -> counters_le m m'.
Proof.
  revert m. induction ops as [|o rest IH]; intros m Hend.
  - destruct Hend as [Hd | [e Hr]]; [|discriminate]. simpl in Hd.
    injection Hd as <-. apply counters_le_refl.
  - simpl in Hend. destruct (run_op o m) as [m1|e1 m1|] eqn:Hr1.
    + eapply counters_le_trans; [|apply IH; exact Hend].
      apply (run_op_le o). left. exact Hr1.
    + destruct Hend as [Hd | [e Hr]]; [discriminate|]. injection Hr as <- <-.
      apply (run_op_le o). right. eexists. exact Hr1.
    + destruct Hend as [Hd | [e Hr]]; discriminate.
Qed.

(** C4, as the code has it: a line that [json.loads] rejects is skipped.
    Ingesting it returns without raising, and the state afterwards is
    the state before, its totals, per-category counters, timeline and
    index included; in a batch the lines behind it are processed as if
    it were not there. *)
Theorem C4_malformed_line_ignored (line : string) :
  json_loads line = None ->
  forall now path rest m,
    ingest now [(path, line)] m = Done m /\
    ingest now ((path, line) :: rest) m = ingest now rest m.
Proof.
  intros Hl now path rest m. simpl. unfold update_line. rewrite Hl.
  split; reflexivity.
Qed.

(** A line that is valid JSON but not an object is not skipped: [obj.get]
    raises, outside the [try], before anything is counted. *)
Lemma update_line_not_object now line v m :
  json_loads line = Some v -> (forall kvs, v <> JDict kvs) ->
  update_line now line m = Raised AttributeError m.
Proof.
  intros Hl Hv. unfold update_line. rewrite Hl.
  destruct v; try reflexivity. exfalso. apply (Hv kvs). reflexivity.
Qed.

(** C6: along any run of polls, ingests, backfills and bucket-width
    changes, whether it returns or raises, total success plus total fail
    does not decrease, and neither does any single counter, total or
    per category. *)
Theorem C6_counters_never_decrease (ops : list op) (m m' : MetricsAgg) :
  ends_in (exec ops m) m' ->
  (success m + fail m <= success m' + fail m')%nat /\ counters_le m m'.
Proof.
  intros Hend. apply exec_le in Hend. split; [|exact Hend].
  destruct Hend as (Hs & Hf & _). lia.
Qed.

Lemma dict_get_absent kvs key :
  (forall v, (key, v) ∉ kvs) -> dict_get kvs key = JNull.
Proof.
  induction kvs as [|[k v] rest IH]; intros Habs; [reflexivity|]. simpl.
  destruct (String.eqb k key) eqn:E.
  - apply String.eqb_eq in E. subst k. exfalso. apply (Habs v). left.
  - apply IH. intros v' Hin. apply (Habs v'). right. exact Hin.
Qed.

(** C10: a line that decodes to a JSON object whose [success] field is
    absent, [null] or [false] is counted as a failure: on a state of a
    session the ingest returns, total fail is one more, total success is
    the same, and the fail counts of the record's instance and of its
    region are one more, their success counts the same. *)
Theorem C10_missing_success_counts_as_failure
    (now : Q) (path line : string) (kvs : list (string * json)) (m : MetricsAgg) :
  json_loads line = Some (JDict kvs) ->
  (forall v, ("success"%string, v) ∉ kvs) \/
  dict_get kvs "success" = JNull \/ dict_get kvs "success" = JBool false ->
  inv m ->
  exists m',
    ingest now [(path, line)] m = Done m' /\
    fail m' = S (fail m) /\ success m' = success m /\
    counts_of (per_instance m') (category kvs "instance_id")
    = (fst (counts_of (per_instance m) (category kvs "instance_id")),
       S (snd (counts_of (per_instance m) (category kvs "instance_id")))) /\
    counts_of (per_region m') (category kvs "batch_region")
    = (fst (counts_of (per_region m) (category kvs "batch_region")),
       S (snd (counts_of (per_region m) (category kvs "batch_region")))).
Proof.
  intros Hl Hs Hinv.
  assert (Hok : truthy (dict_get kvs "success") = false).
  { destruct Hs as [Habs | [Hn | Hf]].
    - rewrite (dict_get_absent kvs _ Habs). reflexivity.
    - rewrite Hn. reflexivity.
    - rewrite Hf. reflexivity. }
  destruct (update_line_record now line kvs m Hl Hinv) as (b & c & _ & _ & Hu).
  cbv zeta in Hu. simpl ingest. rewrite Hu. eexists. split; [reflexivity|].
  destruct (ensure_bucket_frame b (count_record kvs m))
    as (_ & Hsu & Hfa & Hre & Hin & _).
  simpl. rewrite Hsu, Hfa, Hre, Hin. unfold count_record. simpl.
  rewrite Hok, !counts_of_bump_eq. unfold bump. simpl.
  repeat split; lia.
Qed.

End Counting.

(** C5: [set_bucket_width(w)] empties the timeline and its index and
    leaves total success, total fail and both per-category maps as they
    were, for every state and every [w]. *)
Theorem C5_set_bucket_width_clears_timeline (w : Z) (m : MetricsAgg) :
  timeline (set_bucket_seconds w m) = [] /\
  bucket_map (set_bucket_seconds w m) = ∅ /\
  success (set_bucket_seconds w m) = success m /\
  fail (set_bucket_seconds w m) = fail m /\
  per_instance (set_bucket_seconds w m) = per_instance m /\
  per_region (set_bucket_seconds w m) = per_region m.
Proof. unfold set_bucket_seconds. simpl. repeat split. Qed.

Lemma C4_witness :
  @json_loads sample_runtime line_garbage = None /\
  forall now path rest m,
    @ingest sample_runtime now [(path, line_garbage)] m = Done m /\
    @ingest sample_runtime now ((path, line_garbage) :: rest) m
    = @ingest sample_runtime now rest m.
Proof.
  split; [vm_compute; reflexivity|].
  apply (@C4_malformed_line_ignored sample_runtime). vm_compute. reflexivity.
Defined.

(** C4 fails as stated.  The line [NaN] is not a JSON text, [json.loads]
    accepts it all the same, and the ingest raises [AttributeError] at
    [obj.get]; the record whose [success] is [NaN] is not a JSON text
    either, and it is counted, as a success.  The lines of the other
    samples are JSON texts, the garbage line is not. *)
Lemma C4_counterexample :
  valid_json line_nan = false /\
  @json_loads lenient_runtime line_nan = Some (JFloat FNaN) /\
  (forall now path m,
     @ingest lenient_runtime now [(path, line_nan)] m = Raised AttributeError m) /\
  valid_json line_success_nan = false /\
  (exists m',
     @ingest lenient_runtime (inject_Z (epoch_2024 + 7))
       [(sample_path, line_success_nan)] fresh = Done m' /\
     success m' = 1%nat /\ fail m' = 0%nat /\
     timeline m' = [(epoch_2024, 1%nat, 0%nat)]) /\
  valid_json line_ok_0 = true /\ valid_json line_no_success = true /\
  valid_json line_garbage = false.
Proof.
  split; [vm_compute; reflexivity|].
  split; [vm_compute; reflexivity|].
  split; [intros now path m; reflexivity|].
  split; [vm_compute; reflexivity|].
  split.
  - eexists. split; [vm_compute; reflexivity|]. repeat split.
  - repeat split; vm_compute; reflexivity.
Qed.

Lemma C6_witness :
  ends_in (@exec sample_runtime two_records fresh) (after two_records) /\
  (success fresh + fail fresh
   <= success (after two_records) + fail (after two_records))%nat /\
  counters_le fresh (after two_records).
Proof.
  assert (H : ends_in (@exec sample_runtime two_records fresh) (after two_records)).
  { left. vm_compute. reflexivity. }
  split; [exact H|].
  apply (@C6_counters_never_decrease sample_runtime two_records). exact H.
Defined.

Lemma C10_witness :
  exists m',
    @ingest sample_runtime (inject_Z (epoch_2024 + 7)) [(sample_path, line_no_success)] fresh
    = Done m' /\
    fail m' = 1%nat /\ success m' = 0%nat /\
    counts_of (per_instance m') "b" = (0%nat, 1%nat) /\
    counts_of (per_region m') "r2" = (0%nat, 1%nat).
Proof.
  destruct (@C10_missing_success_counts_as_failure sample_runtime
              (inject_Z (epoch_2024 + 7)) sample_path line_no_success
              [("ts"%string, JStr "2024-01-01T00:00:05");
               ("instance_id"%string, JStr "b"); ("batch_region"%string, JStr "r2")]
              fresh) as (m' & Hi & Hf & Hs & Hin & Hre).
  - vm_compute. reflexivity.
  - left. intros v Hin. repeat (apply elem_of_cons in Hin as [Hin | Hin]; [discriminate Hin|]).
    apply elem_of_nil in Hin. exact Hin.
  - apply init_inv.
  - exists m'. split; [exact Hi|]. split; [exact Hf|]. split; [exact Hs|].
    split; [exact Hin | exact Hre].
Defined.

(** ** The tailer *)

Section Tailing.

Context `{RT : Runtime}.

Lemma lines_of_app path l1 l2 :
  lines_of path (l1 ++ l2) = lines_of path l1 ++ lines_of path l2.
Proof. unfold lines_of. apply filter_app. Qed.

Lemma lines_of_same path (ls : list string) :
  lines_of path (map (pair path) ls) = map (pair path) ls.
Proof.
  unfold lines_of. induction ls as [|l ls IH]; [reflexivity|]. simpl.
  rewrite filter_cons_True by reflexivity. rewrite IH. reflexivity.
Qed.

Lemma lines_of_other path q (ls : list string) :
  q <> path -> lines_of path (map (pair q) ls) = [].
Proof.
  intros Hne. unfold lines_of. induction ls as [|l ls IH]; [reflexivity|]. simpl.
  rewrite filter_cons_False by (simpl; exact Hne). exact IH.
Qed.

(** Tailing another file changes neither the offset of [path] nor the
    lines that come from [path]. *)
Lemma tail_file_other fs q path posn lines :
  q <> path ->
  fst (tail_file fs q (posn, lines)) !! path = posn !! path /\
  lines_of path (snd (tail_file fs q (posn, lines))) = lines_of path lines.
Proof.
  intros Hne. unfold tail_file.
  destruct (getsize fs q) as [size| |]; simpl.
  - destruct (_ <? size)%nat.
    + destruct (read_from fs q _) as [chunk| |]; simpl.
      * rewrite lookup_insert_ne by exact Hne.
        rewrite lines_of_app, lines_of_other by exact Hne.
        rewrite app_nil_r. split; reflexivity.
      * rewrite lookup_delete_ne by exact Hne. split; reflexivity.
      * split; reflexivity.
    + simpl. rewrite lookup_insert_ne by exact Hne. split; reflexivity.
  - rewrite lookup_delete_ne by exact Hne. split; reflexivity.
  - split; reflexivity.
Qed.

Lemma tail_files_other fs files path acc :
  path ∉ files ->
  fst (tail_files fs files acc) !! path = fst acc !! path /\
  lines_of path (snd (tail_files fs files acc)) = lines_of path (snd acc).
Proof.
  revert acc. induction files as [|q rest IH]; intros [posn lines] Hnot.
  - split; reflexivity.
  - apply not_elem_of_cons in Hnot as [Hne Hnot]. simpl.
    destruct (IH (tail_file fs q (posn, lines)) Hnot) as [Hp Hl].
    destruct (tail_file_other fs q path posn lines) as [Hp' Hl'];
      [congruence|].
    unfold tail_files in *. simpl in *.
    split; [rewrite Hp; exact Hp' | rewrite Hl; exact Hl'].
Qed.

(** The round of the loop for a file whose recorded offset is past its
    size: it reads from byte 0. *)
Lemma tail_file_rotated fs path posn lines pos size :
  posn !! path = Some pos -> getsize fs path = Got size -> (size < pos)%nat ->
  tail_file fs path (posn, lines)
  = if (0 <? size)%nat then
      match read_from fs path 0 with
      | Got chunk =>
          (<[path := length chunk]> posn,
           lines ++ map (pair path) (splitlines (decode_utf8 chunk)))
      | NotFound => (delete path posn, lines)
      | OtherError => (posn, lines)
      end
    else (<[path := 0%nat]> posn, lines).
Proof.
  intros Hp Hs Hlt. unfold tail_file. rewrite Hs, Hp. simpl.
  apply Nat.ltb_lt in Hlt. rewrite Hlt.
  destruct (0 <? size)%nat eqn:E; [reflexivity|].
  apply Nat.ltb_ge in E. replace size with 0%nat by lia. reflexivity.
Qed.

Lemma sorted_glob_elem fs pat path :
  path ∈ merge_sort path_le (glob fs pat) <-> path ∈ glob fs pat.
Proof. rewrite merge_sort_Permutation. reflexivity. Qed.

Lemma sorted_glob_NoDup fs pat :
  NoDup (glob fs pat) -> NoDup (merge_sort path_le (glob fs pat)).
Proof. rewrite merge_sort_Permutation. tauto. Qed.

Lemma agree_off_insert path x p1 p2 :
  agree_off path p1 p2 -> <[path := x]> p1 = <[path := x]> p2.
Proof.
  intros Ha. apply map_eq. intros k. destruct (decide (path = k)) as [<-|Hne].
  - rewrite !lookup_insert_eq. reflexivity.
  - rewrite !lookup_insert_ne by exact Hne. apply Ha. congruence.
Qed.

Lemma agree_off_delete path p1 p2 :
  agree_off path p1 p2 -> delete path p1 = delete path p2.
Proof.
  intros Ha. apply map_eq. intros k. destruct (decide (path = k)) as [<-|Hne].
  - rewrite !lookup_delete_eq. reflexivity.
  - rewrite !lookup_delete_ne by exact Hne. apply Ha. congruence.
Qed.

(** Tailing another file goes the same way from two offset tables that
    differ at [path] only. *)
Lemma tail_file_agree fs q path p1 p2 lines :
  q <> path -> agree_off path p1 p2 ->
  snd (tail_file fs q (p1, lines)) = snd (tail_file fs q (p2, lines)) /\
  agree_off path (fst (tail_file fs q (p1, lines)))
                 (fst (tail_file fs q (p2, lines))).
Proof.
  intros Hne Ha. unfold tail_file. rewrite (Ha q Hne).
  assert (Hins : forall x, agree_off path (<[q := x]> p1) (<[q := x]> p2)).
  { intros x k Hk. destruct (decide (q = k)) as [<-|Hqk].
    - rewrite !lookup_insert_eq. reflexivity.
    - rewrite !lookup_insert_ne by exact Hqk. apply Ha, Hk. }
  assert (Hdel : agree_off path (delete q p1) (delete q p2)).
  { intros k Hk. destruct (decide (q = k)) as [<-|Hqk].
    - rewrite !lookup_delete_eq. reflexivity.
    - rewrite !lookup_delete_ne by exact Hqk. apply Ha, Hk. }
  destruct (getsize fs q) as [size| |]; simpl.
  - destruct (_ <? size)%nat.
    + destruct (read_from fs q _) as [chunk| |]; simpl.
      * split; [reflexivity | apply Hins].
      * split; [reflexivity | exact Hdel].
      * split; [reflexivity | exact Ha].
    + simpl. split; [reflexivity | apply Hins].
  - split; [reflexivity | exact Hdel].
  - split; [reflexivity | exact Ha].
Qed.

Lemma tail_files_agree fs files path p1 p2 lines :
  path ∉ files -> agree_off path p1 p2 ->
  snd (tail_files fs files (p1, lines)) = snd (tail_files fs files (p2, lines)) /\
  agree_off path (fst (tail_files fs files (p1, lines)))
                 (fst (tail_files fs files (p2, lines))).
Proof.
  revert p1 p2 lines. induction files as [|q rest IH]; intros p1 p2 lines Hnot Ha.
  - split; [reflexivity | exact Ha].
  - apply not_elem_of_cons in Hnot as [Hne Hnot].
    change (tail_files fs (q :: rest) (p1, lines))
      with (tail_files fs rest (tail_file fs q (p1, lines))).
    change (tail_files fs (q :: rest) (p2, lines))
      with (tail_files fs rest (tail_file fs q (p2, lines))).
    destruct (tail_file_agree fs q path p1 p2 lines) as [Hl Ha'];
      [congruence | exact Ha |].
    destruct (tail_file fs q (p1, lines)) as [p1' l1].
    destruct (tail_file fs q (p2, lines)) as [p2' l2].
    simpl in Hl, Ha'. subst l2. apply IH; assumption.
Qed.

Lemma tail_files_app fs l1 p l2 acc :
  tail_files fs (l1 ++ p :: l2) acc
  = tail_files fs l2 (tail_file fs p (tail_files fs l1 acc)).
Proof. unfold tail_files. rewrite fold_left_app. reflexivity. Qed.

(** C7: when the offset recorded for a tailed file is past the file's
    current size, the poll treats the offset as 0.  It reads the file
    from byte 0: the lines it returns for that file are the lines of all
    the file holds, and the offset it records is the number of bytes of
    that content.  For a file cut to nothing it records 0 and returns no
    line of that file.  Unless the read fails, the whole poll is the poll
    of the tailer that has 0 recorded for the file. *)
Theorem C7_rotation_rereads_from_start
    (fs : FileSystem) (t : FileTail) (path : string) (pos size : nat) :
  path ∈ glob fs (pattern t) ->
  NoDup (glob fs (pattern t)) ->
  positions t !! path = Some pos ->
  getsize fs path = Got size ->
  (size < pos)%nat ->
  let t' := fst (read_new_lines fs t) in
  let lines := snd (read_new_lines fs t) in
  (forall chunk,
     (0 < size)%nat -> read_from fs path 0 = Got chunk ->
     positions t' !! path = Some (0 + length chunk)%nat /\
     lines_of path lines = map (pair path) (splitlines (decode_utf8 chunk))) /\
  (size = 0%nat ->
   positions t' !! path = Some 0%nat /\ lines_of path lines = []) /\
  (size = 0%nat \/ read_from fs path 0 <> OtherError ->
   read_new_lines fs t = read_new_lines fs (with_position path 0 t)).
Proof.
  intros Hin Hnd Hp Hs Hlt.
  unfold read_new_lines.
  apply (sorted_glob_elem fs) in Hin. apply (sorted_glob_NoDup fs) in Hnd.
  change (pattern (with_position path 0 t)) with (pattern t).
  destruct (list_elem_of_split _ _ Hin) as (l1 & l2 & Hsplit).
  rewrite Hsplit in Hnd |- *.
  apply NoDup_app in Hnd as (_ & Hl1 & Hnd2).
  apply NoDup_cons in Hnd2 as [Hl2 _].
  assert (Hn1 : path ∉ l1) by (intros H1; apply (Hl1 path H1); left).
  rewrite !tail_files_app.
  destruct (tail_files_other fs l1 path (positions t, []) Hn1) as [Hp1 Hlines1].
  destruct (tail_files_other fs l1 path
              (positions (with_position path 0 t), []) Hn1) as [Hq1 _].
  destruct (tail_files_agree fs l1 path (positions t)
              (positions (with_position path 0 t)) [] Hn1) as [Hsame Hagree].
  { intros k Hk. simpl. rewrite lookup_insert_ne by congruence. reflexivity. }
  destruct (tail_files fs l1 (positions t, [])) as [posn1 lines1].
  destruct (tail_files fs l1 (positions (with_position path 0 t), []))
    as [posn0 lines0].
  simpl in Hp1, Hlines1, Hq1, Hsame, Hagree. subst lines0.
  rewrite Hp in Hp1. rewrite lookup_insert_eq in Hq1.
  rewrite (tail_file_rotated fs path posn1 lines1 pos size Hp1 Hs Hlt).
  assert (Hzero : tail_file fs path (posn0, lines1)
                  = if (0 <? size)%nat then
                      match read_from fs path 0 with
                      | Got chunk =>
                          (<[path := length chunk]> posn0,
                           lines1 ++ map (pair path) (splitlines (decode_utf8 chunk)))
                      | NotFound => (delete path posn0, lines1)
                      | OtherError => (posn0, lines1)
                      end
                    else (<[path := 0%nat]> posn0, lines1)).
  { unfold tail_file. rewrite Hs, Hq1. simpl.
    destruct (0 <? size)%nat eqn:E; [reflexivity|].
    apply Nat.ltb_ge in E. replace size with 0%nat by lia. reflexivity. }
  rewrite Hzero. clear Hzero.
  split; [|split].
  - intros chunk Hpos Hread. apply Nat.ltb_lt in Hpos. rewrite Hpos, Hread.
    destruct (tail_files_other fs l2 path
                (<[path := length chunk]> posn1,
                 lines1 ++ map (pair path) (splitlines (decode_utf8 chunk))) Hl2)
      as [Hp2 Hlines2].
    destruct (tail_files fs l2 _) as [posn2 lines2].
    simpl in *. rewrite Hp2, Hlines2, lookup_insert_eq.
    rewrite lines_of_app, Hlines1, lines_of_same. split; reflexivity.
  - intros ->. simpl.
    destruct (tail_files_other fs l2 path (<[path := 0%nat]> posn1, lines1) Hl2)
      as [Hp2 Hlines2].
    destruct (tail_files fs l2 _) as [posn2 lines2].
    simpl in *. rewrite Hp2, Hlines2, lookup_insert_eq, Hlines1.
    split; reflexivity.
  - intros Hok. destruct (0 <? size)%nat eqn:E.
    + destruct Hok as [-> | Hread]; [discriminate E|].
      destruct (read_from fs path 0) as [chunk| |]; [| |contradiction].
      * rewrite (agree_off_insert path _ posn1 posn0 Hagree). reflexivity.
      * rewrite (agree_off_delete path posn1 posn0 Hagree). reflexivity.
    + rewrite (agree_off_insert path _ posn1 posn0 Hagree). reflexivity.
Qed.

End Tailing.

Section Idle.

Context `{RT : Runtime}.

(** The round of the loop for a file whose size is its recorded offset. *)
Lemma tail_file_idle fs path (posn : gmap string nat) lines :
  getsize fs path = Got (default 0%nat (posn !! path)) ->
  tail_file fs path (posn, lines)
  = (<[path := default 0%nat (posn !! path)]> posn, lines).
Proof.
  intros Hs. unfold tail_file. rewrite Hs. simpl.
  rewrite !Nat.ltb_irrefl. reflexivity.
Qed.

Lemma tail_files_idle fs files (posn0 : gmap string nat) :
  (forall p, p ∈ files -> getsize fs p = Got (default 0%nat (posn0 !! p))) ->
  forall (posn : gmap string nat) lines,
    (forall q, default 0%nat (posn !! q) = default 0%nat (posn0 !! q)) ->
    snd (tail_files fs files (posn, lines)) = lines /\
    forall q, default 0%nat (fst (tail_files fs files (posn, lines)) !! q)
              = default 0%nat (posn0 !! q).
Proof.
  induction files as [|p rest IH]; intros Hsz posn lines Hrec.
  - split; [reflexivity | exact Hrec].
  - change (tail_files fs (p :: rest) (posn, lines))
      with (tail_files fs rest (tail_file fs p (posn, lines))).
    rewrite tail_file_idle.
    + apply IH.
      * intros q Hq. apply Hsz. right. exact Hq.
      * intros q. destruct (decide (p = q)) as [<-|Hne].
        -- rewrite lookup_insert_eq. simpl. apply Hrec.
        -- rewrite lookup_insert_ne by exact Hne. apply Hrec.
    + rewrite Hrec. apply Hsz. left.
Qed.

(** C8: when the size of every file that matches the pattern is the
    offset recorded for it, the poll returns no line and records the same
    offsets, and [update] on that poll returns with every counter, the
    timeline and its index as they were. *)
Theorem C8_idle_poll_is_empty (fs : FileSystem) (t : FileTail) :
  (forall path, path ∈ glob fs (pattern t) ->
     getsize fs path = Got (recorded t path)) ->
  snd (read_new_lines fs t) = [] /\
  (forall path, recorded (fst (read_new_lines fs t)) path = recorded t path) /\
  forall now m,
    tail m = t ->
    exists m',
      update fs now m = Done m' /\
      success m' = success m /\ fail m' = fail m /\
      per_instance m' = per_instance m /\ per_region m' = per_region m /\
      timeline m' = timeline m /\ bucket_map m' = bucket_map m.
Proof.
  intros Hsz.
  destruct (tail_files_idle fs (merge_sort path_le (glob fs (pattern t)))
              (positions t)) with (posn := positions t) (lines := @nil (string * string))
    as [Hlines Hrec].
  { intros p Hp. apply Hsz. apply (sorted_glob_elem fs). exact Hp. }
  { reflexivity. }
  assert (Hsnd : snd (read_new_lines fs t) = []).
  { unfold read_new_lines. destruct (tail_files _ _ _) as [posn lines].
    exact Hlines. }
  split; [exact Hsnd|]. split.
  - intros path. unfold read_new_lines, recorded.
    destruct (tail_files _ _ _) as [posn lines]. simpl. apply Hrec.
  - intros now m Ht. unfold update. rewrite Ht.
    destruct (read_new_lines fs t) as [t' lines]. simpl in Hsnd. subst lines.
    eexists. split; [reflexivity|]. simpl. repeat split.
Qed.

End Idle.

Lemma C7_witness :
  let fs := one_file (line_garbage +:+ newline)%string in
  let t := with_position sample_path 500 (FileTail_init "metrics/*.jsonl") in
  positions (fst (@read_new_lines sample_runtime fs t)) !! sample_path = Some 11%nat /\
  lines_of sample_path (snd (@read_new_lines sample_runtime fs t))
  = [(sample_path, line_garbage)].
Proof.
  intros fs t.
  destruct (@C7_rotation_rereads_from_start sample_runtime fs t sample_path 500 11)
    as [Hread _].
  - vm_compute. left.
  - vm_compute. apply NoDup_singleton.
  - vm_compute. reflexivity.
  - vm_compute. reflexivity.
  - lia.
  - apply (Hread (list_byte_of_string (line_garbage +:+ newline)%string)).
    + lia.
    + vm_compute. reflexivity.
Defined.

Lemma C8_witness :
  let fs := one_file (line_garbage +:+ newline)%string in
  let t := with_position sample_path 11 (FileTail_init "metrics/*.jsonl") in
  snd (@read_new_lines sample_runtime fs t) = [] /\
  exists m',
    @update sample_runtime fs (inject_Z (epoch_2024 + 7)) (set_tail t fresh) = Done m' /\
    success m' = 0%nat /\ fail m' = 0%nat.
Proof.
  intros fs t.
  destruct (@C8_idle_poll_is_empty sample_runtime fs t) as (Hl & _ & Hu).
  - intros path Hp. apply list_elem_of_singleton in Hp. subst path.
    vm_compute. reflexivity.
  - split; [exact Hl|].
    destruct (Hu (inject_Z (epoch_2024 + 7)) (set_tail t fresh) eq_refl)
      as (m' & He & Hs & Hf & _).
    exists m'. split; [exact He|]. split; [exact Hs | exact Hf].
Defined.

(** ** The ASCII rows *)

Lemma chars_get (k : nat) : (k <= 9)%nat -> is_Some (String.get k chars).
Proof.
  intros Hk. do 10 (destruct k as [|k]; [eexists; reflexivity|]). lia.
Qed.

Lemma density_index_bound maxv v :
  (1 <= maxv)%nat -> (v <= maxv)%nat ->
  density_index maxv v = (9 * v / maxv)%nat /\ (9 * v / maxv <= 9)%nat.
Proof.
  intros Hm Hv. unfold density_index.
  destruct (maxv =? 0)%nat eqn:E; [apply Nat.eqb_eq in E; lia|].
  split; [reflexivity|]. apply Nat.Div0.div_le_upper_bound. nia.
Qed.

Lemma window_max_bound data e : e ∈ data -> (total_of e <= window_max data)%nat.
Proof.
  intros Hin. unfold window_max.
  assert (H : Forall (fun k => (k <= list_max (map total_of data))%nat)
                     (map total_of data)).
  { apply list_max_le. lia. }
  rewrite Forall_forall in H.
  specialize (H (total_of e) (list_elem_of_fmap_2 total_of _ _ Hin)). lia.
Qed.

Lemma s_char_shows maxv e :
  (1 <= maxv)%nat -> (total_of e <= maxv)%nat ->
  exists c_s, s_char maxv e = Some c_s /\ shows maxv e c_s (f_char e).
Proof.
  intros Hm Hv. destruct e as [[b s] f]. unfold total_of in Hv. simpl in Hv.
  destruct (density_index_bound maxv (s + f) Hm Hv) as [Hidx Hle].
  unfold s_char, f_char, shows. rewrite Hidx.
  destruct (chars_get _ Hle) as [c Hc].
  destruct (s =? 0)%nat eqn:Es, (f =? 0)%nat eqn:Ef; simpl;
    [apply Nat.eqb_eq in Es | apply Nat.eqb_eq in Es
     | apply Nat.eqb_neq in Es | apply Nat.eqb_neq in Es];
    [apply Nat.eqb_eq in Ef | apply Nat.eqb_neq in Ef
     | apply Nat.eqb_eq in Ef | apply Nat.eqb_neq in Ef].
  - exists c. split; [exact Hc|]. repeat split; try tauto; try lia.
  - exists c. split; [exact Hc|]. repeat split; try tauto; try lia.
  - exists "S"%char. split; [reflexivity|]. repeat split; try tauto; try lia.
  - exists c. split; [exact Hc|]. repeat split; try tauto; try lia.
Qed.

(** The loop over the window never raises, and its rows show every
    bucket as [shows] says. *)
Lemma timeline_rows_show maxv data :
  (1 <= maxv)%nat -> (forall e, e ∈ data -> (total_of e <= maxv)%nat) ->
  exists sl fl, timeline_rows maxv data = Some (sl, fl) /\
                rows_show maxv data sl fl.
Proof.
  intros Hm. induction data as [|e rest IH]; intros Hall.
  - exists [], []. split; [reflexivity|]. split; [reflexivity|].
    split; [reflexivity|]. intros i e c_s c_f Hi. rewrite lookup_nil in Hi.
    discriminate.
  - destruct IH as (sl & fl & Hrows & Hls & Hlf & Hshow).
    { intros e' He'. apply Hall. right. exact He'. }
    destruct (s_char_shows maxv e Hm) as (c & Hc & Hsh).
    { apply Hall. left. }
    exists (c :: sl), (f_char e :: fl). simpl. rewrite Hc, Hrows.
    split; [reflexivity|]. split; [simpl; lia|]. split; [simpl; lia|].
    intros [|i] e' c_s c_f He' Hs Hf; simpl in *.
    + injection He' as <-. injection Hs as <-. injection Hf as <-. exact Hsh.
    + eapply Hshow; eassumption.
Qed.

Lemma window_rows_show data :
  exists sl fl, timeline_rows (window_max data) data = Some (sl, fl) /\
                rows_show (window_max data) data sl fl.
Proof.
  apply timeline_rows_show.
  - unfold window_max. lia.
  - intros e. apply window_max_bound.
Qed.

(** C9, as the code has it.  Each bucket of the visible window gets one
    character in each of two rows.  In the density row a bucket with
    success > 0 and fail = 0 shows the marker [S] in place of its density
    glyph; every other bucket, an all-fail one included, shows the glyph
    of the 10-level ramp at index [9 * (success + fail) / maxv], [maxv]
    being the largest total in the window.  In the second row, produced
    when the height is at least 2, a bucket with fail > 0 and success = 0
    shows the marker [F] and every other bucket a space.  Both front ends
    render these rows, and neither raises. *)
Theorem C9_ascii_rows_and_markers (m : MetricsAgg) (width height : Z) :
  (timeline m <> [] ->
   let data := slice_from (- Z.max 1 (width - 2)) (timeline m) in
   exists sl fl,
     rows_show (window_max data) data sl fl /\
     render_timeline_ascii m width height
     = Some (if 2 <=? height
             then (ljust (string_of_list_ascii sl) (width - 1) +:+ newline +:+
                   ljust (string_of_list_ascii fl) (width - 1))%string
             else ljust (string_of_list_ascii sl) (width - 1))) /\
  (let data := slice_from (- (width - 2)) (timeline m) in
   exists sl fl,
     rows_show (window_max data) data sl fl /\
     _draw_timeline_ascii m height width
     = Some (if 2 <=? height
             then [_put (ljust (string_of_list_ascii sl) (width - 1)) width;
                   _put (ljust (string_of_list_ascii fl) (width - 1)) width]
             else [_put (ljust (string_of_list_ascii sl) (width - 1)) width])).
Proof.
  split.
  - intros Hne data.
    destruct (window_rows_show data) as (sl & fl & Hrows & Hshow).
    exists sl, fl. split; [exact Hshow|]. unfold render_timeline_ascii.
    destruct (timeline m) as [|e rest] eqn:Htl; [contradiction|].
    fold data. rewrite Hrows. destruct (2 <=? height); reflexivity.
  - intros data.
    destruct (window_rows_show data) as (sl & fl & Hrows & Hshow).
    exists sl, fl. split; [exact Hshow|]. unfold _draw_timeline_ascii.
    fold data. rewrite Hrows. destruct (2 <=? height); reflexivity.
Qed.

(** C9 fails as stated: the one bucket of a single failed record is all
    fail, and the density row still shows its density glyph [@], the top
    of the ramp; the [F] stands below it in the second row, and is not
    produced at all for a height of 1. *)
Lemma C9_counterexample :
  timeline (after one_failure) = [(epoch_2024, 0%nat, 1%nat)] /\
  String.get 9 chars = Some "@"%char /\
  render_timeline_ascii (after one_failure) 10 2
  = Some ("@        " +:+ newline +:+ "F        ")%string /\
  render_timeline_ascii (after one_failure) 10 1 = Some "@        "%string /\
  _draw_timeline_ascii (after one_failure) 2 10
  = Some ["@        "%string; "F        "%string] /\
  _draw_timeline_ascii (after one_failure) 1 10 = Some ["@        "%string].
Proof. repeat split; vm_compute; reflexivity. Qed.

Lemma C9_witness :
  exists sl fl,
    rows_show 1 [(epoch_2024, 0%nat, 1%nat)] sl fl /\
    render_timeline_ascii (after one_failure) 10 2
    = Some (ljust (string_of_list_ascii sl) 9 +:+ newline +:+
            ljust (string_of_list_ascii fl) 9)%string.
Proof.
  destruct (C9_ascii_rows_and_markers (after one_failure) 10 2) as [Hr _].
  apply Hr. vm_compute. discriminate.
Defined.

(** * Further properties of the code *)

(** ** The bucket of a timestamp *)

(** X1: [_bucket_start] in the range where the float arithmetic of the
    source is exact, a width from 1 to [2^53] and a timestamp [ts] with
    [0 <= ts < 2^53], whole or fractional: the bucket start of [ts] is
    the multiple [b] of the width with [b <= ts < b + width], it lies
    between 0 and [2^53] itself, and there is no other such multiple. *)
Theorem bucket_start_is_the_multiple_below (m : MetricsAgg) (ts : Q) :
  1 <= bucket_seconds m <= float_exact_limit ->
  (0 <= ts)%Q -> (ts < inject_Z float_exact_limit)%Q ->
  exists b,
    _bucket_start m ts = Some b /\
    (bucket_seconds m | b) /\
    0 <= b < float_exact_limit /\
    (inject_Z b <= ts)%Q /\ (ts < inject_Z (b + bucket_seconds m))%Q /\
    forall b',
      (bucket_seconds m | b') ->
      (inject_Z b' <= ts)%Q -> (ts < inject_Z (b' + bucket_seconds m))%Q ->
      b' = b.
Proof.
  intros [Hw Hwmax] Hts0 Htsmax.
  pose proof (bucket_start_floor m ts ltac:(lia)) as Hb.
  remember (Qfloor (ts / inject_Z (bucket_seconds m))) as k eqn:Ek. clear Ek.
  exists (bucket_seconds m * k). split; [exact Hb|].
  destruct (bucket_start_contains m ts _ Hw Hb) as [Hlo Hhi].
  split; [exists k; lia|].
  split.
  { split.
    - assert (H0 : 0 < bucket_seconds m * k + bucket_seconds m).
      { rewrite Zlt_Qlt. eapply Qle_lt_trans; [exact Hts0 | exact Hhi]. }
      destruct (Z_lt_le_dec k 0) as [Hneg | Hpos].
      + assert (bucket_seconds m * k <= bucket_seconds m * (-1))
          by (apply Z.mul_le_mono_nonneg_l; lia).
        lia.
      + apply Z.mul_nonneg_nonneg; lia.
    - rewrite Zlt_Qlt. eapply Qle_lt_trans; [exact Hlo | exact Htsmax]. }
  split; [exact Hlo|]. split; [exact Hhi|].
  intros b' [k' ->] Hlo' Hhi'.
  assert (H1 : k' * bucket_seconds m < bucket_seconds m * k + bucket_seconds m).
  { rewrite Zlt_Qlt. eapply Qle_lt_trans; eassumption. }
  assert (H2 : bucket_seconds m * k < k' * bucket_seconds m + bucket_seconds m).
  { rewrite Zlt_Qlt. eapply Qle_lt_trans; eassumption. }
  assert (Hk : k' = k); [|subst k'; lia].
  destruct (Z.lt_trichotomy k' k) as [Hlt | [Heq | Hgt]]; [|exact Heq|].
  - exfalso. assert (k' + 1 <= k) by lia.
    assert (bucket_seconds m * (k' + 1) <= bucket_seconds m * k)
      by (apply Z.mul_le_mono_nonneg_l; lia).
    lia.
  - exfalso. assert (k + 1 <= k') by lia.
    assert (bucket_seconds m * (k + 1) <= bucket_seconds m * k')
      by (apply Z.mul_le_mono_nonneg_l; lia).
    lia.
Qed.

Lemma bucket_start_is_the_multiple_below_witness :
  let ts := (inject_Z (epoch_2024 + 7) + (1 # 2))%Q in
  exists b,
    _bucket_start fresh ts = Some b /\
    (10 | b) /\ 0 <= b < float_exact_limit /\ b = epoch_2024.
Proof.
  intros ts.
  destruct (bucket_start_is_the_multiple_below fresh ts)
    as (b & Hb & Hdiv & Hrange & _).
  - vm_compute. split; discriminate.
  - vm_compute. discriminate.
  - vm_compute. reflexivity.
  - exists b. split; [exact Hb|]. split; [exact Hdiv|]. split; [exact Hrange|].
    assert (Hc : _bucket_start fresh ts = Some epoch_2024)
      by (vm_compute; reflexivity).
    congruence.
Defined.

(** ** Invariants of a session *)

Lemma fill_to_invariant (P : MetricsAgg -> Prop) :
  (forall b m, P m -> P (_ensure_bucket b m)) ->
  forall fuel b target_b m m',
    fill_to fuel b target_b m = Some m' -> P m -> P m'.
Proof.
  intros Hstep. induction fuel as [|k IH]; intros b target_b m m'; simpl;
    destruct (b <? target_b); try discriminate.
  - intros [= <-] HP. exact HP.
  - intros Hf HP. eapply IH; [exact Hf|]. apply Hstep, HP.
  - intros [= <-] HP. exact HP.
Qed.

Lemma ensure_buckets_to_invariant (P : MetricsAgg -> Prop) now m m' :
  (forall b m, P m -> P (_ensure_bucket b m)) ->
  P m -> ends_in (ensure_buckets_to now m) m' -> P m'.
Proof.
  intros Hstep HP Hend. unfold ensure_buckets_to in Hend.
  destruct (last (timeline m)), (_bucket_start m now);
    try (destruct Hend as [Hd | [e Hr]]; [discriminate | injection Hr as _ <-];
         exact HP).
  - destruct (fill_to _ _ _ m) as [m1|] eqn:Hf.
    + destruct Hend as [Hd | [e Hr]]; [|discriminate]. injection Hd as <-.
      eapply fill_to_invariant; eassumption.
    + destruct Hend as [Hd | [e Hr]]; discriminate.
  - destruct Hend as [Hd | [e Hr]]; [|discriminate]. injection Hd as <-.
    apply Hstep, HP.
Qed.

Section Sessions.

Context `{RT : Runtime}.

(** A property that each operation keeps holds along every run. *)
Lemma exec_invariant (P : MetricsAgg -> Prop) :
  (forall now line m m', P m -> ends_in (update_line now line m) m' -> P m') ->
  (forall t m, P m -> P (set_tail t m)) ->
  (forall now m m', P m -> ends_in (ensure_buckets_to now m) m' -> P m') ->
  (forall sec m, P m -> P (set_bucket_seconds sec m)) ->
  forall ops m m', P m -> ends_in (exec ops m) m' -> P m'.
Proof.
  intros Hline Htail Hfill Hset.
  assert (Hingest : forall now lines m m',
             P m -> ends_in (ingest now lines m) m' -> P m').
  { intros now lines. induction lines as [|[path line] rest IH]; intros m m' HP Hend.
    - destruct Hend as [Hd | [e Hr]]; [|discriminate]. simpl in Hd. congruence.
    - simpl in Hend. destruct (update_line now line m) as [m1|e1 m1|] eqn:Hu.
      + apply (IH m1); [|exact Hend]. apply (Hline now line m m1 HP). left. exact Hu.
      + destruct Hend as [Hd | [e Hr]]; [discriminate|]. injection Hr as <- <-.
        apply (Hline now line m m1 HP). right. eexists. exact Hu.
      + destruct Hend as [Hd | [e Hr]]; discriminate. }
  assert (Hop : forall o m m', P m -> ends_in (run_op o m) m' -> P m').
  { intros [now lines|fs now|now|sec] m m' HP Hend; simpl in Hend.
    - eapply Hingest; eassumption.
    - unfold update in Hend. destruct (read_new_lines fs (tail m)) as [t lines].
      eapply Hingest; [|exact Hend]. apply Htail, HP.
    - eapply Hfill; eassumption.
    - destruct Hend as [Hd | [e Hr]]; [|discriminate]. injection Hd as <-.
      apply Hset, HP. }
  induction ops as [|o rest IH]; intros m m' HP Hend.
  - destruct Hend as [Hd | [e Hr]]; [|discriminate]. simpl in Hd. congruence.
  - simpl in Hend. destruct (run_op o m) as [m1|e1 m1|] eqn:Hr1.
    + apply (IH m1); [|exact Hend]. apply (Hop o m m1 HP). left. exact Hr1.
    + destruct Hend as [Hd | [e Hr]]; [discriminate|]. injection Hr as <- <-.
      apply (Hop o m m1 HP). right. eexists. exact Hr1.
    + destruct Hend as [Hd | [e Hr]]; discriminate.
Qed.

(** What one line does to the state: nothing outside the timeline, or the
    increments of one record and then nothing outside the timeline. *)
Lemma update_line_cases now line m m' :
  ends_in (update_line now line m) m' ->
  (json_loads line = None /\ m' = m) \/
  (exists v, json_loads line = Some v /\ (forall kvs, v <> JDict kvs) /\ m' = m) \/
  (exists kvs, json_loads line = Some (JDict kvs) /\
               same_outside_timeline (count_record kvs m) m').
Proof.
  unfold update_line. intros Hend.
  destruct (json_loads line) as [obj|].
  - destruct obj;
      try (right; left; eexists; split; [reflexivity|]; split; [discriminate|];
           destruct Hend as [Hd | [e Hr]]; [discriminate | congruence]).
    right. right. exists kvs. split; [reflexivity|].
    destruct (_bucket_start _ _) as [b|].
    + destruct (bucket_map _ !! b) as [c|].
      * destruct Hend as [Hd | [e Hr]]; [|discriminate]. injection Hd as <-.
        eapply same_outside_timeline_trans; [apply ensure_bucket_same|].
        unfold same_outside_timeline. simpl. tauto.
      * destruct Hend as [Hd | [e Hr]]; [discriminate|]. injection Hr as _ <-.
        apply ensure_bucket_same.
    + destruct Hend as [Hd | [e Hr]]; [discriminate|]. injection Hr as _ <-.
      apply same_outside_timeline_refl.
  - left. split; [reflexivity|].
    destruct Hend as [Hd | [e Hr]]; [|discriminate]. congruence.
Qed.

End Sessions.

(** ** Totals and categories *)

Lemma sum_over_insert (g : nat * nat -> nat) (per : gmap string (nat * nat)) key c :
  (map_fold (fun _ v acc => g v + acc) 0 (<[key := c]> per)
   + g (default (0, 0) (per !! key))
   = map_fold (fun _ v acc => g v + acc) 0 per + g c
     + match per !! key with Some _ => 0 | None => g (0, 0) end)%nat.
Proof.
  destruct (per !! key) as [v|] eqn:Hk; simpl.
  - rewrite <- (insert_delete_id per key v Hk) at 2.
    rewrite <- (insert_delete_eq per key c).
    rewrite !map_fold_insert_L; try (rewrite lookup_delete_eq; reflexivity);
      try (intros; lia).
  - rewrite map_fold_insert_L; [lia | intros; lia | exact Hk].
Qed.

Lemma sum_success_bump ok key per :
  sum_success (bump_category ok key per)
  = (sum_success per + if ok then 1 else 0)%nat.
Proof.
  unfold sum_success, bump_category.
  pose proof (sum_over_insert fst per key
                (bump ok (default (0, 0)%nat (per !! key)))) as H.
  destruct (per !! key) as [v|]; unfold bump in *; destruct ok; simpl in *; lia.
Qed.

Lemma sum_fail_bump ok key per :
  sum_fail (bump_category ok key per)
  = (sum_fail per + if ok then 0 else 1)%nat.
Proof.
  unfold sum_fail, bump_category.
  pose proof (sum_over_insert snd per key
                (bump ok (default (0, 0)%nat (per !! key)))) as H.
  destruct (per !! key) as [v|]; unfold bump in *; destruct ok; simpl in *; lia.
Qed.

Lemma evict_timeline maxb tl bm : fst (evict maxb tl bm) = keep_last maxb tl.
Proof.
  revert bm. induction tl as [|old rest IH]; intros bm; [reflexivity|].
  cbn [evict]. destruct (maxb <? Z.of_nat (length (old :: rest))) eqn:E.
  - apply Z.ltb_lt in E. rewrite IH. unfold keep_last. simpl length in *.
    replace (S (length rest) - Z.to_nat maxb)%nat
      with (S (length rest - Z.to_nat maxb)) by lia.
    reflexivity.
  - apply Z.ltb_ge in E. rewrite keep_last_all by exact E. reflexivity.
Qed.

(** The timeline after [_ensure_bucket], whatever the state. *)
Lemma ensure_bucket_timeline b m :
  timeline (_ensure_bucket b m)
  = match bucket_map m !! b with
    | Some _ => timeline m
    | None => keep_last (max_buckets m) (timeline m ++ [(b, 0%nat, 0%nat)])
    end.
Proof.
  unfold _ensure_bucket. destruct (bucket_map m !! b); [reflexivity|].
  pose proof (evict_timeline (max_buckets m) (timeline m ++ [(b, 0%nat, 0%nat)])
                (<[b := (0%nat, 0%nat)]> (bucket_map m))) as He.
  destruct (evict _ _ _) as [tl' bm']. simpl in *. exact He.
Qed.

Lemma ensure_bucket_starts b m x :
  x ∈ starts (timeline (_ensure_bucket b m)) ->
  x = b \/ x ∈ starts (timeline m).
Proof.
  rewrite ensure_bucket_timeline. destruct (bucket_map m !! b); [tauto|].
  unfold keep_last, starts. rewrite fmap_drop. intros Hx.
  apply list_elem_of_lookup in Hx as [i Hi]. rewrite lookup_drop in Hi.
  apply list_elem_of_lookup_2 in Hi. rewrite fmap_app in Hi.
  apply elem_of_app in Hi as [Hi | Hi]; [right; exact Hi|].
  left. apply list_elem_of_singleton in Hi. exact Hi.
Qed.

Lemma timeline_success_app l1 l2 :
  timeline_success (l1 ++ l2) = (timeline_success l1 + timeline_success l2)%nat.
Proof.
  unfold timeline_success. induction l1 as [|e l1 IH]; [reflexivity|].
  simpl. rewrite IH. lia.
Qed.

Lemma timeline_fail_app l1 l2 :
  timeline_fail (l1 ++ l2) = (timeline_fail l1 + timeline_fail l2)%nat.
Proof.
  unfold timeline_fail. induction l1 as [|e l1 IH]; [reflexivity|].
  simpl. rewrite IH. lia.
Qed.

Lemma timeline_sums_drop n tl :
  (timeline_success (drop n tl) <= timeline_success tl)%nat /\
  (timeline_fail (drop n tl) <= timeline_fail tl)%nat.
Proof.
  rewrite <- (take_drop n tl) at 2 4.
  rewrite timeline_success_app, timeline_fail_app. lia.
Qed.

Lemma ensure_bucket_sums b m :
  (timeline_success (timeline (_ensure_bucket b m))
   <= timeline_success (timeline m))%nat /\
  (timeline_fail (timeline (_ensure_bucket b m)) <= timeline_fail (timeline m))%nat.
Proof.
  rewrite ensure_bucket_timeline. destruct (bucket_map m !! b); [lia|].
  unfold keep_last.
  pose proof (timeline_sums_drop
                (length (timeline m ++ [(b, 0%nat, 0%nat)]) - Z.to_nat (max_buckets m))
                (timeline m ++ [(b, 0%nat, 0%nat)])) as H.
  rewrite timeline_success_app, timeline_fail_app in H.
  unfold timeline_success at 3 in H. unfold timeline_fail at 3 in H.
  simpl in H. lia.
Qed.

(** Rewriting the tuple of [b] changes the sums by what the counts of [b]
    change. *)
Lemma sync_bucket_sums b c' s f tl :
  NoDup (starts tl) -> (b, s, f) ∈ tl ->
  (timeline_success (sync_bucket b c' tl) + s = timeline_success tl + fst c')%nat /\
  (timeline_fail (sync_bucket b c' tl) + f = timeline_fail tl + snd c')%nat.
Proof.
  induction tl as [|e rest IH]; intros Hnd Hin; [inversion Hin|].
  simpl in Hnd. apply NoDup_cons in Hnd as [Hnot Hnd]. simpl.
  destruct (bucket_start_of e =? b) eqn:E.
  - apply Z.eqb_eq in E. apply elem_of_cons in Hin as [<- | Hin].
    + unfold timeline_success, timeline_fail. simpl. lia.
    + exfalso. apply Hnot. rewrite E. apply elem_of_starts. eauto.
  - apply Z.eqb_neq in E. apply elem_of_cons in Hin as [<- | Hin].
    + exfalso. apply E. reflexivity.
    + destruct (IH Hnd Hin) as [H1 H2].
      unfold timeline_success, timeline_fail in *. simpl. lia.
Qed.

Section SessionInvariants.

Context `{RT : Runtime}.

Lemma reachable_totals m :
  reachable m ->
  success m = sum_success (per_region m) /\
  success m = sum_success (per_instance m) /\
  fail m = sum_fail (per_region m) /\
  fail m = sum_fail (per_instance m).
Proof.
  intros (pat & bs & mb & ops & Hend).
  set (P := fun m : MetricsAgg =>
              success m = sum_success (per_region m) /\
              success m = sum_success (per_instance m) /\
              fail m = sum_fail (per_region m) /\
              fail m = sum_fail (per_instance m)).
  assert (Hsame : forall m1 m2, same_outside_timeline m1 m2 -> P m1 -> P m2).
  { intros m1 m2 (_ & Hs & Hf & Hr & Hi & _) HP. unfold P in *.
    rewrite Hs, Hf, Hr, Hi. exact HP. }
  apply (exec_invariant P) with (ops := ops) (m := MetricsAgg_init pat bs mb);
    [| | | | |exact Hend].
  - intros now line m1 m2 HP Hu.
    destruct (update_line_cases now line m1 m2 Hu)
      as [[_ ->] | [(v & _ & _ & ->) | (kvs & _ & Hsm)]]; try exact HP.
    apply (Hsame _ _ Hsm). destruct HP as (H1 & H2 & H3 & H4).
    unfold P, count_record. simpl.
    rewrite !sum_success_bump, !sum_fail_bump. lia.
  - intros t m1 HP. exact HP.
  - intros now m1 m2 HP He. apply (Hsame m1); [|exact HP].
    eapply ensure_buckets_to_same. exact He.
  - intros sec m1 HP. exact HP.
  - unfold P, sum_success, sum_fail. simpl. rewrite !map_fold_empty. tauto.
Qed.

(** The shape of the state after a record, on a state of a session. *)
Lemma update_line_done now line kvs m m' :
  json_loads line = Some (JDict kvs) -> inv m ->
  ends_in (update_line now line m) m' ->
  exists b c,
    let m2 := _ensure_bucket b (count_record kvs m) in
    let c' := bump (truthy (dict_get kvs "success")) c in
    _bucket_start (count_record kvs m)
      (parse_ts now (py_or (dict_get kvs "ts") (JStr EmptyString))) = Some b /\
    bucket_map m2 !! b = Some c /\
    m' = set_buckets (sync_bucket b c' (timeline m2))
                     (<[b := c']> (bucket_map m2)) m2.
Proof.
  intros Hl Hinv Hend.
  destruct (update_line_record now line kvs m Hl Hinv) as (b & c & Hb & Hc & Hu).
  exists b, c. cbv zeta in *. split; [exact Hb|]. split; [exact Hc|].
  rewrite Hu in Hend. destruct Hend as [Hd | [e Hr]]; [|discriminate].
  congruence.
Qed.

Lemma reachable_timeline_sums m :
  reachable m ->
  (timeline_success (timeline m) <= success m)%nat /\
  (timeline_fail (timeline m) <= fail m)%nat.
Proof.
  intros (pat & bs & mb & ops & Hend).
  set (P := fun m : MetricsAgg =>
              inv m /\
              (timeline_success (timeline m) <= success m)%nat /\
              (timeline_fail (timeline m) <= fail m)%nat).
  assert (HP : P m); [|apply HP].
  apply (exec_invariant P) with (ops := ops) (m := MetricsAgg_init pat bs mb);
    [| | | | |exact Hend].
  - intros now line m1 m2 (Hinv & Hs & Hf) Hu.
    split; [eapply update_line_inv; eassumption|].
    destruct (update_line_cases now line m1 m2 Hu)
      as [[_ ->] | [(v & _ & _ & ->) | (kvs & Hl & _)]]; try (split; assumption).
    destruct (update_line_done now line kvs m1 m2 Hl Hinv Hu)
      as (b & c & _ & Hc & ->). cbv zeta in *. simpl.
    pose proof (ensure_bucket_inv b _ (count_record_inv kvs m1 Hinv)) as Hinv2.
    destruct (sync_bucket_sums b (bump (truthy (dict_get kvs "success")) c)
                (fst c) (snd c) (timeline (_ensure_bucket b (count_record kvs m1))))
      as [H1 H2]; [apply Hinv2 | apply Hinv2; exact Hc |].
    destruct (ensure_bucket_sums b (count_record kvs m1)) as [H3 H4].
    destruct (ensure_bucket_frame b (count_record kvs m1))
      as (_ & Hsu & Hfa & _).
    rewrite Hsu, Hfa. unfold count_record in *. simpl in *.
    unfold bump in *. destruct (truthy (dict_get kvs "success")); simpl in *; lia.
  - intros t m1 (Hinv & Hs & Hf). split; [apply set_tail_inv, Hinv|].
    split; assumption.
  - intros now m1 m2 HP1 He.
    apply (ensure_buckets_to_invariant P now m1 m2); [|exact HP1|exact He].
    intros b m0 (Hinv & Hs & Hf). split; [apply ensure_bucket_inv, Hinv|].
    destruct (ensure_bucket_sums b m0) as [H3 H4].
    destruct (ensure_bucket_frame b m0) as (_ & Hsu & Hfa & _).
    rewrite Hsu, Hfa. lia.
  - intros sec m1 (Hinv & Hs & Hf). split; [apply set_bucket_seconds_inv, Hinv|].
    unfold timeline_success, timeline_fail. simpl. lia.
  - split; [apply init_inv|]. unfold timeline_success, timeline_fail. simpl. lia.
Qed.

End SessionInvariants.

(** ** Alignment and the bucket of now *)

Lemma bucket_start_aligned m ts b :
  bucket_seconds m <> 0 -> _bucket_start m ts = Some b -> (bucket_seconds m | b).
Proof.
  intros Hw Hb. rewrite (bucket_start_floor m ts Hw) in Hb.
  injection Hb as <-. eexists. apply Z.mul_comm.
Qed.

Lemma ensure_bucket_aligned b m :
  aligned m -> (bucket_seconds m | b) -> aligned (_ensure_bucket b m).
Proof.
  intros Ha Hb x Hx.
  destruct (ensure_bucket_frame b m) as (_ & _ & _ & _ & _ & Hbs & _).
  rewrite Hbs. apply ensure_bucket_starts in Hx as [-> | Hx]; [exact Hb|].
  apply Ha, Hx.
Qed.

Lemma last_elem_of {A : Type} (l : list A) (x : A) : last l = Some x -> x ∈ l.
Proof.
  rewrite last_lookup. intros H. eapply list_elem_of_lookup_2. exact H.
Qed.

(** Backfill returns on a state of a session and keeps it aligned. *)
Lemma ensure_buckets_to_aligned now m :
  inv m -> aligned m ->
  exists m', ensure_buckets_to now m = Done m' /\ inv m' /\ aligned m'.
Proof.
  intros Hinv Ha. pose proof (inv_width m Hinv) as Hw.
  unfold ensure_buckets_to.
  destruct (_bucket_start m now) as [T|] eqn:HT.
  2:{ unfold _bucket_start in HT.
      destruct (bucket_seconds m =? 0) eqn:E; [apply Z.eqb_eq in E; lia | discriminate]. }
  pose proof (bucket_start_aligned m now T ltac:(lia) HT) as HdT.
  destruct (last (timeline m)) as [e|] eqn:Hl.
  - set (w := bucket_seconds m) in *.
    set (P := fun b m0 => inv m0 /\ aligned m0 /\ bucket_seconds m0 = w /\ (w | b)).
    edestruct (fill_to_preserves P) as (m' & b' & -> & HP').
    + intros b m0 (Hi & Hal & Hb & Hd).
      destruct (ensure_bucket_frame (b + bucket_seconds m0) m0)
        as (_ & _ & _ & _ & _ & Hbs & _).
      assert (Hd' : (bucket_seconds m0 | b + bucket_seconds m0)).
      { rewrite Hb. apply Z.divide_add_r; [exact Hd | apply Z.divide_refl]. }
      split; [apply ensure_bucket_inv, Hi|].
      split; [apply ensure_bucket_aligned; assumption|].
      split; [congruence|]. rewrite <- Hb. exact Hd'.
    + intros b m0 (Hi & _). apply Hi.
    + split; [exact Hinv|]. split; [exact Ha|]. split; [reflexivity|].
      apply Ha. unfold starts. apply list_elem_of_fmap_2.
      apply last_elem_of. exact Hl.
    + reflexivity.
    + exists m'. split; [reflexivity|]. destruct HP' as (Hi & Hal & _). tauto.
  - eexists. split; [reflexivity|]. split; [apply ensure_bucket_inv, Hinv|].
    apply ensure_bucket_aligned; assumption.
Qed.

(** The backfill loop toward a target a whole number of widths ahead ends
    with the target in the index. *)
Lemma fill_to_target k :
  forall fuel b m,
    inv m -> (k <= fuel)%nat ->
    exists m',
      fill_to fuel b (b + Z.of_nat k * bucket_seconds m) m = Some m' /\
      inv m' /\
      ((1 <= k)%nat ->
       is_Some (bucket_map m' !! (b + Z.of_nat k * bucket_seconds m))).
Proof.
  induction k as [|k IH]; intros fuel b m Hinv Hfuel.
  - exists m. replace (b + Z.of_nat 0 * bucket_seconds m) with b by lia.
    split; [destruct fuel; simpl; rewrite Z.ltb_irrefl; reflexivity|].
    split; [exact Hinv | lia].
  - destruct fuel as [|fuel]; [lia|].
    pose proof (inv_width m Hinv) as Hw. simpl fill_to.
    destruct (b <? b + Z.of_nat (S k) * bucket_seconds m) eqn:E;
      [|apply Z.ltb_ge in E; nia].
    pose proof (ensure_bucket_inv (b + bucket_seconds m) m Hinv) as Hinv1.
    destruct (ensure_bucket_frame (b + bucket_seconds m) m)
      as (_ & _ & _ & _ & _ & Hbs & _).
    destruct (IH fuel (b + bucket_seconds m) _ Hinv1) as (m' & Hf & Hinv' & Hin);
      [lia|].
    rewrite Hbs in Hf, Hin.
    replace (b + bucket_seconds m + Z.of_nat k * bucket_seconds m)
      with (b + Z.of_nat (S k) * bucket_seconds m) in Hf, Hin by lia.
    exists m'. split; [exact Hf|]. split; [exact Hinv'|]. intros _.
    destruct k as [|k]; [|apply Hin; lia].
    replace (b + Z.of_nat 1 * bucket_seconds m) with (b + bucket_seconds m) in * by lia.
    assert (Hm' : m' = _ensure_bucket (b + bucket_seconds m) m).
    { destruct fuel; simpl in Hf; rewrite Z.ltb_irrefl in Hf; congruence. }
    rewrite Hm'. apply ensure_bucket_lookup, Hinv.
Qed.

Section Backfill.

Context `{RT : Runtime}.

Lemma reachable_aligned m : reachable m -> inv m /\ aligned m.
Proof.
  intros (pat & bs & mb & ops & Hend).
  set (P := fun m : MetricsAgg => inv m /\ aligned m).
  apply (exec_invariant P) with (ops := ops) (m := MetricsAgg_init pat bs mb);
    [| | | | |exact Hend].
  - intros now line m1 m2 (Hinv & Ha) Hu.
    split; [eapply update_line_inv; eassumption|].
    destruct (update_line_cases now line m1 m2 Hu)
      as [[_ ->] | [(v & _ & _ & ->) | (kvs & Hl & _)]]; try assumption.
    destruct (update_line_done now line kvs m1 m2 Hl Hinv Hu)
      as (b & c & Hb & _ & ->). cbv zeta in *.
    intros x Hx. simpl in Hx. rewrite starts_sync in Hx. simpl.
    assert (Ha1 : aligned (count_record kvs m1)) by exact Ha.
    apply (ensure_bucket_aligned b (count_record kvs m1) Ha1); [|exact Hx].
    eapply bucket_start_aligned; [|exact Hb].
    pose proof (inv_width m1 Hinv). simpl. lia.
  - intros t m1 (Hinv & Ha). split; [apply set_tail_inv, Hinv | exact Ha].
  - intros now m1 m2 (Hinv & Ha) He.
    destruct (ensure_buckets_to_aligned now m1 Hinv Ha) as (m' & Hd & Hi' & Ha').
    rewrite Hd in He. destruct He as [Hd' | [e Hr]]; [|discriminate].
    injection Hd' as <-. split; assumption.
  - intros sec m1 (Hinv & Ha). split; [apply set_bucket_seconds_inv, Hinv|].
    intros x Hx. simpl in Hx. apply elem_of_nil in Hx. contradiction.
  - split; [apply init_inv|]. intros x Hx. simpl in Hx.
    apply elem_of_nil in Hx. contradiction.
Qed.

End Backfill.

Lemma ensure_bucket_on_empty b m :
  inv m -> timeline m = [] ->
  _ensure_bucket b m = set_buckets [(b, 0%nat, 0%nat)] {[b := (0%nat, 0%nat)]} m.
Proof.
  intros Hinv Hnil.
  assert (Hempty : bucket_map m = ∅).
  { apply map_empty. intros b0. apply (agrees_None (timeline m)); [apply Hinv|].
    rewrite Hnil. apply not_elem_of_nil. }
  unfold _ensure_bucket. rewrite Hempty, lookup_empty, Hnil. simpl.
  pose proof (inv_max m Hinv) as Hmax. change (Z.of_nat 1) with 1.
  destruct (max_buckets m <? 1) eqn:E; [apply Z.ltb_lt in E; lia|].
  reflexivity.
Qed.

Lemma fill_to_reached fuel b target_b m :
  target_b <= b -> fill_to fuel b target_b m = Some m.
Proof.
  intros Hle. destruct fuel; simpl;
    (destruct (b <? target_b) eqn:E; [apply Z.ltb_lt in E; lia | reflexivity]).
Qed.

Lemma last_starts (tl : list bucket) :
  last (starts tl) = bucket_start_of <$> last tl.
Proof. unfold starts. apply fmap_last. Qed.

Lemma bucket_start_same_width m m' ts :
  bucket_seconds m' = bucket_seconds m -> _bucket_start m' ts = _bucket_start m ts.
Proof. intros H. unfold _bucket_start. rewrite H. reflexivity. Qed.

(** The counts [_ensure_bucket] leaves for [b]: those it had, or zero. *)
Lemma ensure_bucket_counts b m :
  inv m ->
  bucket_map (_ensure_bucket b m) !! b
  = Some (default (0%nat, 0%nat) (bucket_map m !! b)).
Proof.
  intros Hinv. destruct (bucket_map m !! b) as [c|] eqn:Hb.
  - rewrite (ensure_bucket_present b m c Hb). exact Hb.
  - destruct (ensure_bucket_fresh b m) as (bm' & -> & Ha');
      [apply Hinv | apply Hinv | exact Hb |].
    simpl. apply Ha'. simpl. apply keep_last_snoc_elem, Hinv.
Qed.

(** A bucket other than [b] that is in the index after [_ensure_bucket b]
    was there before, with the same counts. *)
Lemma ensure_bucket_others b m b' c :
  inv m -> b' <> b ->
  bucket_map (_ensure_bucket b m) !! b' = Some c -> bucket_map m !! b' = Some c.
Proof.
  intros Hinv Hne. destruct (bucket_map m !! b) as [c0|] eqn:Hb.
  - rewrite (ensure_bucket_present b m c0 Hb). tauto.
  - destruct (ensure_bucket_fresh b m) as (bm' & -> & Ha');
      [apply Hinv | apply Hinv | exact Hb |].
    simpl. intros Hc. apply Ha' in Hc. unfold keep_last in Hc.
    apply list_elem_of_lookup in Hc as [i Hi]. rewrite lookup_drop in Hi.
    apply list_elem_of_lookup_2 in Hi. apply elem_of_app in Hi as [Hi | Hi].
    + apply (inv_index m Hinv). exact Hi.
    + apply list_elem_of_singleton in Hi. congruence.
Qed.

(** ** The aggregator in a session *)

Section Aggregator.

Context `{RT : Runtime}.

(** X2: The totals are the sums over the categories, of the regions and of
    the instances alike: every record that is counted is counted once in
    each of the three. *)
Theorem totals_are_category_sums (m : MetricsAgg) :
  reachable m ->
  success m = sum_success (per_region m) /\
  success m = sum_success (per_instance m) /\
  fail m = sum_fail (per_region m) /\
  fail m = sum_fail (per_instance m).
Proof. apply reachable_totals. Qed.

(** X3: The timeline never shows more events than were counted: its buckets
    sum up to at most the totals (eviction and a change of the width drop
    buckets, never totals). *)
Theorem timeline_counts_within_totals (m : MetricsAgg) :
  reachable m ->
  (timeline_success (timeline m) <= success m)%nat /\
  (timeline_fail (timeline m) <= fail m)%nat.
Proof. apply reachable_timeline_sums. Qed.

(** X4: Every bucket start of a session is a multiple of the current bucket
    width. *)
Theorem bucket_starts_are_multiples_of_width (m : MetricsAgg) (b : Z) :
  reachable m -> b ∈ starts (timeline m) -> (bucket_seconds m | b).
Proof. intros Hr. apply (reachable_aligned m Hr). Qed.

(** X5: After [ensure_buckets_to(now)] the bucket of [now] is in the timeline
    and in the index, provided the timeline was empty or its last bucket
    was not later than the bucket of [now]; when the last bucket is that
    of [now] or a later one, the call changes nothing. *)
Theorem backfill_reaches_bucket_of_now (m : MetricsAgg) (now : Q) (T : Z) :
  reachable m ->
  _bucket_start m now = Some T ->
  (timeline m = [] \/
   (exists L, last (starts (timeline m)) = Some L /\ L <= T) ->
   exists m',
     ensure_buckets_to now m = Done m' /\
     T ∈ starts (timeline m') /\ is_Some (bucket_map m' !! T)) /\
  ((exists L, last (starts (timeline m)) = Some L /\ T <= L) ->
   ensure_buckets_to now m = Done m).
Proof.
  intros Hr HT. destruct (reachable_aligned m Hr) as [Hinv Ha].
  pose proof (inv_width m Hinv) as Hw. split.
  - intros [Hnil | (L & HL & Hle)].
    + unfold ensure_buckets_to. rewrite Hnil, HT. simpl.
      eexists. split; [reflexivity|].
      pose proof (ensure_bucket_lookup T m Hinv) as Hs.
      split; [|exact Hs].
      apply (agrees_is_Some _ _ T (inv_index _ (ensure_bucket_inv T m Hinv))).
      exact Hs.
    + rewrite last_starts in HL. unfold ensure_buckets_to. rewrite HT.
      destruct (last (timeline m)) as [e|] eqn:Hl; [|discriminate].
      simpl in HL. injection HL as HL. rewrite HL.
      assert (HdL : (bucket_seconds m | L)).
      { apply Ha. rewrite <- HL. unfold starts. apply list_elem_of_fmap_2.
        apply last_elem_of. exact Hl. }
      pose proof (bucket_start_aligned m now T ltac:(lia) HT) as HdT.
      destruct HdL as [l HlL]. destruct HdT as [t HtT].
      assert (Hlt : l <= t) by nia.
      assert (HTk : T = L + Z.of_nat (Z.to_nat (t - l)) * bucket_seconds m)
        by (rewrite Z2Nat.id by lia; nia).
      destruct (fill_to_target (Z.to_nat (t - l)) (Z.to_nat (T - L)) L m Hinv)
        as (m' & Hf & Hinv' & Hin).
      { rewrite HTk at 1. apply Z2Nat.inj_le; nia. }
      rewrite <- HTk in Hf, Hin. rewrite Hf. exists m'. split; [reflexivity|].
      destruct (decide (t = l)) as [Heq | Hne].
      * assert (HTL : T = L) by nia. rewrite HTL in Hf |- *.
        rewrite fill_to_reached in Hf by lia. injection Hf as <-.
        assert (Hel : L ∈ starts (timeline m)).
        { rewrite <- HL. unfold starts. apply list_elem_of_fmap_2.
          apply last_elem_of. exact Hl. }
        split; [exact Hel|].
        apply (agrees_is_Some _ _ L (inv_index m Hinv)). exact Hel.
      * assert (Hs : is_Some (bucket_map m' !! T)) by (apply Hin; lia).
        split; [|exact Hs].
        apply (agrees_is_Some _ _ T (inv_index m' Hinv')). exact Hs.
  - intros (L & HL & Hle). rewrite last_starts in HL.
    unfold ensure_buckets_to. rewrite HT.
    destruct (last (timeline m)) as [e|] eqn:Hl; [|discriminate].
    simpl in HL. injection HL as HL. rewrite HL.
    rewrite fill_to_reached by exact Hle. reflexivity.
Qed.

(** X6: Calling [ensure_buckets_to] twice with the same clock reading does
    what calling it once does, on a session state whose timeline is empty
    or ends with its largest start. *)
Theorem backfill_twice_is_backfill_once (m : MetricsAgg) (now : Q) :
  reachable m ->
  timeline m = [] \/ (exists L, last_is_max L m) ->
  exists m',
    ensure_buckets_to now m = Done m' /\ ensure_buckets_to now m' = Done m'.
Proof.
  intros Hr Hshape. destruct (reachable_aligned m Hr) as [Hinv Ha].
  pose proof (inv_width m Hinv) as Hw.
  pose proof (bucket_start_floor m now ltac:(lia)) as HT.
  remember (bucket_seconds m * Qfloor (now / inject_Z (bucket_seconds m)))
    as T eqn:ET. clear ET.
  destruct Hshape as [Hnil | (L & HL & Hmax)].
  - unfold ensure_buckets_to at 1. rewrite Hnil, HT. simpl.
    rewrite (ensure_bucket_on_empty T m Hinv Hnil).
    set (m1 := set_buckets [(T, 0%nat, 0%nat)] {[T := (0%nat, 0%nat)]} m).
    assert (HT1 : _bucket_start m1 now = Some T).
    { rewrite (bucket_start_same_width m m1 now eq_refl). exact HT. }
    exists m1. split; [reflexivity|].
    unfold ensure_buckets_to. rewrite HT1.
    change (last (timeline m1)) with (Some (T, 0%nat, 0%nat)). cbv beta iota.
    change (bucket_start_of (T, 0%nat, 0%nat)) with T.
    rewrite fill_to_reached by lia. reflexivity.
  - pose proof HL as HL'. rewrite last_starts in HL'.
    destruct (last (timeline m)) as [e|] eqn:Hl; [|discriminate].
    simpl in HL'. injection HL' as HL'.
    destruct (Z_le_gt_dec T L) as [Hle | Hgt].
    + exists m. unfold ensure_buckets_to. rewrite HT, Hl, HL'.
      rewrite fill_to_reached by exact Hle. split; reflexivity.
    + assert (HdL : (bucket_seconds m | L)).
      { apply Ha. rewrite <- HL'. unfold starts. apply list_elem_of_fmap_2.
        apply last_elem_of. exact Hl. }
      pose proof (bucket_start_aligned m now T ltac:(lia) HT) as HdT.
      destruct HdL as [l HlL]. destruct HdT as [t HtT].
      assert (Hlt : l <= t) by nia.
      assert (HTk : T = L + Z.of_nat (Z.to_nat (t - l)) * bucket_seconds m)
        by (rewrite Z2Nat.id by lia; nia).
      destruct (fill_to_aligned (Z.to_nat (t - l)) (Z.to_nat (T - L)) L m Hinv)
        as (m' & Hf & Hinv' & [HL2 _] & _).
      { split; assumption. }
      { rewrite HTk at 1. apply Z2Nat.inj_le; nia. }
      rewrite <- HTk in Hf, HL2.
      exists m'. split.
      * unfold ensure_buckets_to. rewrite HT, Hl, HL', Hf. reflexivity.
      * pose proof (fill_to_same _ _ _ _ _ Hf) as (_ & _ & _ & _ & _ & Hbs & _).
        unfold ensure_buckets_to.
        rewrite (bucket_start_same_width m m' now Hbs), HT.
        rewrite last_starts in HL2.
        destruct (last (timeline m')) as [e'|]; [|discriminate].
        simpl in HL2. injection HL2 as ->.
        rewrite fill_to_reached by lia. reflexivity.
Qed.

End Aggregator.

Section Records.

Context `{RT : Runtime}.

(** X7: Ingesting two batches one after the other is ingesting their
    concatenation; a batch after one that raised is not ingested. *)
Theorem ingest_of_concatenation now (l1 l2 : list (string * string)) (m : MetricsAgg) :
  ingest now (l1 ++ l2) m
  = match ingest now l1 m with
    | Done m1 => ingest now l2 m1
    | r => r
    end.
Proof.
  revert m. induction l1 as [|[path line] rest IH]; intros m; [reflexivity|].
  simpl. destruct (update_line now line m); [apply IH | reflexivity | reflexivity].
Qed.

Lemma ingest_tail now lines m m' :
  ends_in (ingest now lines m) m' -> tail m' = tail m.
Proof.
  revert m. induction lines as [|[path line] rest IH]; intros m Hend.
  - destruct Hend as [Hd | [e Hr]]; [|discriminate]. simpl in Hd. congruence.
  - assert (Hline : forall m1, ends_in (update_line now line m) m1 -> tail m1 = tail m).
    { intros m1 Hu.
      destruct (update_line_cases now line m m1 Hu)
        as [[_ ->] | [(v & _ & _ & ->) | (kvs & _ & Hsm)]]; try reflexivity.
      destruct Hsm as (Ht & _). exact Ht. }
    simpl in Hend. destruct (update_line now line m) as [m1|e1 m1|] eqn:Hu.
    + rewrite (IH m1 Hend). apply Hline. left. reflexivity.
    + destruct Hend as [Hd | [e Hr]]; [discriminate|]. injection Hr as <- <-.
      apply Hline. right. eexists. reflexivity.
    + destruct Hend as [Hd | [e Hr]]; discriminate.
Qed.

(** X8: [update] leaves the tailer where its poll left it, also when a line
    makes it raise: the offsets are past every line of the poll, so the
    lines behind the one that raised are not read again. *)
Theorem update_keeps_the_offsets_of_its_poll
    (fs : FileSystem) (now : Q) (m m' : MetricsAgg) :
  ends_in (update fs now m) m' ->
  tail m' = fst (read_new_lines fs (tail m)).
Proof.
  unfold update. destruct (read_new_lines fs (tail m)) as [t lines].
  intros Hend. apply ingest_tail in Hend. exact Hend.
Qed.

(** X9: A line that is valid JSON but not an object is not skipped: the
    ingest raises [AttributeError] at that line, with nothing counted for
    it, and the lines behind it in the batch are not ingested. *)
Theorem non_object_json_line_raises (line : string) (v : json) :
  json_loads line = Some v -> (forall kvs, v <> JDict kvs) ->
  forall now path rest m,
    ingest now ((path, line) :: rest) m = Raised AttributeError m.
Proof.
  intros Hl Hv now path rest m. simpl.
  rewrite (update_line_not_object now line v m Hl Hv). reflexivity.
Qed.

(** X10: A record whose [success] is truthy, the text ["false"] included,
    is counted as a success: on a session state the ingest returns, total
    success and the success counts of the record's instance and region
    are one more, and no fail count changes. *)
Theorem truthy_success_counts_as_success
    (now : Q) (path line : string) (kvs : list (string * json)) (m : MetricsAgg) :
  json_loads line = Some (JDict kvs) ->
  truthy (dict_get kvs "success") = true ->
  inv m ->
  exists m',
    ingest now [(path, line)] m = Done m' /\
    success m' = S (success m) /\ fail m' = fail m /\
    counts_of (per_instance m') (category kvs "instance_id")
    = (S (fst (counts_of (per_instance m) (category kvs "instance_id"))),
       snd (counts_of (per_instance m) (category kvs "instance_id"))) /\
    counts_of (per_region m') (category kvs "batch_region")
    = (S (fst (counts_of (per_region m) (category kvs "batch_region"))),
       snd (counts_of (per_region m) (category kvs "batch_region"))).
Proof.
  intros Hl Hok Hinv.
  destruct (update_line_record now line kvs m Hl Hinv) as (b & c & _ & _ & Hu).
  cbv zeta in Hu. simpl ingest. rewrite Hu. eexists. split; [reflexivity|].
  destruct (ensure_bucket_frame b (count_record kvs m))
    as (_ & Hsu & Hfa & Hre & Hin & _).
  simpl. rewrite Hsu, Hfa, Hre, Hin. unfold count_record. simpl.
  rewrite Hok, !counts_of_bump_eq. unfold bump. simpl.
  repeat split; lia.
Qed.

(** X11: A record without an [instance_id] (absent, [null] or empty) is counted
    under the instance ["unknown"], and likewise for [batch_region]. *)
Theorem missing_category_is_counted_as_unknown
    (now : Q) (path line key : string) (kvs : list (string * json)) (m : MetricsAgg) :
  json_loads line = Some (JDict kvs) ->
  (forall v, (key, v) ∉ kvs) \/ dict_get kvs key = JNull \/
  dict_get kvs key = JStr EmptyString ->
  inv m ->
  category kvs key = "unknown"%string /\
  exists m',
    ingest now [(path, line)] m = Done m' /\
    (key = "instance_id"%string ->
     counts_of (per_instance m') "unknown"
     = bump (truthy (dict_get kvs "success")) (counts_of (per_instance m) "unknown")) /\
    (key = "batch_region"%string ->
     counts_of (per_region m') "unknown"
     = bump (truthy (dict_get kvs "success")) (counts_of (per_region m) "unknown")).
Proof.
  intros Hl Hmiss Hinv.
  assert (Hcat : category kvs key = "unknown"%string).
  { unfold category, py_or.
    destruct Hmiss as [Habs | [Hn | He]].
    - rewrite (dict_get_absent kvs key Habs). reflexivity.
    - rewrite Hn. reflexivity.
    - rewrite He. reflexivity. }
  split; [exact Hcat|].
  destruct (update_line_record now line kvs m Hl Hinv) as (b & c & _ & _ & Hu).
  cbv zeta in Hu. simpl ingest. rewrite Hu. eexists. split; [reflexivity|].
  destruct (ensure_bucket_frame b (count_record kvs m))
    as (_ & _ & _ & Hre & Hin & _).
  simpl. rewrite Hre, Hin. unfold count_record. simpl.
  split; intros ->; rewrite Hcat, counts_of_bump_eq; reflexivity.
Qed.

(** X12: A record increments exactly the bucket of its timestamp: on a session
    state the counts of that bucket after the ingest are its counts
    before (zero for a new bucket) with one more success or failure, the
    bucket is in the timeline with these counts, and every other bucket
    of the index has the counts it had. *)
Theorem record_increments_its_bucket
    (now : Q) (line : string) (kvs : list (string * json)) (m : MetricsAgg) :
  json_loads line = Some (JDict kvs) ->
  inv m ->
  exists b m',
    _bucket_start m (parse_ts now (py_or (dict_get kvs "ts") (JStr EmptyString)))
    = Some b /\
    update_line now line m = Done m' /\
    let c' := bump (truthy (dict_get kvs "success"))
                (default (0%nat, 0%nat) (bucket_map m !! b)) in
    bucket_map m' !! b = Some c' /\
    (b, fst c', snd c') ∈ timeline m' /\
    forall b' c, b' <> b ->
      bucket_map m' !! b' = Some c -> bucket_map m !! b' = Some c.
Proof.
  intros Hl Hinv.
  destruct (update_line_record now line kvs m Hl Hinv) as (b & c & Hb & Hc & Hu).
  cbv zeta in Hb, Hc, Hu.
  pose proof (count_record_inv kvs m Hinv) as Hinv1.
  exists b. eexists. split; [exact Hb|]. split; [exact Hu|].
  rewrite (ensure_bucket_counts b _ Hinv1) in Hc. injection Hc as <-.
  cbv zeta. simpl. split; [apply lookup_insert_eq|]. split.
  - pose proof (ensure_bucket_inv b _ Hinv1) as Hinv2.
    apply (elem_of_sync b _ _ _ (inv_nodup _ Hinv2)).
    + apply (agrees_is_Some _ _ b (inv_index _ Hinv2)).
      apply ensure_bucket_lookup, Hinv1.
    + left. reflexivity.
  - intros b' c Hne. rewrite lookup_insert_ne by congruence.
    apply (ensure_bucket_others b (count_record kvs m) b' c Hinv1 Hne).
Qed.

End Records.

(** X13: [_ensure_bucket] on a session state: the bucket is in the index
    afterwards, with the counts it had or with zero counts, and ensuring
    it again changes nothing. *)
Theorem ensure_bucket_is_idempotent (b : Z) (m : MetricsAgg) :
  inv m ->
  bucket_map (_ensure_bucket b m) !! b
  = Some (default (0%nat, 0%nat) (bucket_map m !! b)) /\
  _ensure_bucket b (_ensure_bucket b m) = _ensure_bucket b m.
Proof.
  intros Hinv. pose proof (ensure_bucket_counts b m Hinv) as Hc.
  split; [exact Hc|]. eapply ensure_bucket_present. exact Hc.
Qed.

(** X14: After a change of the bucket width the next backfill starts a new
    timeline: it returns, the timeline is the one empty bucket of the new
    width that contains [now], and the totals and per-category counters
    are those from before the change. *)
Theorem width_change_then_backfill (sec : Z) (now : Q) (m : MetricsAgg) :
  inv m ->
  exists b m',
    ensure_buckets_to now (set_bucket_seconds sec m) = Done m' /\
    bucket_seconds m' = Z.max 1 sec /\
    (Z.max 1 sec | b) /\
    (inject_Z b <= now)%Q /\ (now < inject_Z (b + Z.max 1 sec))%Q /\
    timeline m' = [(b, 0%nat, 0%nat)] /\
    bucket_map m' = {[b := (0%nat, 0%nat)]} /\
    success m' = success m /\ fail m' = fail m /\
    per_instance m' = per_instance m /\ per_region m' = per_region m.
Proof.
  intros Hinv. pose proof (set_bucket_seconds_inv sec m Hinv) as Hinv1.
  set (m1 := set_bucket_seconds sec m) in *.
  assert (Hw : 1 <= bucket_seconds m1) by apply Hinv1.
  pose proof (bucket_start_floor m1 now ltac:(lia)) as Hb.
  remember (bucket_seconds m1 * Qfloor (now / inject_Z (bucket_seconds m1)))
    as b eqn:Eb.
  destruct (bucket_start_contains m1 now b Hw Hb) as [Hlo Hhi].
  exists b, (set_buckets [(b, 0%nat, 0%nat)] {[b := (0%nat, 0%nat)]} m1).
  split.
  - unfold ensure_buckets_to. change (last (timeline m1)) with (@None bucket).
    cbv beta iota. rewrite Hb.
    rewrite (ensure_bucket_on_empty b m1 Hinv1 eq_refl). reflexivity.
  - split; [reflexivity|]. split.
    + rewrite Eb. exists (Qfloor (now / inject_Z (bucket_seconds m1))).
      change (bucket_seconds m1) with (Z.max 1 sec). lia.
    + split; [exact Hlo|]. split; [exact Hhi|]. repeat split.
Qed.

(** ** Sample runs of the aggregator *)

Lemma totals_are_category_sums_witness :
  @reachable sample_runtime (after two_records) /\
  success (after two_records) = sum_success (per_region (after two_records)) /\
  success (after two_records) = sum_success (per_instance (after two_records)) /\
  fail (after two_records) = sum_fail (per_region (after two_records)) /\
  fail (after two_records) = sum_fail (per_instance (after two_records)).
Proof.
  split; [apply after_reachable|].
  apply (@totals_are_category_sums sample_runtime), after_reachable.
Defined.

Lemma timeline_counts_within_totals_witness :
  @reachable sample_runtime (after (two_records ++ [OpSetWidth 20])) /\
  (timeline_success (timeline (after (two_records ++ [OpSetWidth 20])))
   <= success (after (two_records ++ [OpSetWidth 20])))%nat /\
  (timeline_fail (timeline (after (two_records ++ [OpSetWidth 20])))
   <= fail (after (two_records ++ [OpSetWidth 20])))%nat.
Proof.
  split; [apply after_reachable|].
  apply (@timeline_counts_within_totals sample_runtime), after_reachable.
Defined.

Lemma bucket_starts_are_multiples_of_width_witness :
  (epoch_2024 + 100) ∈ starts (timeline (after distant_records)) /\
  (bucket_seconds (after distant_records) | epoch_2024 + 100).
Proof.
  assert (Hin : (epoch_2024 + 100) ∈ starts (timeline (after distant_records))).
  { assert (Hs : starts (timeline (after distant_records))
                 = [epoch_2024; epoch_2024 + 100]) by (vm_compute; reflexivity).
    rewrite Hs. right. left. }
  split; [exact Hin|].
  exact (@bucket_starts_are_multiples_of_width sample_runtime
           (after distant_records) (epoch_2024 + 100)
           (after_reachable distant_records) Hin).
Defined.

Lemma backfill_reaches_bucket_of_now_witness :
  exists m',
    ensure_buckets_to (inject_Z (epoch_2024 + 35)) (after two_records) = Done m' /\
    (epoch_2024 + 30) ∈ starts (timeline m') /\
    is_Some (bucket_map m' !! (epoch_2024 + 30)).
Proof.
  destruct (@backfill_reaches_bucket_of_now sample_runtime (after two_records)
              (inject_Z (epoch_2024 + 35)) (epoch_2024 + 30)
              (after_reachable two_records)) as [Hfill _].
  - vm_compute. reflexivity.
  - apply Hfill. right. exists epoch_2024. split; [vm_compute; reflexivity|].
    vm_compute. discriminate.
Defined.

Lemma backfill_twice_is_backfill_once_witness :
  exists m',
    ensure_buckets_to (inject_Z (epoch_2024 + 35)) (after two_records) = Done m' /\
    ensure_buckets_to (inject_Z (epoch_2024 + 35)) m' = Done m'.
Proof.
  apply (@backfill_twice_is_backfill_once sample_runtime).
  - apply after_reachable.
  - right. exists epoch_2024. split; [vm_compute; reflexivity|].
    intros x Hx.
    assert (Hs : starts (timeline (after two_records)) = [epoch_2024])
      by (vm_compute; reflexivity).
    rewrite Hs in Hx. apply list_elem_of_singleton in Hx. subst x. reflexivity.
Defined.

Lemma update_keeps_the_offsets_of_its_poll_witness :
  let fs := one_file (line_number +:+ newline +:+ line_ok_0 +:+ newline)%string in
  let m' := set_tail (fst (@read_new_lines wider_runtime fs (tail fresh))) fresh in
  @update wider_runtime fs (inject_Z (epoch_2024 + 7)) fresh
  = Raised AttributeError m' /\
  tail m' = fst (@read_new_lines wider_runtime fs (tail fresh)) /\
  positions (tail m') !! sample_path = Some 93%nat.
Proof.
  intros fs m'.
  assert (Hu : @update wider_runtime fs (inject_Z (epoch_2024 + 7)) fresh
               = Raised AttributeError m') by (vm_compute; reflexivity).
  split; [exact Hu|]. split.
  - apply (@update_keeps_the_offsets_of_its_poll wider_runtime fs
             (inject_Z (epoch_2024 + 7)) fresh m').
    right. exists AttributeError. exact Hu.
  - vm_compute. reflexivity.
Defined.

Lemma non_object_json_line_raises_witness :
  @json_loads wider_runtime line_number = Some (JInt 123) /\
  forall now path rest m,
    @ingest wider_runtime now ((path, line_number) :: rest) m
    = Raised AttributeError m.
Proof.
  split; [vm_compute; reflexivity|].
  apply (@non_object_json_line_raises wider_runtime line_number (JInt 123)).
  - vm_compute. reflexivity.
  - intros kvs. discriminate.
Defined.

Lemma truthy_success_counts_as_success_witness :
  exists m',
    @ingest wider_runtime (inject_Z (epoch_2024 + 7))
      [(sample_path, line_success_text)] fresh = Done m' /\
    success m' = 1%nat /\ fail m' = 0%nat.
Proof.
  destruct (@truthy_success_counts_as_success wider_runtime
              (inject_Z (epoch_2024 + 7)) sample_path line_success_text
              [("ts"%string, JStr "2024-01-01T00:00:05");
               ("success"%string, JStr "false")] fresh)
    as (m' & Hi & Hs & Hf & _).
  - vm_compute. reflexivity.
  - reflexivity.
  - apply init_inv.
  - exists m'. split; [exact Hi|]. split; [exact Hs | exact Hf].
Defined.

Lemma missing_category_is_counted_as_unknown_witness :
  exists m',
    @ingest wider_runtime (inject_Z (epoch_2024 + 7))
      [(sample_path, line_success_text)] fresh = Done m' /\
    counts_of (per_instance m') "unknown" = (1%nat, 0%nat).
Proof.
  destruct (@missing_category_is_counted_as_unknown wider_runtime
              (inject_Z (epoch_2024 + 7)) sample_path line_success_text
              "instance_id"
              [("ts"%string, JStr "2024-01-01T00:00:05");
               ("success"%string, JStr "false")] fresh)
    as (_ & m' & Hi & Hinst & _).
  - vm_compute. reflexivity.
  - left. intros v Hin.
    repeat (apply elem_of_cons in Hin as [Hin | Hin]; [discriminate Hin|]).
    apply elem_of_nil in Hin. exact Hin.
  - apply init_inv.
  - exists m'. split; [exact Hi|]. rewrite (Hinst eq_refl). reflexivity.
Defined.

Lemma record_increments_its_bucket_witness :
  exists m',
    @update_line sample_runtime (inject_Z (epoch_2024 + 7)) line_ok_0
      (after two_records) = Done m' /\
    bucket_map m' !! epoch_2024 = Some (2%nat, 1%nat) /\
    (epoch_2024, 2%nat, 1%nat) ∈ timeline m'.
Proof.
  destruct (@record_increments_its_bucket sample_runtime
              (inject_Z (epoch_2024 + 7)) line_ok_0
              [("ts"%string, JStr "2024-01-01T00:00:00");
               ("success"%string, JBool true); ("instance_id"%string, JStr "a");
               ("batch_region"%string, JStr "r1")] (after two_records))
    as (b & m' & Hb & Hu & Hc & Hin & _).
  - vm_compute. reflexivity.
  - apply (@reachable_inv sample_runtime), after_reachable.
  - assert (Hb' : _bucket_start (after two_records)
                    (@parse_ts sample_runtime (inject_Z (epoch_2024 + 7))
                       (py_or (dict_get
                                 [("ts"%string, JStr "2024-01-01T00:00:00");
                                  ("success"%string, JBool true);
                                  ("instance_id"%string, JStr "a");
                                  ("batch_region"%string, JStr "r1")] "ts")
                              (JStr EmptyString)))
                  = Some epoch_2024) by (vm_compute; reflexivity).
    assert (Eb : b = epoch_2024) by congruence. subst b.
    assert (Hold : bucket_map (after two_records) !! epoch_2024
                   = Some (1%nat, 1%nat)) by (vm_compute; reflexivity).
    rewrite Hold in Hc, Hin.
    exists m'. split; [exact Hu|]. split; [exact Hc | exact Hin].
Defined.

Lemma ensure_bucket_is_idempotent_witness :
  inv fresh /\
  bucket_map (_ensure_bucket epoch_2024 fresh) !! epoch_2024
  = Some (default (0%nat, 0%nat) (bucket_map fresh !! epoch_2024)) /\
  _ensure_bucket epoch_2024 (_ensure_bucket epoch_2024 fresh)
  = _ensure_bucket epoch_2024 fresh.
Proof.
  split; [apply init_inv|].
  apply ensure_bucket_is_idempotent, init_inv.
Defined.

Lemma width_change_then_backfill_witness :
  inv fresh /\
  exists b m',
    ensure_buckets_to (inject_Z (epoch_2024 + 7)) (set_bucket_seconds 0 fresh)
    = Done m' /\
    bucket_seconds m' = 1 /\ timeline m' = [(b, 0%nat, 0%nat)].
Proof.
  split; [apply init_inv|].
  destruct (width_change_then_backfill 0 (inject_Z (epoch_2024 + 7)) fresh
              (init_inv _ _ _))
    as (b & m' & He & Hbs & _ & _ & _ & Htl & _).
  exists b, m'. split; [exact He|]. split; [exact Hbs | exact Htl].
Defined.

(** ** More on the tailer *)

Lemma string_leb_trans (a b c : string) :
  String.leb a b = true -> String.leb b c = true -> String.leb a c = true.
Proof.
  unfold String.leb. revert b c.
  induction a as [|x a IH]; intros [|y b] [|z c]; simpl; try reflexivity;
    try discriminate.
  unfold Ascii.compare.
  destruct (N.compare_spec (N_of_ascii x) (N_of_ascii y)) as [Hxy|Hxy|Hxy];
    destruct (N.compare_spec (N_of_ascii y) (N_of_ascii z)) as [Hyz|Hyz|Hyz];
    try discriminate; intros H1 H2.
  - rewrite Hxy, Hyz, N.compare_refl. eapply IH; eassumption.
  - rewrite Hxy. apply N.compare_lt_iff in Hyz. rewrite Hyz. reflexivity.
  - rewrite <- Hyz. apply N.compare_lt_iff in Hxy. rewrite Hxy. reflexivity.
  - assert (Hxz : (N_of_ascii x < N_of_ascii z)%N) by lia.
    apply N.compare_lt_iff in Hxz. rewrite Hxz. reflexivity.
Qed.

#[local] Instance path_le_trans : Transitive path_le.
Proof. intros a b c. unfold path_le. apply string_leb_trans. Qed.

#[local] Instance path_le_total : Total path_le.
Proof. intros a b. unfold path_le. apply String.leb_total. Qed.

Lemma path_le_refl a : path_le a a.
Proof. destruct (String.leb_total a a); assumption. Qed.

Lemma StronglySorted_repeat {A} (R : relation A) (l1 l2 : list A) q n :
  (forall x, R x x) ->
  StronglySorted R (l1 ++ q :: l2) -> StronglySorted R (l1 ++ replicate n q ++ l2).
Proof.
  intros Hrefl. induction l1 as [|x l1 IH]; simpl; intros Hs.
  - apply StronglySorted_inv in Hs as [Hs Hall].
    induction n as [|n IHn]; simpl; [exact Hs|].
    constructor; [exact IHn|].
    apply Forall_app. split; [|exact Hall].
    apply Forall_forall. intros y Hy. apply elem_of_replicate in Hy as [-> _].
    apply Hrefl.
  - apply StronglySorted_inv in Hs as [Hs Hall]. constructor; [apply IH, Hs|].
    rewrite Forall_app in Hall. destruct Hall as [H1 H2].
    apply Forall_cons in H2 as [Hq H2].
    rewrite !Forall_app. split; [exact H1|]. split; [|exact H2].
    apply Forall_forall. intros y Hy. apply elem_of_replicate in Hy as [-> _].
    exact Hq.
Qed.

Section Polling.

Context `{RT : Runtime}.

(** What a poll does about one of its files is what the round of that
    file does, started from the offset recorded before the poll. *)
Lemma poll_at_path fs t path :
  path ∈ glob fs (pattern t) -> NoDup (glob fs (pattern t)) ->
  exists posn1 lines1,
    posn1 !! path = positions t !! path /\
    lines_of path lines1 = [] /\
    positions (fst (read_new_lines fs t)) !! path
    = fst (tail_file fs path (posn1, lines1)) !! path /\
    lines_of path (snd (read_new_lines fs t))
    = lines_of path (snd (tail_file fs path (posn1, lines1))).
Proof.
  intros Hin Hnd. unfold read_new_lines.
  apply (sorted_glob_elem fs) in Hin. apply (sorted_glob_NoDup fs) in Hnd.
  destruct (list_elem_of_split _ _ Hin) as (l1 & l2 & Hsplit).
  rewrite Hsplit in Hnd |- *.
  apply NoDup_app in Hnd as (_ & Hl1 & Hnd2).
  apply NoDup_cons in Hnd2 as [Hl2 _].
  assert (Hn1 : path ∉ l1) by (intros H1; apply (Hl1 path H1); left).
  rewrite tail_files_app.
  destruct (tail_files_other fs l1 path (positions t, []) Hn1) as [Hp1 Hlines1].
  destruct (tail_files fs l1 (positions t, [])) as [posn1 lines1].
  exists posn1, lines1. simpl in Hp1, Hlines1.
  split; [exact Hp1|]. split; [exact Hlines1|].
  destruct (tail_files_other fs l2 path (tail_file fs path (posn1, lines1)) Hl2)
    as [Hp2 Hlines2].
  destruct (tail_files fs l2 (tail_file fs path (posn1, lines1))) as [posn2 lines2].
  simpl in *. split; [exact Hp2 | exact Hlines2].
Qed.

(** X15: A poll returns only what was appended: for a file that is larger than
    the offset recorded for it (0 for a file seen for the first time),
    the lines it returns for the file are the lines of the bytes from
    that offset on, and the new offset is the old one plus the number of
    bytes read. *)
Theorem poll_reads_from_the_recorded_offset
    (fs : FileSystem) (t : FileTail) (path : string) (size : nat)
    (chunk : list Byte.byte) :
  path ∈ glob fs (pattern t) ->
  NoDup (glob fs (pattern t)) ->
  getsize fs path = Got size ->
  (recorded t path < size)%nat ->
  read_from fs path (recorded t path) = Got chunk ->
  positions (fst (read_new_lines fs t)) !! path
  = Some (recorded t path + length chunk)%nat /\
  lines_of path (snd (read_new_lines fs t))
  = map (pair path) (splitlines (decode_utf8 chunk)).
Proof.
  intros Hin Hnd Hs Hlt Hread.
  destruct (poll_at_path fs t path Hin Hnd) as (posn1 & lines1 & Hp & Hl & -> & ->).
  unfold recorded in *. unfold tail_file. rewrite Hs, Hp.
  assert (E1 : (size <? default 0%nat (positions t !! path))%nat = false)
    by (apply Nat.ltb_ge; lia).
  rewrite E1. apply Nat.ltb_lt in Hlt. rewrite Hlt, Hread. simpl.
  rewrite lookup_insert_eq, lines_of_app, Hl, lines_of_same.
  split; reflexivity.
Qed.

(** X16: A file of the poll that cannot be read yields no line.  When it is
    gone ([FileNotFoundError], from [getsize] or from [open]) its offset
    is forgotten; on any other error the offset stays as it was, so
    nothing of the file is skipped. *)
Theorem unreadable_file_yields_no_line
    (fs : FileSystem) (t : FileTail) (path : string) :
  path ∈ glob fs (pattern t) ->
  NoDup (glob fs (pattern t)) ->
  let t' := fst (read_new_lines fs t) in
  let lines := snd (read_new_lines fs t) in
  (getsize fs path = NotFound ->
   positions t' !! path = None /\ lines_of path lines = []) /\
  (getsize fs path = OtherError ->
   positions t' !! path = positions t !! path /\ lines_of path lines = []) /\
  (forall size,
     getsize fs path = Got size ->
     let pos := if (size <? recorded t path)%nat then 0%nat else recorded t path in
     (pos < size)%nat ->
     (read_from fs path pos = NotFound ->
      positions t' !! path = None /\ lines_of path lines = []) /\
     (read_from fs path pos = OtherError ->
      positions t' !! path = positions t !! path /\ lines_of path lines = [])).
Proof.
  intros Hin Hnd t' lines. subst t' lines.
  destruct (poll_at_path fs t path Hin Hnd) as (posn1 & lines1 & Hp & Hl & -> & ->).
  unfold tail_file, recorded. split; [|split].
  - intros ->. simpl. rewrite lookup_delete_eq. split; [reflexivity | exact Hl].
  - intros ->. simpl. split; [exact Hp | exact Hl].
  - intros size Hs. cbv zeta. intros Hlt. rewrite Hs, Hp.
    apply Nat.ltb_lt in Hlt. rewrite Hlt. split.
    + intros ->. simpl. rewrite lookup_delete_eq. split; [reflexivity | exact Hl].
    + intros ->. simpl. split; [exact Hp | exact Hl].
Qed.

(** X17: A path the pattern does not match in this poll is not touched: it
    yields no line and the offset recorded for it stays, so a file that
    matches again later is continued, not read anew. *)
Theorem unmatched_path_keeps_its_offset
    (fs : FileSystem) (t : FileTail) (path : string) :
  path ∉ glob fs (pattern t) ->
  positions (fst (read_new_lines fs t)) !! path = positions t !! path /\
  lines_of path (snd (read_new_lines fs t)) = [].
Proof.
  intros Hnot. unfold read_new_lines.
  assert (Hn : path ∉ merge_sort path_le (glob fs (pattern t))).
  { intros H. apply Hnot. apply (sorted_glob_elem fs). exact H. }
  destruct (tail_files_other fs _ path (positions t, []) Hn) as [Hp Hl].
  destruct (tail_files fs _ (positions t, [])) as [posn lines].
  simpl in *. split; [exact Hp | exact Hl].
Qed.

(** The round of a file leaves its recorded offset at the size of the
    file, when the read returns the rest of the file. *)
Lemma tail_file_reaches_size fs q posn lines size :
  (forall pos, (pos < size)%nat ->
     exists chunk, read_from fs q pos = Got chunk /\
                   length chunk = (size - pos)%nat) ->
  getsize fs q = Got size ->
  default 0%nat (fst (tail_file fs q (posn, lines)) !! q) = size.
Proof.
  intros Hread Hs. unfold tail_file. rewrite Hs.
  set (pos := if (size <? default 0%nat (posn !! q))%nat then 0%nat
              else default 0%nat (posn !! q)).
  cbv zeta. fold pos.
  destruct (pos <? size)%nat eqn:E.
  - apply Nat.ltb_lt in E. destruct (Hread pos E) as (chunk & -> & Hlen).
    simpl. rewrite lookup_insert_eq. simpl. lia.
  - simpl. rewrite lookup_insert_eq. reflexivity.
Qed.

Lemma tail_files_reach_size fs files :
  (forall q size pos, getsize fs q = Got size -> (pos < size)%nat ->
     exists chunk, read_from fs q pos = Got chunk /\
                   length chunk = (size - pos)%nat) ->
  forall acc q size,
    q ∈ files -> getsize fs q = Got size ->
    default 0%nat (fst (tail_files fs files acc) !! q) = size.
Proof.
  intros Hread. induction files as [|p rest IH]; intros [posn lines] q size Hin Hs.
  - inversion Hin.
  - change (tail_files fs (p :: rest) (posn, lines))
      with (tail_files fs rest (tail_file fs p (posn, lines))).
    destruct (decide (q ∈ rest)) as [Hr | Hnr].
    + apply IH; assumption.
    + apply elem_of_cons in Hin as [-> | Hin]; [|contradiction].
      destruct (tail_files_other fs rest p (tail_file fs p (posn, lines)) Hnr)
        as [Hp _].
      rewrite Hp. apply tail_file_reaches_size; [|exact Hs].
      intros pos Hpos. apply (Hread p size pos Hs Hpos).
Qed.

(** Files whose recorded offset is their size, or that cannot be stat'ed,
    yield nothing. *)
Lemma tail_files_quiet fs files :
  forall (posn : gmap string nat) lines,
    (forall q size, q ∈ files -> getsize fs q = Got size ->
                    default 0%nat (posn !! q) = size) ->
    snd (tail_files fs files (posn, lines)) = lines.
Proof.
  induction files as [|p rest IH]; intros posn lines Hrec; [reflexivity|].
  change (tail_files fs (p :: rest) (posn, lines))
    with (tail_files fs rest (tail_file fs p (posn, lines))).
  assert (Hstep : exists posn',
             tail_file fs p (posn, lines) = (posn', lines) /\
             forall q size, q ∈ rest -> getsize fs q = Got size ->
                            default 0%nat (posn' !! q) = size).
  { unfold tail_file. destruct (getsize fs p) as [size| |] eqn:Hs.
    - rewrite (Hrec p size) by (left || exact Hs). simpl.
      rewrite !Nat.ltb_irrefl. eexists. split; [reflexivity|].
      intros q sz Hq Hsz. destruct (decide (p = q)) as [<-|Hne].
      + rewrite lookup_insert_eq. simpl. congruence.
      + rewrite lookup_insert_ne by exact Hne. apply Hrec; [right; exact Hq | exact Hsz].
    - eexists. split; [reflexivity|].
      intros q sz Hq Hsz. destruct (decide (p = q)) as [<-|Hne]; [congruence|].
      rewrite lookup_delete_ne by exact Hne. apply Hrec; [right; exact Hq | exact Hsz].
    - eexists. split; [reflexivity|].
      intros q sz Hq Hsz. apply Hrec; [right; exact Hq | exact Hsz]. }
  destruct Hstep as (posn' & -> & Hrec'). apply IH. exact Hrec'.
Qed.

(** X18: Polling again while no file has changed returns nothing: after a poll
    of a file system whose reads return the rest of each file, a second
    poll of the same file system yields no line. *)
Theorem second_poll_of_unchanged_files_is_empty (fs : FileSystem) (t : FileTail) :
  (forall q size pos, getsize fs q = Got size -> (pos < size)%nat ->
     exists chunk, read_from fs q pos = Got chunk /\
                   length chunk = (size - pos)%nat) ->
  snd (read_new_lines fs (fst (read_new_lines fs t))) = [].
Proof.
  intros Hread. unfold read_new_lines at 1.
  assert (Hpat : pattern (fst (read_new_lines fs t)) = pattern t).
  { unfold read_new_lines. destruct (tail_files _ _ _). reflexivity. }
  rewrite Hpat.
  assert (Hq : snd (tail_files fs (merge_sort path_le (glob fs (pattern t)))
                      (positions (fst (read_new_lines fs t)), [])) = []).
  { apply tail_files_quiet. intros q size Hin Hs.
    unfold read_new_lines. 
    pose proof (tail_files_reach_size fs _ Hread (positions t, []) q size Hin Hs) as H.
    destruct (tail_files fs _ (positions t, [])) as [posn lines]. exact H. }
  destruct (tail_files fs _ (positions (fst (read_new_lines fs t)), [])) as [p l].
  exact Hq.
Qed.

Lemma tail_files_sorted fs files :
  forall posn lines,
    StronglySorted path_le (map fst lines ++ files) ->
    StronglySorted path_le (map fst (snd (tail_files fs files (posn, lines)))) /\
    forall p, p ∈ map fst (snd (tail_files fs files (posn, lines))) ->
              p ∈ map fst lines \/ p ∈ files.
Proof.
  induction files as [|q rest IH]; intros posn lines Hs.
  - rewrite app_nil_r in Hs. split; [exact Hs | tauto].
  - change (tail_files fs (q :: rest) (posn, lines))
      with (tail_files fs rest (tail_file fs q (posn, lines))).
    assert (Hstep : exists posn' n,
               tail_file fs q (posn, lines) = (posn', snd (tail_file fs q (posn, lines))) /\
               map fst (snd (tail_file fs q (posn, lines)))
               = map fst lines ++ replicate n q).
    { unfold tail_file. destruct (getsize fs q) as [size| |];
        try (eexists _, 0%nat; simpl; rewrite app_nil_r; split; reflexivity).
      destruct (_ <? size)%nat;
        try (eexists _, 0%nat; simpl; rewrite app_nil_r; split; reflexivity).
      destruct (read_from fs q _) as [chunk| |];
        try (eexists _, 0%nat; simpl; rewrite app_nil_r; split; reflexivity).
      eexists _, (length (splitlines (decode_utf8 chunk))). simpl.
      split; [reflexivity|]. rewrite map_app. f_equal.
      induction (splitlines (decode_utf8 chunk)) as [|l ls IHl]; [reflexivity|].
      simpl. rewrite IHl. reflexivity. }
    destruct Hstep as (posn' & n & Hq & Hmap). rewrite Hq.
    destruct (IH posn' (snd (tail_file fs q (posn, lines)))) as [Hsorted Hsub].
    + rewrite Hmap, <- app_assoc.
      apply StronglySorted_repeat; [apply path_le_refl | exact Hs].
    + split; [exact Hsorted|]. intros p Hp.
      apply Hsub in Hp as [Hp | Hp]; [|right; right; exact Hp].
      rewrite Hmap in Hp. apply elem_of_app in Hp as [Hp | Hp]; [left; exact Hp|].
      apply elem_of_replicate in Hp as [-> _]. right. left.
Qed.

(** X19: The lines of a poll come in the sorted order of their paths, the
    lines of one file together, and every line is tagged with a path the
    pattern matched. *)
Theorem poll_lines_follow_sorted_paths (fs : FileSystem) (t : FileTail) :
  StronglySorted path_le (map fst (snd (read_new_lines fs t))) /\
  forall path line,
    (path, line) ∈ snd (read_new_lines fs t) -> path ∈ glob fs (pattern t).
Proof.
  unfold read_new_lines.
  destruct (tail_files_sorted fs (merge_sort path_le (glob fs (pattern t)))
              (positions t) []) as [Hs Hsub].
  { simpl. apply StronglySorted_merge_sort; apply _. }
  destruct (tail_files fs _ (positions t, [])) as [posn lines]. simpl in *.
  split; [exact Hs|]. intros path line Hin.
  destruct (Hsub path) as [H | H].
  - change path with (fst (path, line)). apply list_elem_of_fmap_2. exact Hin.
  - inversion H.
  - apply (sorted_glob_elem fs). exact H.
Qed.

End Polling.

Lemma poll_reads_from_the_recorded_offset_witness :
  let fs := one_file (line_garbage +:+ newline +:+ line_ok_0 +:+ newline)%string in
  let t := with_position sample_path 11 (FileTail_init "metrics/*.jsonl") in
  positions (fst (@read_new_lines sample_runtime fs t)) !! sample_path
  = Some (11 + 89)%nat /\
  lines_of sample_path (snd (@read_new_lines sample_runtime fs t))
  = [(sample_path, line_ok_0)].
Proof.
  intros fs t.
  destruct (@poll_reads_from_the_recorded_offset sample_runtime fs t sample_path
              100 (list_byte_of_string (line_ok_0 +:+ newline)%string))
    as [Hp Hl].
  - vm_compute. left.
  - vm_compute. apply NoDup_singleton.
  - vm_compute. reflexivity.
  - vm_compute. lia.
  - vm_compute. reflexivity.
  - split.
    + rewrite Hp. vm_compute. reflexivity.
    + rewrite Hl. vm_compute. reflexivity.
Defined.

Lemma unreadable_file_yields_no_line_witness :
  let fs := {| glob := fun _ => [sample_path];
               getsize := fun _ => NotFound;
               read_from := fun _ _ => NotFound |} in
  let t := with_position sample_path 11 (FileTail_init "metrics/*.jsonl") in
  positions (fst (@read_new_lines sample_runtime fs t)) !! sample_path = None /\
  lines_of sample_path (snd (@read_new_lines sample_runtime fs t)) = [].
Proof.
  intros fs t.
  destruct (@unreadable_file_yields_no_line sample_runtime fs t sample_path)
    as [Hgone _].
  - vm_compute. left.
  - vm_compute. apply NoDup_singleton.
  - apply Hgone. reflexivity.
Defined.

Lemma unmatched_path_keeps_its_offset_witness :
  let fs := one_file (line_garbage +:+ newline)%string in
  let t := with_position "metrics/old.jsonl" 7 (FileTail_init "metrics/*.jsonl") in
  positions (fst (@read_new_lines sample_runtime fs t)) !! "metrics/old.jsonl"
  = Some 7%nat /\
  lines_of "metrics/old.jsonl" (snd (@read_new_lines sample_runtime fs t)) = [].
Proof.
  intros fs t.
  destruct (@unmatched_path_keeps_its_offset sample_runtime fs t "metrics/old.jsonl")
    as [Hp Hl].
  - vm_compute. intros Hin. apply list_elem_of_singleton in Hin. discriminate Hin.
  - split; [rewrite Hp; vm_compute; reflexivity | exact Hl].
Defined.

Lemma second_poll_of_unchanged_files_is_empty_witness :
  let fs := one_file (line_garbage +:+ newline +:+ line_ok_0 +:+ newline)%string in
  let t := FileTail_init "metrics/*.jsonl" in
  snd (@read_new_lines sample_runtime fs t)
  = [(sample_path, line_garbage); (sample_path, line_ok_0)] /\
  snd (@read_new_lines sample_runtime fs (fst (@read_new_lines sample_runtime fs t)))
  = [].
Proof.
  intros fs t. split; [vm_compute; reflexivity|].
  apply (@second_poll_of_unchanged_files_is_empty sample_runtime).
  intros q size pos Hs Hpos. unfold fs, one_file in *. simpl in *.
  destruct (String.eqb q sample_path); [|discriminate].
  eexists. split; [reflexivity|]. rewrite length_drop.
  injection Hs as <-. f_equal.
Defined.

(** ** More on the ASCII timeline *)

Lemma length_append (a b : string) :
  String.length (a +:+ b) = (String.length a + String.length b)%nat.
Proof. induction a as [|c a IH]; simpl; [reflexivity | rewrite IH; reflexivity]. Qed.

Lemma length_spaces n : String.length (spaces n) = n.
Proof. induction n as [|n IH]; simpl; [reflexivity | rewrite IH; reflexivity]. Qed.

Lemma length_string_of_list_ascii (l : list ascii) :
  String.length (string_of_list_ascii l) = length l.
Proof. induction l as [|c l IH]; simpl; [reflexivity | rewrite IH; reflexivity]. Qed.

Lemma length_substring_0 n (s : string) :
  String.length (substring 0 n s) = Nat.min n (String.length s).
Proof.
  revert s. induction n as [|n IH]; intros [|c s]; simpl; try reflexivity.
  rewrite IH. reflexivity.
Qed.

Lemma length_ljust s n :
  String.length (ljust s n) = Nat.max (String.length s) (Z.to_nat n).
Proof. unfold ljust. rewrite length_append, length_spaces. lia. Qed.

Lemma length_put s w :
  (Z.to_nat (Z.max 0 (w - 1)) <= String.length s)%nat ->
  String.length (_put s w) = Z.to_nat (Z.max 0 (w - 1)).
Proof. intros H. unfold _put. rewrite length_substring_0. lia. Qed.

Lemma slice_from_last {A : Type} (n : Z) (l : list A) :
  1 <= n ->
  slice_from (- n) l = drop (length l - Z.to_nat n) l /\
  length (slice_from (- n) l) = Nat.min (length l) (Z.to_nat n).
Proof.
  intros Hn. unfold slice_from.
  destruct (- n <? 0) eqn:E; [|apply Z.ltb_ge in E; lia].
  rewrite Z.opp_involutive. split; [reflexivity|]. rewrite length_drop. lia.
Qed.

Lemma timeline_rows_columns maxv data :
  forall sl fl,
    timeline_rows maxv data = Some (sl, fl) ->
    length sl = length data /\ length fl = length data /\
    forall i e, data !! i = Some e ->
      sl !! i = s_char maxv e /\ fl !! i = Some (f_char e).
Proof.
  induction data as [|e0 rest IH]; intros sl fl Hrows; simpl in Hrows.
  - injection Hrows as <- <-. split; [reflexivity|]. split; [reflexivity|].
    intros i e Hi. rewrite lookup_nil in Hi. discriminate.
  - destruct (s_char maxv e0) as [c|] eqn:Hc; [|discriminate].
    destruct (timeline_rows maxv rest) as [[sl0 fl0]|] eqn:Hrest; [|discriminate].
    injection Hrows as <- <-.
    destruct (IH sl0 fl0 eq_refl) as (Hls & Hlf & Hcol).
    split; [simpl; lia|]. split; [simpl; lia|].
    intros [|i] e Hi; simpl in Hi |- *.
    + injection Hi as <-. split; [symmetry; exact Hc | reflexivity].
    + apply Hcol, Hi.
Qed.

Lemma substring_0_all (s : string) :
  forall n, (String.length s <= n)%nat -> substring 0 n s = s.
Proof.
  induction s as [|c r IH]; intros [|n] Hn; simpl in *; try reflexivity; try lia.
  rewrite IH by lia. reflexivity.
Qed.

Lemma put_first (c : ascii) (s pad : string) :
  _put (String c s +:+ pad) 2 = String c EmptyString.
Proof.
  unfold _put. change (Z.to_nat (Z.max 0 (2 - 1))) with 1%nat.
  simpl. destruct (s +:+ pad); reflexivity.
Qed.

Lemma render_timeline_ascii_nonempty m width height :
  timeline m <> [] ->
  render_timeline_ascii m width height
  = match timeline_rows
            (window_max (slice_from (- Z.max 1 (width - 2)) (timeline m)))
            (slice_from (- Z.max 1 (width - 2)) (timeline m)) with
    | None => None
    | Some (sl, fl) =>
        if 2 <=? height
        then Some (ljust (string_of_list_ascii sl) (width - 1) +:+ newline +:+
                   ljust (string_of_list_ascii fl) (width - 1))%string
        else Some (ljust (string_of_list_ascii sl) (width - 1))
    end.
Proof.
  intros Hne. unfold render_timeline_ascii.
  destruct (timeline m) as [|e rest]; [contradiction | reflexivity].
Qed.

(** The rows of the loop over the window [tl[-n:]] draw the newest [n]
    buckets. *)
Lemma window_draws_newest (tl : list bucket) (n : Z) :
  1 <= n ->
  exists sl fl,
    timeline_rows (window_max (slice_from (- n) tl)) (slice_from (- n) tl)
    = Some (sl, fl) /\
    draws_newest tl (Z.to_nat n) sl fl.
Proof.
  intros Hn. destruct (slice_from_last n tl Hn) as [Hs Hlen].
  destruct (window_rows_show (slice_from (- n) tl)) as (sl & fl & Hrows & _).
  exists sl, fl. split; [exact Hrows|].
  destruct (timeline_rows_columns _ _ sl fl Hrows) as (Hls & Hlf & Hcol).
  unfold draws_newest. cbv zeta.
  replace (length tl - Nat.min (length tl) (Z.to_nat n))%nat
    with (length tl - Z.to_nat n)%nat by lia.
  rewrite <- Hs. rewrite Hls, Hlf, Hlen.
  split; [reflexivity|]. split; [reflexivity|].
  intros i e _ Hi. apply Hcol. rewrite Hs, lookup_drop. exact Hi.
Qed.

(** X20: What the renderers draw is the newest part of the timeline.  The
    rows of [render_timeline_ascii] hold one column for each of the last
    [max(1, width - 2)] buckets, for all buckets when there are fewer,
    the oldest of them on the left, then padding.  The rows of
    [TUI._draw_timeline_ascii] hold the last [w - 2] buckets in the same
    way for [w >= 3], and [_put] cuts nothing off.  For [w = 2] the
    slice [data[-0:]] is the whole timeline and [_put] leaves one
    column, that of the oldest bucket. *)
Theorem renderers_draw_the_newest_buckets (m : MetricsAgg) (width height : Z) :
  (timeline m <> [] ->
   exists sl fl,
     render_timeline_ascii m width height
     = Some (if 2 <=? height
             then (ljust (string_of_list_ascii sl) (width - 1) +:+ newline +:+
                   ljust (string_of_list_ascii fl) (width - 1))%string
             else ljust (string_of_list_ascii sl) (width - 1)) /\
     draws_newest (timeline m) (Z.to_nat (Z.max 1 (width - 2))) sl fl) /\
  (3 <= width ->
   exists sl fl,
     _draw_timeline_ascii m height width
     = Some (if 2 <=? height
             then [ljust (string_of_list_ascii sl) (width - 1);
                   ljust (string_of_list_ascii fl) (width - 1)]
             else [ljust (string_of_list_ascii sl) (width - 1)]) /\
     draws_newest (timeline m) (Z.to_nat (width - 2)) sl fl) /\
  (width = 2 ->
   forall e rest,
     timeline m = e :: rest ->
     exists c,
       s_char (window_max (timeline m)) e = Some c /\
       _draw_timeline_ascii m height width
       = Some (if 2 <=? height
               then [String c EmptyString; String (f_char e) EmptyString]
               else [String c EmptyString])).
Proof.
  split; [|split].
  - intros Hne.
    destruct (window_draws_newest (timeline m) (Z.max 1 (width - 2)) ltac:(lia))
      as (sl & fl & Hrows & Hdraw).
    exists sl, fl. split; [|exact Hdraw].
    rewrite (render_timeline_ascii_nonempty m width height Hne), Hrows.
    destruct (2 <=? height); reflexivity.
  - intros Hw.
    destruct (window_draws_newest (timeline m) (width - 2) ltac:(lia))
      as (sl & fl & Hrows & Hdraw).
    exists sl, fl. split; [|exact Hdraw]. unfold _draw_timeline_ascii.
    cbv zeta. rewrite Hrows. destruct Hdraw as (Hls & Hlf & _).
    assert (Hput : forall l : list ascii,
               (length l <= Z.to_nat (width - 2))%nat ->
               _put (ljust (string_of_list_ascii l) (width - 1)) width
               = ljust (string_of_list_ascii l) (width - 1)).
    { intros l Hl. unfold _put. apply substring_0_all.
      rewrite length_ljust, length_string_of_list_ascii. lia. }
    rewrite !Hput by lia. destruct (2 <=? height); reflexivity.
  - intros -> e rest Htl. unfold _draw_timeline_ascii. cbv zeta.
    change (slice_from (- (2 - 2)) (timeline m)) with (timeline m).
    destruct (window_rows_show (timeline m)) as (sl & fl & Hrows & _).
    rewrite Hrows. rewrite Htl in Hrows |- *. cbn [timeline_rows] in Hrows.
    destruct (s_char (window_max (e :: rest)) e) as [c|] eqn:Hc; [|discriminate].
    destruct (timeline_rows (window_max (e :: rest)) rest) as [[sl0 fl0]|];
      [|discriminate].
    injection Hrows as <- <-. exists c. split; [reflexivity|].
    unfold ljust. cbn [string_of_list_ascii]. rewrite !put_first.
    destruct (2 <=? height); reflexivity.
Qed.

(** X21: Every row the renderers produce has the width of the pane less one:
    the textual one for a non-empty timeline and [width >= 2], the curses
    one always, [max(0, w - 1)] characters; and there are two rows when
    the height is at least 2, one otherwise. *)
Theorem ascii_rows_have_the_pane_width (m : MetricsAgg) (width height : Z) :
  (timeline m <> [] -> 2 <= width ->
   exists s_row f_row,
     String.length s_row = Z.to_nat (width - 1) /\
     String.length f_row = Z.to_nat (width - 1) /\
     render_timeline_ascii m width height
     = Some (if 2 <=? height then (s_row +:+ newline +:+ f_row)%string
             else s_row)) /\
  (exists s_row f_row,
     String.length s_row = Z.to_nat (Z.max 0 (width - 1)) /\
     String.length f_row = Z.to_nat (Z.max 0 (width - 1)) /\
     _draw_timeline_ascii m height width
     = Some (if 2 <=? height then [s_row; f_row] else [s_row])).
Proof.
  split.
  - intros Hne Hw. unfold render_timeline_ascii.
    destruct (timeline m) as [|e rest] eqn:Htl; [contradiction|].
    set (data := slice_from (- Z.max 1 (width - 2)) (e :: rest)).
    destruct (window_rows_show data) as (sl & fl & -> & Hls & Hlf & _).
    destruct (slice_from_last (Z.max 1 (width - 2)) (e :: rest) ltac:(lia))
      as [_ Hlen]. fold data in Hlen.
    exists (ljust (string_of_list_ascii sl) (width - 1)),
           (ljust (string_of_list_ascii fl) (width - 1)).
    rewrite !length_ljust, !length_string_of_list_ascii, Hls, Hlf, Hlen.
    split; [lia|]. split; [lia|]. destruct (2 <=? height); reflexivity.
  - unfold _draw_timeline_ascii.
    set (data := slice_from (- (width - 2)) (timeline m)).
    destruct (window_rows_show data) as (sl & fl & -> & _).
    exists (_put (ljust (string_of_list_ascii sl) (width - 1)) width),
           (_put (ljust (string_of_list_ascii fl) (width - 1)) width).
    rewrite !length_put by (rewrite length_ljust; lia).
    split; [reflexivity|]. split; [reflexivity|].
    destruct (2 <=? height); reflexivity.
Qed.

Lemma ascii_rows_have_the_pane_width_witness :
  exists s_row f_row,
    String.length s_row = 9%nat /\ String.length f_row = 9%nat /\
    render_timeline_ascii (after one_failure) 10 2
    = Some (s_row +:+ newline +:+ f_row)%string.
Proof.
  destruct (ascii_rows_have_the_pane_width (after one_failure) 10 2) as [Hr _].
  destruct Hr as (s_row & f_row & Hs & Hf & Hrender).
  - vm_compute. discriminate.
  - lia.
  - exists s_row, f_row. split; [exact Hs|]. split; [exact Hf | exact Hrender].
Defined.

(** X22: The density glyph grows with the count: within a window whose largest
    total is [maxv], a bucket with more events never gets a lower index
    of the ramp, an empty bucket shows a space in both rows, and a bucket
    that has the largest total and at least one failure shows the top of
    the ramp, [@]. *)
Theorem density_glyph_is_monotone (maxv v1 v2 : nat) :
  (1 <= maxv)%nat -> (v1 <= v2)%nat -> (v2 <= maxv)%nat ->
  (density_index maxv v1 <= density_index maxv v2)%nat /\
  (density_index maxv v2 <= 9)%nat /\
  (forall b, s_char maxv (b, 0%nat, 0%nat) = Some " "%char /\
             f_char (b, 0%nat, 0%nat) = " "%char) /\
  (forall b s f, f <> 0%nat -> (s + f)%nat = maxv ->
                 s_char maxv (b, s, f) = Some "@"%char).
Proof.
  intros Hm H12 H2.
  destruct (density_index_bound maxv v1 Hm ltac:(lia)) as [E1 _].
  destruct (density_index_bound maxv v2 Hm H2) as [E2 B2].
  rewrite E1, E2. split; [apply Nat.Div0.div_le_mono; lia|].
  split; [exact B2|]. split.
  - intros b. split; [|reflexivity]. unfold s_char. simpl.
    destruct (density_index_bound maxv 0 Hm ltac:(lia)) as [E0 _].
    rewrite E0. simpl. rewrite Nat.Div0.div_0_l. reflexivity.
  - intros b s f Hf Hsum. unfold s_char.
    destruct (f =? 0)%nat eqn:Ef; [apply Nat.eqb_eq in Ef; contradiction|].
    rewrite andb_false_r.
    destruct (density_index_bound maxv (s + f) Hm ltac:(lia)) as [E _].
    rewrite E, Hsum.
    replace (9 * maxv / maxv)%nat with 9%nat; [reflexivity|].
    symmetry. apply Nat.div_mul. lia.
Qed.

Lemma density_glyph_is_monotone_witness :
  (density_index 4 1 <= density_index 4 3)%nat /\
  (density_index 4 3 <= 9)%nat /\
  s_char 4 (epoch_2024, 1%nat, 3%nat) = Some "@"%char.
Proof.
  destruct (density_glyph_is_monotone 4 1 3) as (H1 & H2 & _ & Htop);
    [lia | lia | lia |].
  split; [exact H1|]. split; [exact H2|]. apply Htop; [discriminate | reflexivity].
Defined.

Lemma renderers_draw_the_newest_buckets_witness :
  exists sl fl,
    _draw_timeline_ascii (after idle_session) 2 10
    = Some [ljust (string_of_list_ascii sl) (10 - 1);
            ljust (string_of_list_ascii fl) (10 - 1)] /\
    draws_newest (timeline (after idle_session)) (Z.to_nat (10 - 2)) sl fl /\
    length sl = 8%nat.
Proof.
  destruct (renderers_draw_the_newest_buckets (after idle_session) 10 2)
    as (_ & Hw & _).
  destruct (Hw ltac:(lia)) as (sl & fl & Hdraw & Hnew).
  exists sl, fl. split; [exact Hdraw|]. split; [exact Hnew|].
  destruct Hnew as (Hls & _).
  assert (Hlen : length (timeline (after idle_session)) = 72%nat)
    by (vm_compute; reflexivity).
  rewrite Hlen in Hls. rewrite Hls. reflexivity.
Defined.

(** ** Chart mode *)

(** X23: The effective chart mode is a concrete one, ["plotext"] or ["ascii"],
    for each of the three modes of the command line, and it is
    ["plotext"] only when the module was imported. *)
Theorem effective_mode_is_concrete_and_available (p : TimelinePane) :
  (effective_mode p = "plotext"%string -> _plotext p = true) /\
  (valid_mode (chart_mode p) ->
   effective_mode p = "plotext"%string \/ effective_mode p = "ascii"%string).
Proof.
  destruct p as [mode avail]. unfold effective_mode. simpl. split.
  - destruct avail; [reflexivity|]. simpl. rewrite andb_true_r.
    destruct (String.eqb mode "plotext") eqn:E1; [discriminate|].
    destruct (String.eqb mode "auto") eqn:E2; [discriminate|].
    intros ->. discriminate E1.
  - intros [-> | [-> | ->]]; destruct avail; simpl; tauto.
Qed.

Lemma effective_mode_is_concrete_and_available_witness :
  effective_mode (TimelinePane_init "auto" false) = "plotext"%string \/
  effective_mode (TimelinePane_init "auto" false) = "ascii"%string.
Proof.
  destruct (effective_mode_is_concrete_and_available (TimelinePane_init "auto" false))
    as [_ H].
  apply H. left. reflexivity.
Defined.

(** X24: The chart key switches between the two concrete modes when plotext
    was imported, so that pressing it twice gives the effective mode back,
    and it sets ["ascii"] when plotext was not imported; the stored mode is
    never ["auto"] afterwards. *)
Theorem toggle_switches_between_concrete_modes (p : TimelinePane) :
  valid_mode (chart_mode p) ->
  _plotext (toggle_mode p) = _plotext p /\
  (chart_mode (toggle_mode p) = "plotext"%string \/
   chart_mode (toggle_mode p) = "ascii"%string) /\
  (_plotext p = true ->
   effective_mode (toggle_mode p) <> effective_mode p /\
   effective_mode (toggle_mode (toggle_mode p)) = effective_mode p) /\
  (_plotext p = false -> effective_mode (toggle_mode p) = "ascii"%string).
Proof.
  destruct p as [mode avail].
  intros [Hm | [Hm | Hm]]; simpl in Hm; subst mode; destruct avail;
    (split; [reflexivity|]); (split; [simpl; tauto|]); split;
    intros Ha;
    first [discriminate Ha | reflexivity | split; [discriminate | reflexivity]].
Qed.

Lemma toggle_switches_between_concrete_modes_witness :
  effective_mode (TimelinePane_init "auto" true) = "plotext"%string /\
  effective_mode (toggle_mode (TimelinePane_init "auto" true)) = "ascii"%string /\
  effective_mode (toggle_mode (toggle_mode (TimelinePane_init "auto" true)))
  = effective_mode (TimelinePane_init "auto" true).
Proof.
  destruct (toggle_switches_between_concrete_modes (TimelinePane_init "auto" true))
    as (_ & _ & Hon & _).
  - left. reflexivity.
  - destruct (Hon eq_refl) as [_ Hback].
    split; [reflexivity|]. split; [reflexivity | exact Hback].
Defined.

Lemma toggle_ascii_unavailable p :
  chart_mode p = "ascii"%string -> _plotext p = false ->
  chart_mode (toggle_mode p) = "ascii"%string /\ _plotext (toggle_mode p) = false.
Proof.
  destruct p as [mode avail]. simpl. intros -> ->. split; reflexivity.
Qed.

(** X25: A textual pane created in ["ascii"] mode never imports plotext, so the
    chart key can never leave ["ascii"], whether plotext is installed or
    not; the curses front end imports it in every mode, and there the key
    switches to ["plotext"]. *)
Theorem pane_created_in_ascii_stays_ascii (importable : bool) (n : nat) :
  effective_mode (Nat.iter n toggle_mode (TimelinePane_init "ascii" importable))
  = "ascii"%string /\
  effective_mode (toggle_mode (TUI_chart_init "ascii" true)) = "plotext"%string.
Proof.
  split; [|reflexivity].
  assert (H : chart_mode (Nat.iter n toggle_mode (TimelinePane_init "ascii" importable))
              = "ascii"%string /\
              _plotext (Nat.iter n toggle_mode (TimelinePane_init "ascii" importable))
              = false).
  { induction n as [|n IH]; [split; reflexivity|].
    simpl. destruct IH as [Hc Ha]. apply toggle_ascii_unavailable; assumption. }
  destruct H as [Hc Ha]. unfold effective_mode. rewrite Hc, Ha. reflexivity.
Qed.

(** ** The application *)

Lemma fold_deque_append (lines : list (string * string)) :
  forall d,
    (length (items d) <= maxlen d)%nat ->
    fold_left (fun d pl => deque_append (log_line pl) d) lines d
    = {| maxlen := maxlen d;
         items := keep_last (Z.of_nat (maxlen d))
                    (items d ++ map log_line lines) |}.
Proof.
  induction lines as [|pl rest IH]; intros d Hlen.
  - simpl. rewrite app_nil_r, keep_last_all by lia. destruct d; reflexivity.
  - simpl. rewrite IH.
    + simpl. rewrite keep_last_app, <- app_assoc. reflexivity.
    + simpl. pose proof (keep_last_length (Z.of_nat (maxlen d))
                           (items d ++ [log_line pl]) ltac:(lia)). lia.
Qed.

Lemma ensure_bucket_nonempty b m :
  inv m -> timeline (_ensure_bucket b m) <> [].
Proof.
  intros Hinv Hnil.
  pose proof (ensure_bucket_lookup b m Hinv) as Hs.
  apply (agrees_is_Some _ _ b (inv_index _ (ensure_bucket_inv b m Hinv))) in Hs.
  rewrite Hnil in Hs. inversion Hs.
Qed.

(** Backfill leaves a timeline that is not empty. *)
Lemma ensure_buckets_to_nonempty now m m' :
  inv m -> ensure_buckets_to now m = Done m' -> timeline m' <> [].
Proof.
  intros Hinv He. unfold ensure_buckets_to in He.
  destruct (last (timeline m)) as [e|] eqn:Hl.
  - destruct (_bucket_start m now) as [T|]; [|discriminate].
    destruct (fill_to _ _ _ m) as [m1|] eqn:Hf; [|discriminate].
    injection He as <-.
    apply (fill_to_invariant (fun m0 => inv m0 /\ timeline m0 <> [])) in Hf.
    + apply Hf.
    + intros b m0 [Hi _]. split; [apply ensure_bucket_inv, Hi|].
      apply ensure_bucket_nonempty, Hi.
    + split; [exact Hinv|]. intros Hnil. rewrite Hnil in Hl. discriminate.
  - destruct (_bucket_start m now) as [T|]; [|discriminate].
    injection He as <-. apply ensure_bucket_nonempty, Hinv.
Qed.

Section Application.

Context `{RT : Runtime}.

(** On a session state a line raises nothing but the [AttributeError] of
    a JSON value that is not an object. *)
Lemma update_line_raises_only now line m :
  inv m ->
  update_line now line m <> Diverged /\
  forall e m', update_line now line m = Raised e m' -> e = AttributeError.
Proof.
  intros Hinv. split; [apply update_line_not_diverged|].
  intros e m' Hu. destruct (json_loads line) as [v|] eqn:Hl.
  - destruct v;
      try (unfold update_line in Hu; rewrite Hl in Hu; congruence).
    destruct (update_line_record now line kvs m Hl Hinv) as (b & c & _ & _ & Hd).
    cbv zeta in Hd. congruence.
  - unfold update_line in Hu. rewrite Hl in Hu. discriminate.
Qed.

Lemma ingest_raises_only now lines m :
  inv m ->
  ingest now lines m <> Diverged /\
  forall e m', ingest now lines m = Raised e m' -> e = AttributeError.
Proof.
  revert m. induction lines as [|[path line] rest IH]; intros m Hinv.
  - split; [discriminate|]. intros e m' H. discriminate H.
  - simpl. destruct (update_line_raises_only now line m Hinv) as [Hnd Hra].
    destruct (update_line now line m) as [m1|e1 m1|] eqn:Hu.
    + apply IH. apply (update_line_inv now line m m1 Hinv). left. exact Hu.
    + split; [discriminate|]. intros e m' H. injection H as <- <-.
      apply (Hra e1 m1 eq_refl).
    + contradiction.
Qed.

Lemma ingest_shape now lines m m' :
  ends_in (ingest now lines m) m' ->
  bucket_seconds m' = bucket_seconds m /\ max_buckets m' = max_buckets m.
Proof.
  revert m. induction lines as [|[path line] rest IH]; intros m Hend.
  - destruct Hend as [Hd | [e Hr]]; [|discriminate]. simpl in Hd.
    split; congruence.
  - assert (Hline : forall m1, ends_in (update_line now line m) m1 ->
                               bucket_seconds m1 = bucket_seconds m /\
                               max_buckets m1 = max_buckets m).
    { intros m1 Hu.
      destruct (update_line_cases now line m m1 Hu)
        as [[_ ->] | [(v & _ & _ & ->) | (kvs & _ & Hsm)]];
        try (split; reflexivity).
      destruct Hsm as (_ & _ & _ & _ & _ & Hb & Hx). split; assumption. }
    simpl in Hend. destruct (update_line now line m) as [m1|e1 m1|] eqn:Hu.
    + destruct (IH m1 Hend) as [Hb Hx].
      destruct (Hline m1 (or_introl eq_refl)) as [Hb1 Hx1]. split; congruence.
    + destruct Hend as [Hd | [e Hr]]; [discriminate|]. injection Hr as <- <-.
      apply Hline. right. eexists. reflexivity.
    + destruct Hend as [Hd | [e Hr]]; discriminate.
Qed.

Lemma update_shape fs now m m' :
  ends_in (update fs now m) m' ->
  bucket_seconds m' = bucket_seconds m /\ max_buckets m' = max_buckets m.
Proof.
  unfold update. destruct (read_new_lines fs (tail m)) as [t lines].
  intros Hend. apply ingest_shape in Hend. exact Hend.
Qed.

Lemma update_raises_only fs now m :
  inv m ->
  update fs now m <> Diverged /\
  forall e m', update fs now m = Raised e m' -> e = AttributeError.
Proof.
  intros Hinv. unfold update. destruct (read_new_lines fs (tail m)) as [t lines].
  apply ingest_raises_only, set_tail_inv, Hinv.
Qed.

(** What an unpaused tick does, in terms of its poll, its update and its
    backfill. *)
Lemma tick_unfold fs n1 n2 a :
  paused a = false ->
  let buf := {| maxlen := maxlen (_log_buffer a);
                items := keep_last (Z.of_nat (maxlen (_log_buffer a)))
                           (items (_log_buffer a)
                            ++ map log_line (snd (read_new_lines fs (logs_tail a)))) |} in
  let a1 := {| paused := false; app_bucket_seconds := app_bucket_seconds a;
               logs_tail := fst (read_new_lines fs (logs_tail a));
               metrics := metrics a; _log_buffer := buf;
               timeline_view := timeline_view a |} in
  (length (items (_log_buffer a)) <= maxlen (_log_buffer a))%nat ->
  _tick fs n1 n2 a
  = match update fs n1 (metrics a) with
    | Done m1 =>
        match ensure_buckets_to n2 m1 with
        | Done m2 => AppDone (set_metrics m2 a1)
        | Raised e m2 => AppRaised e (set_metrics m2 a1)
        | Diverged => AppDiverged
        end
    | Raised e m1 => AppRaised e (set_metrics m1 a1)
    | Diverged => AppDiverged
    end.
Proof.
  intros Hp buf a1 Hlen. unfold _tick. rewrite Hp.
  subst a1 buf. destruct (read_new_lines fs (logs_tail a)) as [t lines]. simpl.
  rewrite (fold_deque_append lines (_log_buffer a) Hlen). reflexivity.
Qed.

Lemma tick_inv fs n1 n2 a a' :
  app_inv a -> app_ends_in (_tick fs n1 n2 a) a' -> app_inv a'.
Proof.
  intros (Hw & Hw1 & Hinv & Hmax & Hlen) Hend.
  destruct (paused a) eqn:Hp.
  { unfold _tick in Hend. rewrite Hp in Hend.
    destruct Hend as [Hd | [e Hr]]; [|discriminate]. injection Hd as <-.
    exact (conj Hw (conj Hw1 (conj Hinv (conj Hmax Hlen)))). }
  rewrite (tick_unfold fs n1 n2 a Hp Hlen) in Hend.
  assert (Hbuf : forall m2,
             inv m2 -> bucket_seconds m2 = bucket_seconds (metrics a) ->
             app_inv
               (set_metrics m2
                  {| paused := false; app_bucket_seconds := app_bucket_seconds a;
                     logs_tail := fst (read_new_lines fs (logs_tail a));
                     metrics := metrics a;
                     _log_buffer :=
                       {| maxlen := maxlen (_log_buffer a);
                          items := keep_last (Z.of_nat (maxlen (_log_buffer a)))
                                     (items (_log_buffer a)
                                      ++ map log_line
                                           (snd (read_new_lines fs (logs_tail a)))) |};
                     timeline_view := timeline_view a |})).
  { intros m2 Hi2 Hb2. unfold app_inv. simpl.
    split; [congruence|]. split; [exact Hw1|]. split; [exact Hi2|].
    split; [exact Hmax|].
    pose proof (keep_last_length (Z.of_nat (maxlen (_log_buffer a)))
                  (items (_log_buffer a)
                   ++ map log_line (snd (read_new_lines fs (logs_tail a))))
                  ltac:(lia)). lia. }
  destruct (update fs n1 (metrics a)) as [m1|e1 m1|] eqn:Hu.
  - assert (Hi1 : inv m1) by (eapply update_inv; [exact Hinv | left; exact Hu]).
    assert (Hb1 : bucket_seconds m1 = bucket_seconds (metrics a))
      by (eapply update_shape; left; exact Hu).
    destruct (ensure_buckets_to_inv n2 m1 Hi1) as (m2 & He & Hi2).
    rewrite He in Hend. destruct Hend as [Hd | [e Hr]]; [|discriminate].
    injection Hd as <-. apply Hbuf; [exact Hi2|].
    assert (Hs : same_outside_timeline m1 m2)
      by (eapply ensure_buckets_to_same; left; exact He).
    destruct Hs as (_ & _ & _ & _ & _ & Hb & _). congruence.
  - destruct Hend as [Hd | [e Hr]]; [discriminate|]. injection Hr as _ <-.
    apply Hbuf.
    + eapply update_inv; [exact Hinv | right; eexists; exact Hu].
    + eapply update_shape. right. eexists. exact Hu.
  - destruct Hend as [Hd | [e Hr]]; discriminate.
Qed.

Lemma set_app_bucket_inv b a :
  app_inv a -> 1 <= b -> app_inv (set_app_bucket b a).
Proof.
  intros (Hw & Hw1 & Hinv & Hmax & Hlen) Hb. unfold app_inv. simpl.
  split; [lia|]. split; [exact Hb|].
  split; [apply set_bucket_seconds_inv, Hinv|]. split; assumption.
Qed.

Lemma run_app_op_inv o a a' :
  app_inv a -> app_ends_in (run_app_op o a) a' -> app_inv a'.
Proof.
  intros Ha Hend. destruct o as [fs n1 n2|now| | | |]; simpl in Hend.
  - eapply tick_inv; eassumption.
  - destruct Ha as (Hw & Hw1 & Hinv & Hmax & Hlen). unfold on_mount in Hend.
    destruct (ensure_buckets_to_inv now (metrics a) Hinv) as (m2 & He & Hi2).
    rewrite He in Hend. destruct Hend as [Hd | [e Hr]]; [|discriminate].
    injection Hd as <-. unfold app_inv. simpl.
    assert (Hs : same_outside_timeline (metrics a) m2)
      by (eapply ensure_buckets_to_same; left; exact He).
    destruct Hs as (_ & _ & _ & _ & _ & Hb & _).
    exact (conj (eq_trans Hw (eq_sym Hb)) (conj Hw1 (conj Hi2 (conj Hmax Hlen)))).
  - destruct Hend as [Hd | [e Hr]]; [|discriminate]. injection Hd as <-.
    exact Ha.
  - destruct Hend as [Hd | [e Hr]]; [|discriminate]. injection Hd as <-.
    apply set_app_bucket_inv; [exact Ha | lia].
  - destruct Hend as [Hd | [e Hr]]; [|discriminate]. injection Hd as <-.
    apply set_app_bucket_inv; [exact Ha|]. destruct Ha as (_ & Hw1 & _). lia.
  - destruct Hend as [Hd | [e Hr]]; [|discriminate]. injection Hd as <-.
    exact Ha.
Qed.

Lemma app_exec_inv ops a a' :
  app_inv a -> app_ends_in (app_exec ops a) a' -> app_inv a'.
Proof.
  revert a. induction ops as [|o rest IH]; intros a Ha Hend.
  - destruct Hend as [Hd | [e Hr]]; [|discriminate]. simpl in Hd. congruence.
  - simpl in Hend. destruct (run_app_op o a) as [a1|e1 a1|] eqn:Hr1.
    + apply (IH a1); [|exact Hend]. apply (run_app_op_inv o a a1 Ha). left. exact Hr1.
    + destruct Hend as [Hd | [e Hr]]; [discriminate|]. injection Hr as <- <-.
      apply (run_app_op_inv o a a1 Ha). right. eexists. exact Hr1.
    + destruct Hend as [Hd | [e Hr]]; discriminate.
Qed.

Lemma app_init_inv logs_glob metrics_glob bucket chart importable :
  app_inv (MonitorApp_init logs_glob metrics_glob bucket chart importable).
Proof.
  unfold app_inv. simpl. split; [lia|]. split; [lia|].
  split; [apply init_inv|]. split; [reflexivity | lia].
Qed.

End Application.

Section ApplicationRuns.

Context `{RT : Runtime}.

(** What an unpaused tick ends in: the state with the polled log lines
    appended and an aggregator of the same shape. *)
Lemma tick_post fs n1 n2 a a' :
  app_inv a -> paused a = false ->
  app_ends_in (_tick fs n1 n2 a) a' ->
  exists m',
    a' = {| paused := false; app_bucket_seconds := app_bucket_seconds a;
            logs_tail := fst (read_new_lines fs (logs_tail a));
            metrics := m';
            _log_buffer :=
              {| maxlen := maxlen (_log_buffer a);
                 items := keep_last (Z.of_nat (maxlen (_log_buffer a)))
                            (items (_log_buffer a)
                             ++ map log_line (snd (read_new_lines fs (logs_tail a)))) |};
            timeline_view := timeline_view a |} /\
    inv m' /\
    bucket_seconds m' = bucket_seconds (metrics a) /\
    max_buckets m' = max_buckets (metrics a).
Proof.
  intros (Hw & Hw1 & Hinv & Hmax & Hlen) Hp Hend.
  rewrite (tick_unfold fs n1 n2 a Hp Hlen) in Hend.
  destruct (update fs n1 (metrics a)) as [m1|e1 m1|] eqn:Hu.
  - assert (Hi1 : inv m1) by (eapply update_inv; [exact Hinv | left; exact Hu]).
    destruct (update_shape fs n1 (metrics a) m1 (or_introl Hu)) as [Hb1 Hx1].
    destruct (ensure_buckets_to_inv n2 m1 Hi1) as (m2 & He & Hi2).
    rewrite He in Hend. destruct Hend as [Hd | [e Hr]]; [|discriminate].
    injection Hd as <-. exists m2. split; [reflexivity|]. split; [exact Hi2|].
    assert (Hs : same_outside_timeline m1 m2)
      by (eapply ensure_buckets_to_same; left; exact He).
    destruct Hs as (_ & _ & _ & _ & _ & Hb & Hx). split; congruence.
  - destruct Hend as [Hd | [e Hr]]; [discriminate|]. injection Hr as _ <-.
    exists m1. split; [reflexivity|].
    split; [eapply update_inv; [exact Hinv | right; eexists; exact Hu]|].
    eapply update_shape. right. eexists. exact Hu.
  - destruct Hend as [Hd | [e Hr]]; discriminate.
Qed.

(** The bounds an operation keeps: the capacity of the timeline and the
    upper end of the bucket width. *)
Lemma run_app_op_bounds top o a a' :
  app_inv a -> 120 <= top ->
  max_buckets (metrics a) = 72 /\ app_bucket_seconds a <= top ->
  app_ends_in (run_app_op o a) a' ->
  max_buckets (metrics a') = 72 /\ app_bucket_seconds a' <= top.
Proof.
  intros Ha Htop [Hx Hb] Hend.
  destruct o as [fs n1 n2|now| | | |]; simpl in Hend.
  - destruct (paused a) eqn:Hp.
    + unfold _tick in Hend. rewrite Hp in Hend.
      destruct Hend as [Hd | [e Hr]]; [|discriminate]. injection Hd as <-.
      split; assumption.
    + destruct (tick_post fs n1 n2 a a' Ha Hp Hend) as (m' & -> & _ & _ & Hx').
      simpl. split; [congruence | exact Hb].
  - destruct Ha as (_ & _ & Hinv & _). unfold on_mount in Hend.
    destruct (ensure_buckets_to_inv now (metrics a) Hinv) as (m2 & He & _).
    assert (Hs : same_outside_timeline (metrics a) m2)
      by (eapply ensure_buckets_to_same; left; exact He).
    destruct Hs as (_ & _ & _ & _ & _ & _ & Hx2).
    rewrite He in Hend. destruct Hend as [Hd | [e Hr]]; [|discriminate].
    injection Hd as <-. simpl. split; [congruence | exact Hb].
  - destruct Hend as [Hd | [e Hr]]; [|discriminate]. injection Hd as <-.
    split; assumption.
  - destruct Hend as [Hd | [e Hr]]; [|discriminate]. injection Hd as <-.
    destruct Ha as (_ & Hw1 & _). simpl. split; [exact Hx | lia].
  - destruct Hend as [Hd | [e Hr]]; [|discriminate]. injection Hd as <-.
    simpl. split; [exact Hx | lia].
  - destruct Hend as [Hd | [e Hr]]; [|discriminate]. injection Hd as <-.
    split; assumption.
Qed.

Lemma app_exec_bounds top ops a a' :
  app_inv a -> 120 <= top ->
  max_buckets (metrics a) = 72 /\ app_bucket_seconds a <= top ->
  app_ends_in (app_exec ops a) a' ->
  max_buckets (metrics a') = 72 /\ app_bucket_seconds a' <= top.
Proof.
  intros Ha Htop. revert a Ha. induction ops as [|o rest IH]; intros a Ha Hb Hend.
  - destruct Hend as [Hd | [e Hr]]; [|discriminate]. simpl in Hd.
    injection Hd as <-. exact Hb.
  - simpl in Hend. destruct (run_app_op o a) as [a1|e1 a1|] eqn:Hr1.
    + apply (IH a1); [| |exact Hend].
      * apply (run_app_op_inv o a a1 Ha). left. exact Hr1.
      * apply (run_app_op_bounds top o a a1 Ha Htop Hb). left. exact Hr1.
    + destruct Hend as [Hd | [e Hr]]; [discriminate|]. injection Hr as <- <-.
      apply (run_app_op_bounds top o a a1 Ha Htop Hb). right. eexists. exact Hr1.
    + destruct Hend as [Hd | [e Hr]]; discriminate.
Qed.

(** X26: The application state keeps its shape along every run of ticks and
    key actions from [MonitorApp.__init__]: the application and its
    aggregator agree on the bucket width, the width lies between 1 and
    the larger of 120 and the width asked for, the log buffer holds at
    most 500 lines, and the timeline has at most 72 buckets with distinct
    starts. *)
Theorem application_state_keeps_its_shape
    (ops : list app_op) (logs_glob metrics_glob : string) (bucket : Z)
    (chart : string) (importable : bool) (a' : MonitorApp) :
  app_ends_in
    (app_exec ops (MonitorApp_init logs_glob metrics_glob bucket chart importable))
    a' ->
  app_bucket_seconds a' = bucket_seconds (metrics a') /\
  1 <= app_bucket_seconds a' <= Z.max 120 bucket /\
  (length (items (_log_buffer a')) <= 500)%nat /\
  (length (timeline (metrics a')) <= 72)%nat /\
  NoDup (starts (timeline (metrics a'))).
Proof.
  intros Hend.
  pose proof (app_init_inv logs_glob metrics_glob bucket chart importable) as H0.
  pose proof (app_exec_inv ops _ a' H0 Hend) as (Hw & Hw1 & Hinv & Hmax & Hlen).
  destruct (app_exec_bounds (Z.max 120 bucket) ops _ a' H0 ltac:(lia)
              ltac:(simpl; split; [reflexivity | lia]) Hend) as [Hx Hb].
  split; [exact Hw|]. split; [lia|]. split; [lia|].
  split; [|apply (inv_nodup _ Hinv)].
  pose proof (inv_len _ Hinv). lia.
Qed.

(** X27: For a [--bucket] argument of at most [2^53] every state the
    application reaches has a bucket width between 1 and [2^53], the
    range in which [_bucket_start] computes exactly and [ts % w] cannot
    overflow.  A tick of such a state returns: it never diverges, the
    only exception it lets through is the [AttributeError] of a metrics
    line that is JSON but no object, and a tick that is not paused and
    returns normally leaves a timeline that is not empty. *)
Theorem tick_returns_or_raises_attribute_error
    (ops : list app_op) (logs_glob metrics_glob : string) (bucket : Z)
    (chart : string) (importable : bool) (a : MonitorApp)
    (fs : FileSystem) (n1 n2 : Q) :
  bucket <= float_exact_limit ->
  app_exec ops (MonitorApp_init logs_glob metrics_glob bucket chart importable)
  = AppDone a ->
  1 <= bucket_seconds (metrics a) <= float_exact_limit /\
  _tick fs n1 n2 a <> AppDiverged /\
  (forall e a', _tick fs n1 n2 a = AppRaised e a' -> e = AttributeError) /\
  (forall a', paused a = false -> _tick fs n1 n2 a = AppDone a' ->
              timeline (metrics a') <> []).
Proof.
  intros Hbucket Hrun.
  pose proof (app_init_inv logs_glob metrics_glob bucket chart importable) as H0.
  assert (Ha : app_inv a).
  { eapply app_exec_inv; [exact H0 | left; exact Hrun]. }
  assert (Hlimit : float_exact_limit = 9007199254740992) by reflexivity.
  rewrite Hlimit in Hbucket |- *.
  assert (Hinit : max_buckets (metrics (MonitorApp_init logs_glob metrics_glob
                                          bucket chart importable)) = 72 /\
                  app_bucket_seconds (MonitorApp_init logs_glob metrics_glob
                                        bucket chart importable)
                  <= 9007199254740992).
  { split; [reflexivity|]. unfold MonitorApp_init. cbn [app_bucket_seconds]. lia. }
  destruct (app_exec_bounds 9007199254740992 ops _ a H0 ltac:(lia) Hinit
              (or_introl Hrun)) as [_ Htop].
  split.
  { destruct Ha as (Hw & Hw1 & _). rewrite <- Hw. lia. }
  destruct (paused a) eqn:Hp.
  { unfold _tick. rewrite Hp. split; [discriminate|].
    split; [intros e a' H; discriminate H | intros a' H; discriminate H]. }
  destruct Ha as (Hw & Hw1 & Hinv & Hmax & Hlen).
  rewrite (tick_unfold fs n1 n2 a Hp Hlen).
  destruct (update_raises_only fs n1 (metrics a) Hinv) as [Hnd Hra].
  destruct (update fs n1 (metrics a)) as [m1|e1 m1|] eqn:Hu.
  - assert (Hi1 : inv m1) by (eapply update_inv; [exact Hinv | left; exact Hu]).
    destruct (ensure_buckets_to_inv n2 m1 Hi1) as (m2 & He & Hi2).
    rewrite He. split; [discriminate|].
    split; [intros e a' H; discriminate H|].
    intros a' _ Hd. injection Hd as <-. simpl.
    apply (ensure_buckets_to_nonempty n2 m1 m2 Hi1 He).
  - split; [discriminate|]. split.
    + intros e a' H. injection H as <- _. apply (Hra e1 m1 eq_refl).
    + intros a' _ H. discriminate H.
  - contradiction.
Qed.

(** X28: A tick that is not paused appends the polled log lines, each as
    [[basename] line], to the log buffer and keeps the newest 500; it
    records the offsets of that poll.  Both hold also when the metrics
    update of the same tick raises. *)
Theorem tick_appends_the_polled_log_lines
    (ops : list app_op) (logs_glob metrics_glob : string) (bucket : Z)
    (chart : string) (importable : bool) (a a' : MonitorApp)
    (fs : FileSystem) (n1 n2 : Q) :
  app_exec ops (MonitorApp_init logs_glob metrics_glob bucket chart importable)
  = AppDone a ->
  paused a = false ->
  app_ends_in (_tick fs n1 n2 a) a' ->
  items (_log_buffer a')
  = keep_last 500 (items (_log_buffer a)
                   ++ map log_line (snd (read_new_lines fs (logs_tail a)))) /\
  logs_tail a' = fst (read_new_lines fs (logs_tail a)).
Proof.
  intros Hrun Hp Hend.
  assert (Ha : app_inv a).
  { eapply app_exec_inv; [apply app_init_inv | left; exact Hrun]. }
  destruct (tick_post fs n1 n2 a a' Ha Hp Hend) as (m' & -> & _).
  destruct Ha as (_ & _ & _ & Hmax & _). simpl. rewrite Hmax.
  split; reflexivity.
Qed.

Lemma paused_ticks_do_nothing ticks a :
  Forall is_tick ticks -> paused a = true -> app_exec ticks a = AppDone a.
Proof.
  intros Hall Hp. induction Hall as [|o rest Ho _ IH]; [reflexivity|].
  destruct o as [fs n1 n2| | | | |]; try contradiction.
  simpl. unfold _tick. rewrite Hp. exact IH.
Qed.

Lemma app_exec_app ops1 ops2 a a1 :
  app_exec ops1 a = AppDone a1 ->
  app_exec (ops1 ++ ops2) a = app_exec ops2 a1.
Proof.
  revert a. induction ops1 as [|o rest IH]; intros a Hr.
  - simpl in Hr. injection Hr as <-. reflexivity.
  - simpl in Hr |- *. destruct (run_app_op o a) as [a2|e2 a2|]; try discriminate.
    apply IH, Hr.
Qed.

(** X29: Pausing, any number of ticks, then resuming leaves the application as
    it was: a paused application polls no file, so the offsets, the
    counters, the timeline and the log buffer are those of before. *)
Theorem pause_then_resume_changes_nothing
    (ticks : list app_op) (a : MonitorApp) :
  Forall is_tick ticks ->
  paused a = false ->
  app_exec (KeyPause :: ticks ++ [KeyPause]) a = AppDone a.
Proof.
  intros Hall Hp. simpl.
  rewrite (app_exec_app ticks [KeyPause] (action_toggle_pause a)
             (action_toggle_pause a)).
  - simpl. f_equal. destruct a as [p b lt m buf tv]. simpl in Hp. subst p.
    reflexivity.
  - apply paused_ticks_do_nothing; [exact Hall|]. simpl. rewrite Hp. reflexivity.
Qed.

End ApplicationRuns.

Lemma application_state_keeps_its_shape_witness :
  app_ends_in (@app_exec sample_runtime sample_session fresh_app)
    (app_after sample_session) /\
  app_bucket_seconds (app_after sample_session)
  = bucket_seconds (metrics (app_after sample_session)) /\
  1 <= app_bucket_seconds (app_after sample_session) <= Z.max 120 10 /\
  (length (items (_log_buffer (app_after sample_session))) <= 500)%nat /\
  (length (timeline (metrics (app_after sample_session))) <= 72)%nat /\
  NoDup (starts (timeline (metrics (app_after sample_session)))).
Proof.
  assert (Hd : @app_exec sample_runtime sample_session fresh_app
               = AppDone (app_after sample_session)) by (vm_compute; reflexivity).
  split; [left; exact Hd|].
  apply (@application_state_keeps_its_shape sample_runtime sample_session
           "instance_*.log" "metrics/*.jsonl" 10 "auto" true
           (app_after sample_session)).
  left. exact Hd.
Defined.

Lemma tick_returns_or_raises_attribute_error_witness :
  let fs := one_file (line_number +:+ newline)%string in
  let now := inject_Z (epoch_2024 + 9) in
  10 <= float_exact_limit /\
  @app_exec wider_runtime sample_session fresh_app
  = AppDone (app_after sample_session) /\
  (exists a', @_tick wider_runtime fs now now (app_after sample_session)
              = AppRaised AttributeError a') /\
  1 <= bucket_seconds (metrics (app_after sample_session)) <= float_exact_limit /\
  @_tick wider_runtime fs now now (app_after sample_session) <> AppDiverged /\
  (forall e a', @_tick wider_runtime fs now now (app_after sample_session)
                = AppRaised e a' -> e = AttributeError) /\
  (forall a', paused (app_after sample_session) = false ->
              @_tick wider_runtime fs now now (app_after sample_session)
              = AppDone a' -> timeline (metrics a') <> []).
Proof.
  intros fs now.
  assert (Hb : 10 <= float_exact_limit) by (vm_compute; discriminate).
  assert (Hd : @app_exec wider_runtime sample_session fresh_app
               = AppDone (app_after sample_session)) by (vm_compute; reflexivity).
  split; [exact Hb|]. split; [exact Hd|]. split.
  - eexists. vm_compute. reflexivity.
  - apply (@tick_returns_or_raises_attribute_error wider_runtime sample_session
             "instance_*.log" "metrics/*.jsonl" 10 "auto" true
             (app_after sample_session) fs now now Hb).
    exact Hd.
Defined.

Lemma tick_appends_the_polled_log_lines_witness :
  let now := inject_Z (epoch_2024 + 4) in
  let a' := app_after [Tick log_file now now] in
  @app_exec sample_runtime [] fresh_app = AppDone fresh_app /\
  paused fresh_app = false /\
  app_ends_in (@_tick sample_runtime log_file now now fresh_app) a' /\
  items (_log_buffer a')
  = ["[instance_1.log] started"%string; "[instance_1.log] attempt 1 ok"%string] /\
  items (_log_buffer a')
  = keep_last 500 (items (_log_buffer fresh_app)
                   ++ map log_line
                        (snd (@read_new_lines sample_runtime log_file
                                (logs_tail fresh_app)))) /\
  logs_tail a' = fst (@read_new_lines sample_runtime log_file (logs_tail fresh_app)).
Proof.
  intros now a'.
  assert (Hd : @_tick sample_runtime log_file now now fresh_app = AppDone a')
    by (vm_compute; reflexivity).
  split; [reflexivity|]. split; [reflexivity|]. split; [left; exact Hd|].
  split; [vm_compute; reflexivity|].
  apply (@tick_appends_the_polled_log_lines sample_runtime []
           "instance_*.log" "metrics/*.jsonl" 10 "auto" true fresh_app a'
           log_file now now).
  - reflexivity.
  - reflexivity.
  - left. exact Hd.
Defined.

Lemma pause_then_resume_changes_nothing_witness :
  Forall is_tick two_ticks /\
  paused fresh_app = false /\
  @app_exec sample_runtime two_ticks fresh_app <> AppDone fresh_app /\
  @app_exec sample_runtime (KeyPause :: two_ticks ++ [KeyPause]) fresh_app
  = AppDone fresh_app.
Proof.
  assert (Hall : Forall is_tick two_ticks).
  { unfold two_ticks. repeat constructor. }
  split; [exact Hall|]. split; [reflexivity|]. split.
  - assert (Hn : items (_log_buffer (app_after two_ticks)) <> [])
      by (vm_compute; discriminate).
    assert (Hd : @app_exec sample_runtime two_ticks fresh_app
                 = AppDone (app_after two_ticks)) by (vm_compute; reflexivity).
    rewrite Hd. intros Heq.
    apply (f_equal (fun r => match r with
                             | AppDone a0 => items (_log_buffer a0)
                             | _ => []
                             end)) in Heq.
    cbv beta iota in Heq. apply Hn. rewrite Heq. reflexivity.
  - apply (@pause_then_resume_changes_nothing sample_runtime two_ticks fresh_app
             Hall).
    reflexivity.
Defined.

(** ** Regions by volume *)

Lemma insert_by_volume_perm x l : insert_by_volume x l ≡ₚ x :: l.
Proof.
  induction l as [|y rest IH]; [reflexivity|]. simpl.
  destruct (volume y <=? volume x)%nat; [reflexivity|].
  rewrite IH. apply Permutation_swap.
Qed.

Lemma sorted_by_volume_perm items : sorted_by_volume items ≡ₚ items.
Proof.
  induction items as [|x rest IH]; [reflexivity|].
  unfold sorted_by_volume in *. simpl.
  rewrite insert_by_volume_perm, IH. reflexivity.
Qed.

Lemma insert_by_volume_sorted x l :
  StronglySorted (fun a b => (volume b <= volume a)%nat) l ->
  StronglySorted (fun a b => (volume b <= volume a)%nat) (insert_by_volume x l).
Proof.
  induction 1 as [|y rest Hs IH Hall]; simpl.
  - constructor; constructor.
  - destruct (volume y <=? volume x)%nat eqn:Hc.
    + apply Nat.leb_le in Hc. constructor.
      * constructor; assumption.
      * constructor; [exact Hc|].
        eapply Forall_impl; [exact Hall|]. simpl. intros z Hz. lia.
    + apply Nat.leb_gt in Hc. constructor; [exact IH|].
      rewrite insert_by_volume_perm. constructor; [lia | exact Hall].
Qed.

Lemma sorted_by_volume_sorted items :
  StronglySorted (fun a b => (volume b <= volume a)%nat) (sorted_by_volume items).
Proof.
  induction items as [|x rest IH]; [constructor|].
  unfold sorted_by_volume in *. simpl. apply insert_by_volume_sorted, IH.
Qed.

Lemma StronglySorted_across {A} (R : A -> A -> Prop) (l1 l2 : list A) :
  StronglySorted R (l1 ++ l2) ->
  forall x y, x ∈ l1 -> y ∈ l2 -> R x y.
Proof.
  induction l1 as [|a l1 IH]; intros Hs x y Hx Hy.
  - inversion Hx.
  - simpl in Hs. apply StronglySorted_inv in Hs as [Hs Hall].
    apply elem_of_cons in Hx as [-> | Hx].
    + rewrite Forall_forall in Hall. apply Hall.
      apply elem_of_app. right. exact Hy.
    + apply IH; assumption.
Qed.

Lemma StronglySorted_take {A} (R : A -> A -> Prop) (n : nat) (l : list A) :
  StronglySorted R l -> StronglySorted R (take n l).
Proof.
  intros Hs. revert n. induction Hs as [|a l Hs IH Hall]; intros [|n]; simpl;
    try constructor.
  - apply IH.
  - apply Forall_take, Hall.
Qed.

(** X30: The regions the stats pane lists are those of largest volume: as many
    as asked for when there are that many, in descending order of volume,
    and no region left out has more records than a listed one.  The top
    region of the header is ["unknown"] when no region was seen and
    otherwise a region of largest volume. *)
Theorem top_regions_are_the_largest
    (n : nat) (items : list (string * (nat * nat))) :
  length (top_regions n items) = Nat.min n (length items) /\
  StronglySorted (fun a b => (volume b <= volume a)%nat) (top_regions n items) /\
  (exists others,
      top_regions n items ++ others ≡ₚ items /\
      forall x y, x ∈ top_regions n items -> y ∈ others ->
                  (volume y <= volume x)%nat) /\
  (items = [] -> top_region items = "unknown"%string) /\
  (items <> [] ->
   exists kv, kv ∈ items /\ top_region items = fst kv /\
              forall y, y ∈ items -> (volume y <= volume kv)%nat).
Proof.
  pose proof (sorted_by_volume_perm items) as Hperm.
  pose proof (sorted_by_volume_sorted items) as Hsorted.
  unfold top_regions, top_region. split; [|split; [|split; [|split]]].
  - rewrite length_take, (Permutation_length Hperm). reflexivity.
  - apply StronglySorted_take, Hsorted.
  - exists (drop n (sorted_by_volume items)). split.
    + rewrite take_drop. exact Hperm.
    + apply StronglySorted_across. rewrite take_drop. exact Hsorted.
  - intros ->. reflexivity.
  - intros Hne. destruct (sorted_by_volume items) as [|kv rest] eqn:Hs.
    + apply Permutation_nil_l in Hperm. congruence.
    + exists kv. split; [rewrite <- Hperm; left|]. split; [reflexivity|].
      intros y Hy. rewrite <- Hperm in Hy.
      apply elem_of_cons in Hy as [-> | Hy]; [lia|].
      apply StronglySorted_inv in Hsorted as [_ Hall].
      rewrite Forall_forall in Hall. apply Hall, Hy.
Qed.
